(** * Market tick generator and market-data processor

    A shallow embedding of [src/cpp/src/hft/market_data_processor.cpp] and of
    its header [market_data_processor.hpp]: the pseudo-random core, the
    symbol/venue registry, [generate_tick], [generate_tick_batch],
    [process_tick], [calculate_risk_metrics] and the flat-call boundary.

    Conventions of the embedding.
    - [uint8_t], [uint32_t], [uint64_t] and [size_t] values are integers of
      [Z]; every wrap-around the C++ arithmetic performs is written out with
      [wrap32] and [wrap64].
    - [float] is IEEE-754 binary32 with round-to-nearest-even, every
      operation rounded on its own: the operations are those of
      [SpecFloat] at precision 24 and maximal exponent 128.
    - Methods of a class thread the object as the state of a small state
      monad; a pointer argument that may be null is an [option].
    - Readings of [std::chrono::high_resolution_clock] are inputs. *)

From Stdlib Require Import ZArith Bool List Lia String Reals Lra.
From Stdlib Require Import Floats.SpecFloat.
From stdpp Require Import base list.
Import ListNotations.

#[local] Open Scope Z_scope.

(** ** Machine integers *)

Module UInt.

Definition wrap8 (x : Z) : Z := x mod 2 ^ 8.
Definition wrap32 (x : Z) : Z := x mod 2 ^ 32.
Definition wrap64 (x : Z) : Z := x mod 2 ^ 64.

Definition is_u32 (x : Z) : Prop := 0 <= x < 2 ^ 32.
Definition is_u64 (x : Z) : Prop := 0 <= x < 2 ^ 64.

End UInt.

(** ** Binary32 floating point *)

Module F32.

Definition prec : Z := 24.
Definition emax : Z := 128.

Definition float : Type := spec_float.

Definition add : float -> float -> float := SFadd prec emax.
Definition sub : float -> float -> float := SFsub prec emax.
Definition mul : float -> float -> float := SFmul prec emax.
Definition div : float -> float -> float := SFdiv prec emax.
Definition sqrt : float -> float := SFsqrt prec emax.
Definition neg : float -> float := SFopp.
Definition fabs : float -> float := SFabs.

(** The comparison operators of C++ on [float]: false on NaN. *)
Definition ltb : float -> float -> bool := SFltb.
Definition leb : float -> float -> bool := SFleb.
Definition gtb (x y : float) : bool := SFltb y x.

(** Conversion of an integer to [float] (rounding to nearest). *)
Definition of_Z (n : Z) : float := binary_normalize prec emax n 0 false.

(** A decimal literal [num/den] with the suffix [f]: the float nearest to
    the quotient, which is what the correctly rounded division of the two
    (exactly represented) integers gives. *)
Definition lit (num den : Z) : float := div (of_Z num) (of_Z den).

(** [std::max(a, b)] is [(a < b) ? b : a]. *)
Definition max (a b : float) : float := if ltb a b then b else a.

(** Truncation toward zero, the value of [static_cast<uint32_t>(x)] when it
    is in range (the source leaves the other cases undefined). *)
Definition trunc (x : float) : Z :=
  match x with
  | S754_finite s m e =>
      let v := match e with
               | Zneg p => Z.shiftr (Zpos m) (Zpos p)
               | _ => Z.shiftl (Zpos m) e
               end in
      if s then - v else v
  | _ => 0
  end.

Definition to_u32 (x : float) : Z := UInt.wrap32 (trunc x).

Definition is_nan (x : float) : bool :=
  match x with S754_nan => true | _ => false end.

Definition is_finite (x : float) : bool :=
  match x with S754_finite _ _ _ | S754_zero _ => true | _ => false end.

Definition valid (x : float) : bool := valid_binary prec emax x.

Definition zero : float := S754_zero false.
Definition one : float := of_Z 1.

End F32.

Abbreviation f32 := F32.float.

(** ** Data model (market_data_processor.hpp) *)

Record MarketTick : Type := mkMarketTick {
  timestamp_ns : Z;      (* uint64_t *)
  symbol_id : Z;         (* uint32_t *)
  bid_price : f32;
  ask_price : f32;
  bid_size : Z;          (* uint32_t *)
  ask_size : Z;          (* uint32_t *)
  last_price : f32;
  volume : Z;            (* uint32_t *)
  venue_id : Z;          (* uint8_t *)
  spread_bps : f32
}.

Definition mid_price (t : MarketTick) : f32 :=
  F32.mul (F32.add (bid_price t) (ask_price t)) (F32.lit 5 10).
Definition spread (t : MarketTick) : f32 := F32.sub (ask_price t) (bid_price t).
Definition is_valid (t : MarketTick) : bool :=
  F32.gtb (bid_price t) F32.zero && F32.gtb (ask_price t) (bid_price t).

Definition set_timestamp_ns (t : MarketTick) (ts : Z) : MarketTick :=
  mkMarketTick ts (symbol_id t) (bid_price t) (ask_price t) (bid_size t)
    (ask_size t) (last_price t) (volume t) (venue_id t) (spread_bps t).

Record VenueInfo : Type := mkVenueInfo {
  name : string;
  maker_fee : f32;
  taker_fee : f32;
  rebate : f32;
  base_latency_us : Z;
  jitter_range_us : Z
}.

Record SymbolState : Type := mkSymbolState {
  current_price : f32;
  volatility : f32;
  avg_volume : Z;        (* uint32_t *)
  tick_multiplier : Z;   (* uint32_t *)
  last_update_ns : Z;    (* uint64_t *)
  price_trend : f32;
  symbol_name : string
}.

(** The two assignments [generate_tick] makes to the selected symbol. *)
Definition commit_price (s : SymbolState) (p : f32) (now : Z) : SymbolState :=
  mkSymbolState p (volatility s) (avg_volume s) (tick_multiplier s) now
    (price_trend s) (symbol_name s).

Definition MAX_SYMBOLS : Z := 64.
Definition MAX_VENUES : Z := 8.

(** [symbols_] and [venues_] are the two [std::array]s at their full
    capacity; [num_symbols_] and [num_venues_] count the entries in use. *)
Record Generator : Type := mkGenerator {
  symbols_ : list SymbolState;
  venues_ : list VenueInfo;
  rng_state_ : Z;                 (* uint64_t *)
  total_ticks_generated_ : Z;     (* uint64_t *)
  generation_time_ns_ : Z;        (* uint64_t *)
  num_symbols_ : Z;               (* size_t *)
  num_venues_ : Z;                (* size_t *)
  target_tick_interval_ns_ : Z    (* uint64_t *)
}.

Definition blank_symbol : SymbolState :=
  mkSymbolState F32.zero F32.zero 0 0 0 F32.zero EmptyString.
Definition blank_venue : VenueInfo :=
  mkVenueInfo EmptyString F32.zero F32.zero F32.zero 0 0.
Definition blank_tick : MarketTick :=
  mkMarketTick 0 0 F32.zero F32.zero 0 0 F32.zero 0 0 F32.zero.

#[export] Instance SymbolState_inhabited : Inhabited SymbolState :=
  populate blank_symbol.
#[export] Instance MarketTick_inhabited : Inhabited MarketTick :=
  populate blank_tick.

(** ** A state monad over the object a method runs on *)

Definition M (S A : Type) : Type := S -> A * S.

Definition ret {S A : Type} (a : A) : M S A := fun s => (a, s).
Definition bind {S A B : Type} (c : M S A) (k : A -> M S B) : M S B :=
  fun s => let (a, s') := c s in k a s'.
Definition get {S : Type} : M S S := fun s => (s, s).
Definition modify {S : Type} (f : S -> S) : M S unit := fun s => (tt, f s).

Declare Scope monad_scope.
Delimit Scope monad_scope with monad.
Notation "'do' x <- c ; k" := (bind c (fun x => k))
  (at level 10, x name, c at level 100, k at level 200) : monad_scope.
#[local] Open Scope monad_scope.

(** The three readings of the clock one call makes, as nanosecond counts
    of [time_since_epoch()] (a signed 64-bit count). *)
Record ClockReads : Type := mkClockReads {
  t_start : Z;
  t_update : Z;
  t_end : Z
}.

Definition elapsed_ns (c : ClockReads) : Z := UInt.wrap64 (t_end c - t_start c).

(** ** The tick generator (class HighFrequencyTickGenerator) *)

Module Gen.

Import UInt.

Definition set_symbols (g : Generator) (l : list SymbolState) : Generator :=
  mkGenerator l (venues_ g) (rng_state_ g) (total_ticks_generated_ g)
    (generation_time_ns_ g) (num_symbols_ g) (num_venues_ g)
    (target_tick_interval_ns_ g).

Definition set_venues (g : Generator) (l : list VenueInfo) : Generator :=
  mkGenerator (symbols_ g) l (rng_state_ g) (total_ticks_generated_ g)
    (generation_time_ns_ g) (num_symbols_ g) (num_venues_ g)
    (target_tick_interval_ns_ g).

Definition set_rng_state (g : Generator) (x : Z) : Generator :=
  mkGenerator (symbols_ g) (venues_ g) x (total_ticks_generated_ g)
    (generation_time_ns_ g) (num_symbols_ g) (num_venues_ g)
    (target_tick_interval_ns_ g).

Definition set_counts (g : Generator) (ns nv : Z) : Generator :=
  mkGenerator (symbols_ g) (venues_ g) (rng_state_ g)
    (total_ticks_generated_ g) (generation_time_ns_ g) ns nv
    (target_tick_interval_ns_ g).

Definition set_perf (g : Generator) (ticks time : Z) : Generator :=
  mkGenerator (symbols_ g) (venues_ g) (rng_state_ g) ticks time
    (num_symbols_ g) (num_venues_ g) (target_tick_interval_ns_ g).

Definition set_interval (g : Generator) (i : Z) : Generator :=
  mkGenerator (symbols_ g) (venues_ g) (rng_state_ g)
    (total_ticks_generated_ g) (generation_time_ns_ g) (num_symbols_ g)
    (num_venues_ g) i.

(** *** Pseudo-random core *)

Definition xorshift64_step (x : Z) : Z :=
  let x := Z.lxor x (wrap64 (Z.shiftl x 13)) in
  let x := Z.lxor x (Z.shiftr x 7) in
  let x := Z.lxor x (wrap64 (Z.shiftl x 17)) in
  x.

Definition xorshift64 : M Generator Z :=
  fun g => let x := xorshift64_step (rng_state_ g) in (x, set_rng_state g x).

(** [min + normalized * (max - min)] with [normalized] the low 24 bits of
    the draw over 2^24. *)
Definition fast_random_float (min max : f32) : M Generator f32 :=
  do r <- xorshift64;
  let normalized := F32.div (F32.of_Z (Z.land r 16777215)) (F32.of_Z 16777216) in
  ret (F32.add min (F32.mul normalized (F32.sub max min))).

(** [min + (xorshift64() % (max - min + 1))]: the range is computed on 32
    bits, the remainder and the sum on 64, and the result is narrowed to
    32 bits on return.  A range that wraps to 0 is a division by zero in
    the source. *)
Definition fast_random_uint32 (min max : Z) : M Generator Z :=
  do r <- xorshift64;
  ret (wrap32 (wrap64 (min + r mod wrap32 (max - min + 1)))).

(** *** Registry initialisation *)

Definition BASE_PRICES : list f32 :=
  map (fun c => F32.lit c 100)
    [22721; 52175; 20100; 33918; 18209; 76552; 22137; 121837;
     28971; 4619; 7761; 71933; 9231; 17404; 2461; 25241; 19864;
     15503; 7079; 10588; 15354; 11258; 63582; 57275; 22028; 30860; 8741].

Definition TICK_MULTIPLIERS : list Z :=
  [5; 5; 4; 6; 6; 5; 4; 4; 3; 3; 3; 3; 3; 2; 2; 3; 2; 2; 2; 3; 3; 2; 8; 7; 6; 2; 1].

Definition DEFAULT_SYMBOLS : list string :=
  ["AAPL"; "MSFT"; "GOOGL"; "TSLA"; "NVDA"; "META"; "AMZN"; "NFLX";
   "JPM"; "BAC"; "WFC"; "GS"; "C"; "JNJ"; "PFE"; "UNH"; "ABBV";
   "PG"; "KO"; "XOM"; "CVX"; "DIS"; "SPY"; "QQQ"; "IWM"; "GLD"; "TLT"]%string.

Definition DEFAULT_VENUES : list VenueInfo :=
  [mkVenueInfo "NYSE" (F32.lit 3 10000) (F32.lit 3 10000) (F32.lit 1 10000) 250 50;
   mkVenueInfo "NASDAQ" (F32.lit 3 10000) (F32.lit 3 10000) (F32.lit 1 10000) 230 45;
   mkVenueInfo "ARCA" (F32.lit 2 10000) (F32.lit 3 10000) (F32.lit 2 10000) 240 40;
   mkVenueInfo "IEX" F32.zero (F32.lit 9 10000) F32.zero 400 100;
   mkVenueInfo "CBOE" (F32.lit 2 10000) (F32.lit 3 10000) (F32.lit 1 10000) 280 60]%string.

(** One iteration of the symbol loop of [initialize_symbols]. *)
Definition init_symbol (i : nat) (nm : string) : M Generator unit :=
  do vol <- fast_random_float (F32.lit 15 100) (F32.lit 45 100);
  do avg <- fast_random_uint32 10000 100000;
  do trend <- fast_random_float (F32.neg (F32.lit 2 100)) (F32.lit 2 100);
  let s := mkSymbolState (default (F32.of_Z 100) (BASE_PRICES !! i)) vol avg
             (default 3 (TICK_MULTIPLIERS !! i)) 0 trend nm in
  modify (fun g => set_symbols g (<[i := s]> (symbols_ g))).

Fixpoint init_symbols_loop (i : nat) (names : list string) : M Generator unit :=
  match names with
  | [] => ret tt
  | nm :: rest => do u <- init_symbol i nm; init_symbols_loop (S i) rest
  end.

Fixpoint init_venues_loop (i : nat) (vs : list VenueInfo) (arr : list VenueInfo)
  : list VenueInfo :=
  match vs with
  | [] => arr
  | v :: rest => init_venues_loop (S i) rest (<[i := v]> arr)
  end.

Definition initialize_symbols (symbol_names : list string)
    (venue_configs : list VenueInfo) : M Generator unit :=
  let ns := Z.min (Z.of_nat (length symbol_names)) MAX_SYMBOLS in
  let nv := Z.min (Z.of_nat (length venue_configs)) MAX_VENUES in
  do u <- modify (fun g => set_counts g ns nv);
  do u <- init_symbols_loop 0 (take (Z.to_nat ns) symbol_names);
  modify (fun g =>
    set_venues g (init_venues_loop 0 (take (Z.to_nat nv) venue_configs) (venues_ g))).

Definition set_target_frequency (ticks_per_second : Z) : M Generator unit :=
  modify (fun g =>
    set_interval g (if 0 <? ticks_per_second
                    then 1000000000 / ticks_per_second else 1000000)).

Definition reset_performance_counters : M Generator unit :=
  modify (fun g => set_perf g 0 0).

(** The constructor: the arrays start with unspecified contents (here
    blank entries), the seed is the clock reading. *)
Definition construct (seed : Z) (target_ticks_per_second : Z) : Generator :=
  let g0 := mkGenerator (replicate (Z.to_nat MAX_SYMBOLS) blank_symbol)
              (replicate (Z.to_nat MAX_VENUES) blank_venue)
              (wrap64 seed) 0 0 0 0 0 in
  snd ((do u <- set_target_frequency target_ticks_per_second;
        initialize_symbols DEFAULT_SYMBOLS DEFAULT_VENUES) g0).

(** *** generate_tick *)

(** The symbols in use, in registration order. *)
Definition active_symbols (g : Generator) : list SymbolState :=
  take (Z.to_nat (num_symbols_ g)) (symbols_ g).

(** First loop: [total_weight += symbols_[i].tick_multiplier]. *)
Definition total_weight (syms : list SymbolState) : Z :=
  fold_left (fun acc s => wrap32 (acc + tick_multiplier s)) syms 0.

(** Second loop: accumulate and stop at the first [i] with
    [random_weight < cumulative_weight]; [None] when the loop runs out. *)
Fixpoint select_scan (syms : list SymbolState) (i : nat)
    (cumulative_weight random_weight : Z) : option nat :=
  match syms with
  | [] => None
  | s :: rest =>
      let cumulative_weight := wrap32 (cumulative_weight + tick_multiplier s) in
      if random_weight <? cumulative_weight then Some i
      else select_scan rest (S i) cumulative_weight random_weight
  end.

Definition next_price (current_price price_change : f32) : f32 :=
  F32.max (F32.mul current_price (F32.add F32.one price_change)) (F32.lit 1 100).

Definition generate_tick (clk : ClockReads) : M Generator MarketTick :=
  do g <- get;
  let total_weight := total_weight (active_symbols g) in
  do random_weight <- fast_random_uint32 0 (wrap32 (total_weight - 1));
  let selected_symbol :=
    default 0%nat (select_scan (active_symbols g) 0 0 random_weight) in
  let symbol := symbols_ g !!! selected_symbol in
  do drawn <- fast_random_float
                (F32.mul (F32.neg (volatility symbol)) (F32.lit 1 100))
                (F32.mul (volatility symbol) (F32.lit 1 100));
  let price_change := F32.add drawn (F32.mul (price_trend symbol) (F32.lit 1 1000)) in
  let new_price := next_price (current_price symbol) price_change in
  do spread_bps <- fast_random_float (F32.lit 5 10) (F32.of_Z 3);
  let spread_bps :=
    if F32.gtb (current_price symbol) (F32.of_Z 500)
    then F32.mul spread_bps (F32.of_Z 2) else spread_bps in
  let spread_dollars := F32.mul (F32.div spread_bps (F32.of_Z 10000)) new_price in
  let bid_price := F32.sub new_price (F32.mul spread_dollars (F32.lit 5 10)) in
  let ask_price := F32.add new_price (F32.mul spread_dollars (F32.lit 5 10)) in
  do volume <- fast_random_uint32
                 (F32.to_u32 (F32.mul (F32.of_Z (avg_volume symbol)) (F32.lit 1 10)))
                 (F32.to_u32 (F32.mul (F32.of_Z (avg_volume symbol)) (F32.of_Z 2)));
  do venue_idx <- fast_random_uint32 0 (wrap32 (wrap64 (num_venues_ g - 1)));
  let now := wrap64 (t_update clk) in
  do u <- modify (fun g =>
            set_symbols g
              (<[selected_symbol := commit_price symbol new_price now]> (symbols_ g)));
  do bid_size <- fast_random_uint32 100 10000;
  do ask_size <- fast_random_uint32 100 10000;
  let tick := mkMarketTick now (wrap32 (Z.of_nat selected_symbol)) bid_price
                ask_price bid_size ask_size new_price volume (wrap8 venue_idx)
                spread_bps in
  do u <- modify (fun g =>
            set_perf g (wrap64 (total_ticks_generated_ g + 1))
                       (wrap64 (generation_time_ns_ g + elapsed_ns clk)));
  ret tick.

(** *** generate_tick_batch *)

(** The body of the loop at index [i]. *)
Definition batch_step (clk : ClockReads) (i : nat) (output_buffer : list MarketTick)
  : M Generator (list MarketTick) :=
  do t <- generate_tick clk;
  let output_buffer := <[i := t]> output_buffer in
  if (0 <? i)%nat then
    do g <- get;
    do jitter <- fast_random_uint32 0 (wrap32 (target_tick_interval_ns_ g / 10));
    let ts := wrap64 (timestamp_ns (output_buffer !!! (i - 1)%nat)
                      + wrap64 (target_tick_interval_ns_ g + jitter)) in
    ret (<[i := set_timestamp_ns (output_buffer !!! i) ts]> output_buffer)
  else ret output_buffer.

Fixpoint batch_loop (reads : nat -> ClockReads) (todo i : nat)
    (output_buffer : list MarketTick) : M Generator (list MarketTick) :=
  match todo with
  | O => ret output_buffer
  | S todo' =>
      do output_buffer <- batch_step (reads i) i output_buffer;
      batch_loop reads todo' (S i) output_buffer
  end.

Definition generate_tick_batch (batch_clk : ClockReads) (reads : nat -> ClockReads)
    (output_buffer : list MarketTick) (count : nat)
  : M Generator (list MarketTick) :=
  do output_buffer <- batch_loop reads count 0 output_buffer;
  do u <- modify (fun g =>
            set_perf g (total_ticks_generated_ g)
                       (wrap64 (generation_time_ns_ g + elapsed_ns batch_clk)));
  ret output_buffer.

End Gen.

(** ** The market-data processor (class MarketDataProcessor) *)

Module MLFeatures.
Record t : Type := mk {
  price_change : f32;
  volume_ratio : f32;
  spread_bps : f32;
  volatility_5min : f32;
  momentum_1min : f32;
  liquidity_score : f32;
  venue_preference : f32;
  timestamp_ns : Z       (* uint64_t *)
}.
End MLFeatures.

Module RiskMetrics.
Record t : Type := mk {
  position_risk : f32;
  market_impact_estimate : f32;
  execution_cost_estimate : f32;
  risk_limit_exceeded : bool
}.
End RiskMetrics.

Record ProcessingStats : Type := mkProcessingStats {
  ticks_processed : Z;        (* uint64_t *)
  processing_time_ns : Z;     (* uint64_t *)
  feature_calculations : Z    (* uint64_t *)
}.

Record MarketDataProcessor : Type := mkMarketDataProcessor {
  stats_ : ProcessingStats
}.

Module Proc.

Import UInt.

Section ProcessTick.

(** [std::log] applied to an unsigned 32-bit integer (computed on
    [double]) and narrowed to [float] by the assignment; a function of the
    C++ library, taken as a parameter. *)
Variable log_u32 : Z -> f32.

(** The entries [history_buffer[first]], ..., [history_buffer[first + n - 1]]
    the two loops read. *)
Definition window (history_buffer : list MarketTick) (first n : nat)
  : list MarketTick :=
  map (fun i => history_buffer !!! i) (seq first n).

Definition count_tick (duration_ns : Z) : M MarketDataProcessor unit :=
  modify (fun p =>
    let s := stats_ p in
    mkMarketDataProcessor
      (mkProcessingStats (wrap64 (ticks_processed s + 1))
         (wrap64 (processing_time_ns s + duration_ns))
         (wrap64 (feature_calculations s + 7)))).

(** [uninit] is the content of the local [MLFeatures features;] before any
    assignment: the struct has no initialisers, so a field the function
    does not assign keeps that value. *)
Definition process_tick (clk : ClockReads) (uninit : MLFeatures.t)
    (tick : MarketTick) (history_buffer : option (list MarketTick))
    (history_size : Z) : M MarketDataProcessor MLFeatures.t :=
  let timestamp := timestamp_ns tick in
  let spread := spread_bps tick in
  let liquidity_score :=
    log_u32 (wrap32 (wrap32 (bid_size tick + ask_size tick) + 1)) in
  let venue_preference := F32.div (F32.of_Z (venue_id tick)) (F32.of_Z 10) in
  let features :=
    match history_buffer with
    | Some history_buffer =>
        if 1 <? history_size then
          let recent_history := Z.min history_size 10 in
          let w := window history_buffer
                     (Z.to_nat (history_size - recent_history))
                     (Z.to_nat recent_history) in
          let price_sum :=
            fold_left (fun acc h => F32.add acc (last_price h)) w F32.zero in
          let volume_sum :=
            fold_left (fun acc h => F32.add acc (F32.of_Z (volume h))) w F32.zero in
          let avg_price := F32.div price_sum (F32.of_Z recent_history) in
          let avg_volume := F32.div volume_sum (F32.of_Z recent_history) in
          let price_change :=
            F32.div (F32.sub (last_price tick) avg_price) avg_price in
          let volume_ratio :=
            F32.div (F32.of_Z (volume tick)) (F32.max avg_volume F32.one) in
          let variance_sum :=
            fold_left (fun acc h =>
                         let diff := F32.sub (last_price h) avg_price in
                         F32.add acc (F32.mul diff diff)) w F32.zero in
          let volatility_5min :=
            F32.sqrt (F32.div variance_sum (F32.of_Z recent_history)) in
          let momentum_1min :=
            if 5 <=? recent_history then
              let old_price :=
                last_price (history_buffer !!! Z.to_nat (history_size - 5)) in
              F32.div (F32.sub (last_price tick) old_price) old_price
            else MLFeatures.momentum_1min uninit in
          MLFeatures.mk price_change volume_ratio spread volatility_5min
            momentum_1min liquidity_score venue_preference timestamp
        else
          MLFeatures.mk F32.zero F32.one spread (F32.lit 2 100) F32.zero
            liquidity_score venue_preference timestamp
    | None =>
        MLFeatures.mk F32.zero F32.one spread (F32.lit 2 100) F32.zero
          liquidity_score venue_preference timestamp
    end in
  do u <- count_tick (elapsed_ns clk);
  ret features.

End ProcessTick.

Definition calculate_risk_metrics (features : MLFeatures.t) (position_size : f32)
  : RiskMetrics.t :=
  let position_risk :=
    F32.mul (F32.mul (F32.fabs position_size) (MLFeatures.volatility_5min features))
            (F32.of_Z 1000) in
  let market_impact_estimate :=
    F32.mul (F32.mul (F32.fabs position_size) (MLFeatures.spread_bps features))
            (F32.lit 1 10) in
  let execution_cost_estimate :=
    F32.mul (F32.fabs position_size)
            (F32.add (F32.mul (MLFeatures.spread_bps features) (F32.lit 5 10))
                     (F32.lit 5 10)) in
  let risk_limit_exceeded :=
    F32.gtb position_risk (F32.of_Z 10000)
    || F32.gtb (F32.fabs (MLFeatures.price_change features)) (F32.lit 5 100)
    || F32.gtb (MLFeatures.volatility_5min features) (F32.lit 10 100) in
  RiskMetrics.mk position_risk market_impact_estimate execution_cost_estimate
    risk_limit_exceeded.

End Proc.

(** ** The flat-call boundary (extern "C") *)

Module FlatCall.


Definition initialize_symbols_c (gen : option Generator)
    (symbols : option (list string)) (symbol_count : nat)
  : Z * option Generator :=
  match gen, symbols with
  | Some g, Some symbols =>
      let symbol_names := take symbol_count symbols in
      (1, Some (snd (Gen.initialize_symbols symbol_names Gen.DEFAULT_VENUES g)))
  | _, _ => (0, gen)
  end.


End FlatCall.

(** * Properties *)

#[global] Arguments F32.add : simpl never.
#[global] Arguments F32.sub : simpl never.
#[global] Arguments F32.mul : simpl never.
#[global] Arguments F32.div : simpl never.
#[global] Arguments F32.sqrt : simpl never.
#[global] Arguments F32.of_Z : simpl never.
#[global] Arguments F32.lit : simpl never.
#[global] Arguments F32.max : simpl never.
#[global] Arguments F32.to_u32 : simpl never.
#[global] Arguments UInt.wrap8 : simpl never.
#[global] Arguments UInt.wrap32 : simpl never.
#[global] Arguments UInt.wrap64 : simpl never.
#[global] Arguments Gen.xorshift64_step : simpl never.

(** ** The intermediate values of one call of generate_tick

    Each is the value the local variable of that name holds in the call
    [generate_tick()] made in state [g]; [generate_tick_fst] and
    [generate_tick_snd] check them against the monadic definition. *)

Module Obs.

Import UInt.

(** The successive states of the generator: [rng g k] is [rng_state_]
    after [k] draws. *)
Fixpoint rng (x : Z) (k : nat) : Z :=
  match k with
  | O => x
  | S k' => Gen.xorshift64_step (rng x k')
  end.

Definition uniform_float (r : Z) (min max : f32) : f32 :=
  F32.add min
    (F32.mul (F32.div (F32.of_Z (Z.land r 16777215)) (F32.of_Z 16777216))
             (F32.sub max min)).

Definition uniform_u32 (r : Z) (min max : Z) : Z :=
  wrap32 (wrap64 (min + r mod wrap32 (max - min + 1))).

Section Call.

Variable g : Generator.

Definition draw (k : nat) : Z := rng (rng_state_ g) k.

Definition total : Z := Gen.total_weight (Gen.active_symbols g).
Definition random_weight : Z := uniform_u32 (draw 1) 0 (wrap32 (total - 1)).
Definition selected_symbol : nat :=
  default 0%nat (Gen.select_scan (Gen.active_symbols g) 0 0 random_weight).
Definition symbol : SymbolState := symbols_ g !!! selected_symbol.
Definition price_change : f32 :=
  F32.add
    (uniform_float (draw 2)
       (F32.mul (F32.neg (volatility symbol)) (F32.lit 1 100))
       (F32.mul (volatility symbol) (F32.lit 1 100)))
    (F32.mul (price_trend symbol) (F32.lit 1 1000)).
Definition new_price : f32 := Gen.next_price (current_price symbol) price_change.
Definition drawn_spread : f32 := uniform_float (draw 3) (F32.lit 5 10) (F32.of_Z 3).
Definition spread_bps : f32 :=
  if F32.gtb (current_price symbol) (F32.of_Z 500)
  then F32.mul drawn_spread (F32.of_Z 2) else drawn_spread.
Definition spread_dollars : f32 :=
  F32.mul (F32.div spread_bps (F32.of_Z 10000)) new_price.
Definition bid_price : f32 := F32.sub new_price (F32.mul spread_dollars (F32.lit 5 10)).
Definition ask_price : f32 := F32.add new_price (F32.mul spread_dollars (F32.lit 5 10)).
Definition volume : Z :=
  uniform_u32 (draw 4)
    (F32.to_u32 (F32.mul (F32.of_Z (avg_volume symbol)) (F32.lit 1 10)))
    (F32.to_u32 (F32.mul (F32.of_Z (avg_volume symbol)) (F32.of_Z 2))).
Definition venue_idx : Z := uniform_u32 (draw 5) 0 (wrap32 (wrap64 (num_venues_ g - 1))).
Definition bid_size : Z := uniform_u32 (draw 6) 100 10000.
Definition ask_size : Z := uniform_u32 (draw 7) 100 10000.

Definition tick (clk : ClockReads) : MarketTick :=
  mkMarketTick (wrap64 (t_update clk)) (wrap32 (Z.of_nat selected_symbol))
    bid_price ask_price bid_size ask_size new_price volume (wrap8 venue_idx)
    spread_bps.

Definition final (clk : ClockReads) : Generator :=
  mkGenerator
    (<[selected_symbol := commit_price symbol new_price (wrap64 (t_update clk))]>
       (symbols_ g))
    (venues_ g) (draw 7)
    (wrap64 (total_ticks_generated_ g + 1))
    (wrap64 (generation_time_ns_ g + elapsed_ns clk))
    (num_symbols_ g) (num_venues_ g) (target_tick_interval_ns_ g).

End Call.

End Obs.

(** ** Specification-side definitions *)

Module Spec.

Definition Zsum (l : list Z) : Z := foldr Z.add 0 l.

(** The cumulative weight of the symbols up to and including index [i]. *)
Definition cumulative (ws : list Z) (i : nat) : Z := Zsum (take (S i) ws).

(** [i] is the first index, in registration order, whose cumulative weight
    strictly exceeds [r]. *)
Definition first_exceeding (ws : list Z) (r : Z) (i : nat) : Prop :=
  (i < length ws)%nat /\
  r < cumulative ws i /\
  forall j : nat, (j < i)%nat -> cumulative ws j <= r.

(** The weights of the symbols in use. *)
Definition weights (g : Generator) : list Z :=
  map tick_multiplier (Gen.active_symbols g).

(** What the declared types give: the array capacities, the bounds of the
    two counts and the ranges of the unsigned fields. *)
Definition well_typed (g : Generator) : bool :=
  (length (symbols_ g) =? Z.to_nat MAX_SYMBOLS)%nat
  && (length (venues_ g) =? Z.to_nat MAX_VENUES)%nat
  && (0 <=? num_symbols_ g) && (num_symbols_ g <=? MAX_SYMBOLS)
  && (0 <=? num_venues_ g) && (num_venues_ g <=? MAX_VENUES)
  && forallb (fun s => (0 <=? tick_multiplier s) && (tick_multiplier s <? 2 ^ 32))
       (symbols_ g)
  && (0 <=? rng_state_ g) && (rng_state_ g <? 2 ^ 64)
  && (0 <=? target_tick_interval_ns_ g) && (target_tick_interval_ns_ g <? 2 ^ 64).

End Spec.

(** ** Sample data for the concrete instances *)

Definition sample_tick : MarketTick :=
  mkMarketTick 1500 3 (F32.of_Z 99) (F32.of_Z 101) 200 300 (F32.of_Z 100) 5000 2
    (F32.of_Z 2).

Definition garbage_features : MLFeatures.t :=
  MLFeatures.mk (F32.of_Z 7) (F32.of_Z 7) (F32.of_Z 7) (F32.of_Z 7) (F32.of_Z 7)
    (F32.of_Z 7) (F32.of_Z 7) 7.

Definition fresh_processor : MarketDataProcessor :=
  mkMarketDataProcessor (mkProcessingStats 0 0 0).

Definition short_history : list MarketTick :=
  [sample_tick; set_timestamp_ns sample_tick 1600; set_timestamp_ns sample_tick 1700].

Definition sample_clock : ClockReads := mkClockReads 1000 1500 2000.

(** The generator as its constructor leaves it, for one seed. *)
Definition sample_generator : Generator := Gen.construct 123456789 100.

(** ** Real values of binary32 numbers *)

Module FloatSpec.

(** [bpow e] is 2^e and [F2R m e] is m * 2^e. *)
Definition bpow (e : Z) : R := powerRZ 2 e.
Definition F2R (m e : Z) : R := (IZR m * bpow e)%R.

(** The real a finite float stands for (0 for the others). *)
Definition B2R (x : spec_float) : R :=
  match x with
  | S754_finite s m e => F2R (cond_Zopp s (Zpos m)) e
  | _ => 0%R
  end.

(** Canonical mantissa/exponent pairs of the format, without the bound on
    the exponent. *)
Definition canonical (m : positive) (e : Z) : bool :=
  canonical_mantissa F32.prec F32.emax m e.

(** The finite or infinite non-negative results: [+0], a valid positive
    number, [+inf]. *)
Definition nonneg_result (x : spec_float) : Prop :=
  match x with
  | S754_zero false => True
  | S754_finite false m e => bounded F32.prec F32.emax m e = true
  | S754_infinity false => True
  | _ => False
  end.

(** [x] is a non-negative finite valid float. *)
Definition nonneg_finite (x : spec_float) : Prop :=
  match x with
  | S754_zero false => True
  | S754_finite false m e => bounded F32.prec F32.emax m e = true
  | _ => False
  end.

(** [x] is a positive finite valid float. *)
Definition pos_finite (x : spec_float) : Prop :=
  match x with
  | S754_finite false m e => bounded F32.prec F32.emax m e = true
  | _ => False
  end.

(** [r] is a faithful rounding of the non-negative real [x]: it is a
    non-negative result that no valid finite float separates from [x], and
    it is [+inf] when [x] is beyond the finite range. *)
Definition rounds (x : R) (r : spec_float) : Prop :=
  nonneg_result r /\
  (forall f : spec_float, nonneg_finite f ->
     (B2R f <= x)%R ->
     match r with S754_infinity _ => True | _ => (B2R f <= B2R r)%R end) /\
  (forall f : spec_float, nonneg_finite f ->
     (x <= B2R f)%R ->
     match r with S754_infinity _ => False | _ => (B2R r <= B2R f)%R end) /\
  ((bpow 128 <= x)%R -> r = S754_infinity false).

(** A shift record has lost something when its round or sticky bit is set. *)
Definition inexact (mrs : shr_record) : bool := shr_r mrs || shr_s mrs.

(** [mrs'] is [mrs] shifted right by [n] bits. *)
Definition shifted (n : Z) (mrs mrs' : shr_record) : Prop :=
  shr_m mrs' = shr_m mrs / 2 ^ n /\
  (inexact mrs' = false <-> inexact mrs = false /\ shr_m mrs mod 2 ^ n = 0).

(** The exact real [x] lies in the slot of [m] at exponent [e], and the
    location [l] tells whether it sits at the lower end. *)
Definition bracket (m e : Z) (l : location) (x : R) : Prop :=
  (F2R m e <= x < F2R (m + 1) e)%R /\ (l = loc_Exact <-> x = F2R m e).

Definition fexp32 (e : Z) : Z := fexp F32.prec F32.emax e.

End FloatSpec.

(** The floats of the registry are binary32 values. *)
Definition valid_floats (g : Generator) : bool :=
  forallb (fun s => F32.valid (current_price s) && F32.valid (volatility s)
                    && F32.valid (price_trend s))
    (symbols_ g).

(** [x] scaled by 2^[j], for a positive finite [x]. *)
Definition scale2 (x : f32) (j : Z) : f32 :=
  match x with
  | S754_finite s m e => S754_finite s m (e + j)
  | _ => x
  end.

(** The float just below a positive normal [x]. *)
Definition pred_pos (x : f32) : f32 :=
  match x with
  | S754_finite s m e =>
      if (m =? 8388608)%positive then S754_finite s 16777215 (e - 1)
      else S754_finite s (Pos.pred m) e
  | _ => x
  end.

(** A registry of one symbol priced just above 500, for which the drawn
    change brings the price below 500. *)
Definition crossing_symbol : SymbolState :=
  mkSymbolState (F32.of_Z 501) (F32.lit 30 100) 50000 5 0 (F32.lit 1 100) "AAPL".

Definition crossing_generator : Generator :=
  mkGenerator (crossing_symbol :: replicate 63 blank_symbol)
    (Gen.DEFAULT_VENUES ++ replicate 3 blank_venue) 1 0 0 1 5 10000000.

(** The spread in basis points as the specification words it: doubled when
    the new price exceeds 500. *)
Definition spec_spread_bps (drawn new_price : f32) : f32 :=
  if F32.gtb new_price (F32.of_Z 500) then F32.mul drawn (F32.of_Z 2) else drawn.

(** The entry that one iteration of the symbol loop of initialize_symbols
    writes at index [i], from the generator state [x] before it. *)
Definition initial_symbol (x : Z) (i : nat) (nm : string) : SymbolState :=
  mkSymbolState (default (F32.of_Z 100) (Gen.BASE_PRICES !! i))
    (Obs.uniform_float (Obs.rng x 1) (F32.lit 15 100) (F32.lit 45 100))
    (Obs.uniform_u32 (Obs.rng x 2) 10000 100000)
    (default 3 (Gen.TICK_MULTIPLIERS !! i)) 0
    (Obs.uniform_float (Obs.rng x 3) (F32.neg (F32.lit 2 100)) (F32.lit 2 100))
    nm.

(** An entry written by initialize_symbols: its weight comes from the table
    (3 past its end) and its floats are binary32 values. *)
Definition initialized (j : nat) (s : SymbolState) : Prop :=
  tick_multiplier s = default 3 (Gen.TICK_MULTIPLIERS !! j) /\
  F32.valid (current_price s) = true /\ F32.valid (volatility s) = true /\
  F32.valid (price_trend s) = true.

(** ** Binary64 floating point, for the two statistics reports *)

Module F64.

Definition prec : Z := 53.
Definition emax : Z := 1024.

Definition float : Type := spec_float.

Definition mul : float -> float -> float := SFmul prec emax.
Definition div : float -> float -> float := SFdiv prec emax.
Definition ltb : float -> float -> bool := SFltb.

(** Conversion of an unsigned integer to [double] (rounding to nearest). *)
Definition of_Z (n : Z) : float := binary_normalize prec emax n 0 false.

(** [std::min(a, b)] is [(b < a) ? b : a]. *)
Definition min (a b : float) : float := if ltb b a then b else a.

Definition zero : float := S754_zero false.

End F64.

(** ** The statistics reports *)

Module PerformanceStats.
Record t : Type := mk {
  total_ticks : Z;                    (* uint64_t *)
  avg_generation_time_ns : Z;         (* uint64_t *)
  ticks_per_second : Z;               (* uint64_t *)
  cpu_efficiency_percent : F64.float
}.
End PerformanceStats.

Definition get_performance_stats (g : Generator) : PerformanceStats.t :=
  let total_ticks := total_ticks_generated_ g in
  let total_time_ns := generation_time_ns_ g in
  let avg_generation_time_ns :=
    if 0 <? total_ticks then total_time_ns / total_ticks else 0 in
  let ticks_per_second :=
    if 0 <? total_time_ns
    then UInt.wrap64 (total_ticks * 1000000000) / total_time_ns else 0 in
  let cpu_efficiency_percent :=
    if 0 <? target_tick_interval_ns_ g
    then F64.mul (F64.div (F64.of_Z avg_generation_time_ns)
                          (F64.of_Z (target_tick_interval_ns_ g)))
                 (F64.of_Z 100)
    else F64.zero in
  PerformanceStats.mk total_ticks avg_generation_time_ns ticks_per_second
    cpu_efficiency_percent.

Module ProcessorStats.
Record t : Type := mk {
  ticks_per_second : Z;               (* uint64_t *)
  avg_processing_time_ns : Z;         (* uint64_t *)
  throughput_efficiency : F64.float
}.
End ProcessorStats.

Definition get_processor_stats (p : MarketDataProcessor) : ProcessorStats.t :=
  let ticks := ticks_processed (stats_ p) in
  let time_ns := processing_time_ns (stats_ p) in
  let ticks_per_second :=
    if 0 <? time_ns then UInt.wrap64 (ticks * 1000000000) / time_ns else 0 in
  let avg_processing_time_ns := if 0 <? ticks then time_ns / ticks else 0 in
  let throughput_efficiency :=
    if 0 <? avg_processing_time_ns
    then F64.min (F64.mul (F64.div (F64.of_Z 1000) (F64.of_Z avg_processing_time_ns))
                          (F64.of_Z 100))
                 (F64.of_Z 100)
    else F64.zero in
  ProcessorStats.mk ticks_per_second avg_processing_time_ns throughput_efficiency.

(** [create_processor]: the object [new MarketDataProcessor()] points to,
    its three counters at their initialiser 0. *)
Definition create_processor : MarketDataProcessor :=
  mkMarketDataProcessor (mkProcessingStats 0 0 0).

(** [create_tick_generator]: the object the constructor leaves, for the
    clock reading [seed] it takes at entry. *)
Definition create_tick_generator (seed : Z) (ticks_per_second : Z) : Generator :=
  Gen.construct seed ticks_per_second.

(** A value that is zero or at least one: what sums and conversions of
    whole numbers give. *)
Definition whole_like (x : f32) : Prop :=
  FloatSpec.nonneg_finite x /\ (FloatSpec.B2R x = 0 \/ 1 <= FloatSpec.B2R x)%R.

(** Every symbol in use has an average volume within the range
    initialize_symbols draws it from. *)
Definition volumes_configured (g : Generator) : bool :=
  forallb (fun s => (10000 <=? avg_volume s) && (avg_volume s <=? 100000))
    (Gen.active_symbols g).

(** * Lemmas and theorems *)

Ltac run_monad :=
  lazy beta iota zeta delta
    [bind ret get modify Gen.xorshift64 Gen.fast_random_float
     Gen.fast_random_uint32 Gen.set_rng_state Gen.set_symbols Gen.set_perf
     Gen.set_counts Gen.set_venues Gen.set_interval
     symbols_ venues_ rng_state_ total_ticks_generated_ generation_time_ns_
     num_symbols_ num_venues_ target_tick_interval_ns_].

Ltac unfold_obs :=
  unfold Obs.tick, Obs.final, Obs.bid_price, Obs.ask_price, Obs.spread_dollars,
    Obs.spread_bps, Obs.drawn_spread, Obs.new_price, Obs.price_change,
    Obs.volume, Obs.venue_idx, Obs.bid_size, Obs.ask_size, Obs.symbol,
    Obs.selected_symbol, Obs.random_weight, Obs.total, Obs.draw,
    Obs.uniform_float, Obs.uniform_u32, Obs.rng.

Lemma generate_tick_run (clk : ClockReads) (g : Generator) :
  Gen.generate_tick clk g = (Obs.tick g clk, Obs.final g clk).
Proof.
  destruct g as [syms vens x nt gt ns nv iv].
  unfold_obs. unfold Gen.generate_tick. run_monad.
  reflexivity.
Qed.

Lemma generate_tick_fst (clk : ClockReads) (g : Generator) :
  fst (Gen.generate_tick clk g) = Obs.tick g clk.
Proof. now rewrite generate_tick_run. Qed.

Lemma generate_tick_snd (clk : ClockReads) (g : Generator) :
  snd (Gen.generate_tick clk g) = Obs.final g clk.
Proof. now rewrite generate_tick_run. Qed.


(** ** Frame of generate_tick *)

Lemma commit_price_fields (s : SymbolState) (p : f32) (now : Z) :
  volatility (commit_price s p now) = volatility s /\
  avg_volume (commit_price s p now) = avg_volume s /\
  tick_multiplier (commit_price s p now) = tick_multiplier s /\
  price_trend (commit_price s p now) = price_trend s /\
  symbol_name (commit_price s p now) = symbol_name s /\
  current_price (commit_price s p now) = p /\
  last_update_ns (commit_price s p now) = now.
Proof. now destruct s. Qed.

(** C10. One call of generate_tick changes, in the registry, only the entry
    of the selected symbol, and there only [current_price] and
    [last_update_ns]: the registry after the call is the registry before
    with that entry replaced by its committed version, every other index
    reads as before, the other fields of the selected entry are kept, and
    the venue table, both counts and the target interval are unchanged.
    (The generator state and the two performance counters do change.) *)
Theorem generate_tick_frame (clk : ClockReads) (g : Generator) :
  let t := fst (Gen.generate_tick clk g) in
  let g' := snd (Gen.generate_tick clk g) in
  let i := Obs.selected_symbol g in
  symbol_id t = UInt.wrap32 (Z.of_nat i) /\
  symbols_ g' =
    <[i := commit_price (symbols_ g !!! i) (last_price t) (timestamp_ns t)]>
      (symbols_ g) /\
  length (symbols_ g') = length (symbols_ g) /\
  (forall j : nat, j <> i -> symbols_ g' !! j = symbols_ g !! j) /\
  (forall s : SymbolState, symbols_ g !! i = Some s ->
     exists s' : SymbolState,
       symbols_ g' !! i = Some s' /\
       current_price s' = last_price t /\
       last_update_ns s' = timestamp_ns t /\
       volatility s' = volatility s /\
       avg_volume s' = avg_volume s /\
       tick_multiplier s' = tick_multiplier s /\
       price_trend s' = price_trend s /\
       symbol_name s' = symbol_name s) /\
  venues_ g' = venues_ g /\
  num_symbols_ g' = num_symbols_ g /\
  num_venues_ g' = num_venues_ g /\
  target_tick_interval_ns_ g' = target_tick_interval_ns_ g.
Proof.
  rewrite generate_tick_run. cbn [fst snd].
  cbn [Obs.tick Obs.final symbol_id last_price timestamp_ns symbols_ venues_
       num_symbols_ num_venues_ target_tick_interval_ns_].
  unfold Obs.symbol.
  repeat split.
  - apply length_insert.
  - intros j Hj. now apply list_lookup_insert_ne.
  - intros s Hs.
    exists (commit_price s (Obs.new_price g) (UInt.wrap64 (t_update clk))).
    rewrite (list_lookup_total_correct _ _ _ Hs).
    split.
    + apply list_lookup_insert_eq. now apply lookup_lt_Some in Hs.
    + destruct s; cbn. repeat split.
Qed.

(** ** Weighted selection *)

Lemma wrap32_small (x : Z) : 0 <= x < 2 ^ 32 -> UInt.wrap32 x = x.
Proof. intros H. unfold UInt.wrap32. now apply Z.mod_small. Qed.

Lemma wrap64_small (x : Z) : 0 <= x < 2 ^ 64 -> UInt.wrap64 x = x.
Proof. intros H. unfold UInt.wrap64. now apply Z.mod_small. Qed.

Lemma wrap32_range (x : Z) : 0 <= UInt.wrap32 x < 2 ^ 32.
Proof. unfold UInt.wrap32. apply Z.mod_pos_bound. lia. Qed.

Lemma wrap64_range (x : Z) : 0 <= UInt.wrap64 x < 2 ^ 64.
Proof. unfold UInt.wrap64. apply Z.mod_pos_bound. lia. Qed.

Lemma Zsum_nonneg (ws : list Z) : Forall (fun w => 0 <= w) ws -> 0 <= Spec.Zsum ws.
Proof. unfold Spec.Zsum. induction 1; cbn; lia. Qed.

Lemma cumulative_cons (w : Z) (ws : list Z) (i : nat) :
  Spec.cumulative (w :: ws) (S i) = w + Spec.cumulative ws i.
Proof. reflexivity. Qed.

Lemma cumulative_head (w : Z) (ws : list Z) : Spec.cumulative (w :: ws) 0 = w.
Proof. unfold Spec.cumulative, Spec.Zsum. cbn. rewrite take_0. cbn. lia. Qed.

(** Without wrap-around the running total of the first loop is the sum. *)
Lemma total_weight_sum (syms : list SymbolState) (acc : Z) :
  Forall (fun w => 0 <= w) (map tick_multiplier syms) ->
  0 <= acc -> acc + Spec.Zsum (map tick_multiplier syms) < 2 ^ 32 ->
  fold_left (fun a s => UInt.wrap32 (a + tick_multiplier s)) syms acc
  = acc + Spec.Zsum (map tick_multiplier syms).
Proof.
  revert acc. induction syms as [|s syms IH]; intros acc Hpos Hacc Hlt;
    cbn [map Spec.Zsum foldr fold_left] in *.
  - lia.
  - fold (Spec.Zsum (map tick_multiplier syms)) in *.
    inversion Hpos as [|? ? Hs Hrest]; subst.
    pose proof (Zsum_nonneg _ Hrest) as Hsum.
    rewrite wrap32_small by lia. rewrite IH by (trivial; lia). lia.
Qed.

(** The scan started at index [i0] with [c0] accumulated stops at the first
    index whose cumulative weight exceeds [r]. *)
Lemma select_scan_first (syms : list SymbolState) (i0 : nat) (c0 r : Z) :
  Forall (fun w => 0 <= w) (map tick_multiplier syms) ->
  0 <= c0 <= r -> r < c0 + Spec.Zsum (map tick_multiplier syms) ->
  c0 + Spec.Zsum (map tick_multiplier syms) < 2 ^ 32 ->
  exists i : nat,
    Gen.select_scan syms i0 c0 r = Some (i0 + i)%nat /\
    (i < length syms)%nat /\
    r < c0 + Spec.cumulative (map tick_multiplier syms) i /\
    forall j : nat, (j < i)%nat ->
      c0 + Spec.cumulative (map tick_multiplier syms) j <= r.
Proof.
  revert i0 c0. induction syms as [|s syms IH]; intros i0 c0 Hpos Hc Hr Hlt.
  - cbn in Hr. lia.
  - cbn [map] in *. inversion Hpos as [|? ? Hs Hrest]; subst.
    pose proof (Zsum_nonneg _ Hrest) as Hsum.
    cbn [Spec.Zsum foldr] in Hr, Hlt. fold (Spec.Zsum (map tick_multiplier syms)) in Hr, Hlt.
    cbn [Gen.select_scan]. rewrite wrap32_small by lia.
    destruct (Z.ltb_spec r (c0 + tick_multiplier s)) as [Hsel|Hnot].
    + exists 0%nat. rewrite Nat.add_0_r, cumulative_head. cbn [length].
      repeat split; try lia.
    + destruct (IH (S i0) (c0 + tick_multiplier s)) as (i & Hscan & Hi & Hex & Hbefore);
        trivial; try lia.
      exists (S i). rewrite cumulative_cons. cbn [length].
      replace (i0 + S i)%nat with (S i0 + i)%nat by lia.
      repeat split; trivial; try lia.
      intros [|j] Hj.
      * rewrite cumulative_head. lia.
      * rewrite cumulative_cons. specialize (Hbefore j). lia.
Qed.

Lemma well_typed_weights (g : Generator) :
  Spec.well_typed g = true -> Forall (fun w => 0 <= w) (Spec.weights g).
Proof.
  unfold Spec.well_typed. rewrite !andb_true_iff. intros H.
  destruct H as [[[[[_ H] _] _] _] _].
  unfold Spec.weights, Gen.active_symbols.
  rewrite forallb_forall in H. apply Forall_forall. intros w Hw.
  apply list_elem_of_In, in_map_iff in Hw. destruct Hw as (s & <- & Hs).
  apply list_elem_of_In, elem_of_take in Hs. destruct Hs as (i & Hs & _).
  apply list_elem_of_lookup_2, list_elem_of_In, H in Hs.
  apply andb_true_iff in Hs. lia.
Qed.

Lemma well_typed_num_symbols (g : Generator) :
  Spec.well_typed g = true -> 0 <= num_symbols_ g <= MAX_SYMBOLS.
Proof.
  unfold Spec.well_typed. rewrite !andb_true_iff. intros H.
  destruct H as [[[[[[[[[_ H1] H2] _] _] _] _] _] _] _]. lia.
Qed.

(** C3. With a total weight that fits the 32-bit accumulator, for every
    [r] in [0, total_weight - 1] the scan of generate_tick returns the first
    index, in registration order, whose cumulative [tick_multiplier] sum
    strictly exceeds [r]; the weight generate_tick draws lies in that range
    and the [symbol_id] of the tick it returns is that index for it. *)
Theorem generate_tick_selects_first_exceeding (clk : ClockReads) (g : Generator) :
  Spec.well_typed g = true ->
  1 <= Spec.Zsum (Spec.weights g) < 2 ^ 32 ->
  (forall r : Z, 0 <= r <= Spec.Zsum (Spec.weights g) - 1 ->
     exists i : nat,
       Gen.select_scan (Gen.active_symbols g) 0 0 r = Some i /\
       Spec.first_exceeding (Spec.weights g) r i) /\
  Obs.total g = Spec.Zsum (Spec.weights g) /\
  0 <= Obs.random_weight g <= Spec.Zsum (Spec.weights g) - 1 /\
  Spec.first_exceeding (Spec.weights g) (Obs.random_weight g) (Obs.selected_symbol g) /\
  symbol_id (fst (Gen.generate_tick clk g)) = Z.of_nat (Obs.selected_symbol g).
Proof.
  intros Hwt Hsum.
  pose proof (well_typed_weights g Hwt) as Hpos.
  pose proof (well_typed_num_symbols g Hwt) as Hnum.
  assert (Hscan : forall r : Z, 0 <= r <= Spec.Zsum (Spec.weights g) - 1 ->
            exists i : nat,
              Gen.select_scan (Gen.active_symbols g) 0 0 r = Some i /\
              Spec.first_exceeding (Spec.weights g) r i).
  { intros r Hr.
    destruct (select_scan_first (Gen.active_symbols g) 0 0 r) as (i & Hi & Hlen & Hex & Hbefore);
      trivial; try (unfold Spec.weights in *; lia).
    exists i. split; [exact Hi|]. unfold Spec.first_exceeding, Spec.weights.
    rewrite length_map. repeat split; trivial. }
  assert (Htotal : Obs.total g = Spec.Zsum (Spec.weights g)).
  { unfold Obs.total, Gen.total_weight. rewrite total_weight_sum; trivial;
      unfold Spec.weights in *; lia. }
  assert (Hdraw : 0 <= Obs.random_weight g <= Spec.Zsum (Spec.weights g) - 1).
  { unfold Obs.random_weight, Obs.uniform_u32. rewrite Htotal.
    rewrite (wrap32_small (_ - 1)) by lia.
    replace (Spec.Zsum (Spec.weights g) - 1 - 0 + 1) with (Spec.Zsum (Spec.weights g)) by lia.
    rewrite (wrap32_small (Spec.Zsum _)) by lia.
    pose proof (Z.mod_pos_bound (Obs.draw g 1) (Spec.Zsum (Spec.weights g))) as Hm.
    rewrite wrap64_small by lia. rewrite wrap32_small by lia. lia. }
  destruct (Hscan _ Hdraw) as (i & Hi & Hfirst).
  assert (Hsel : Obs.selected_symbol g = i).
  { unfold Obs.selected_symbol. now rewrite Hi. }
  repeat split; trivial; try lia; try (rewrite Hsel; apply Hfirst).
  rewrite generate_tick_fst. cbn [Obs.tick symbol_id]. rewrite Hsel.
  apply wrap32_small. destruct Hfirst as (Hlen & _).
  unfold Spec.weights, Gen.active_symbols in Hlen.
  rewrite length_map, length_take in Hlen. unfold MAX_SYMBOLS in Hnum. lia.
Qed.

(** ** Feature extraction and risk metrics *)

Lemma wrap32_add_idemp (a b : Z) :
  UInt.wrap32 (UInt.wrap32 a + b) = UInt.wrap32 (a + b).
Proof. unfold UInt.wrap32. apply Zplus_mod_idemp_l. Qed.

Lemma process_tick_counts (log_u32 : Z -> f32) (clk : ClockReads)
    (uninit : MLFeatures.t) (tick : MarketTick)
    (history_buffer : option (list MarketTick)) (history_size : Z)
    (p : MarketDataProcessor) :
  snd (Proc.process_tick log_u32 clk uninit tick history_buffer history_size p)
  = mkMarketDataProcessor
      (mkProcessingStats
         (UInt.wrap64 (ticks_processed (stats_ p) + 1))
         (UInt.wrap64 (processing_time_ns (stats_ p) + elapsed_ns clk))
         (UInt.wrap64 (feature_calculations (stats_ p) + 7))).
Proof. reflexivity. Qed.

(** C4. Called with a null history buffer, or with a history of at most one
    entry, process_tick returns exactly price_change = 0, volume_ratio = 1,
    volatility_5min = 0.02f and momentum_1min = 0; spread_bps and
    timestamp_ns are those of the tick, liquidity_score is the logarithm of
    bid_size + ask_size + 1 (an unsigned 32-bit sum) and venue_preference
    is venue_id / 10. *)
Theorem process_tick_without_history (log_u32 : Z -> f32) (clk : ClockReads)
    (uninit : MLFeatures.t) (tick : MarketTick)
    (history_buffer : option (list MarketTick)) (history_size : Z)
    (p : MarketDataProcessor) :
  history_buffer = None \/ history_size <= 1 ->
  let f := fst (Proc.process_tick log_u32 clk uninit tick history_buffer
                  history_size p) in
  MLFeatures.price_change f = F32.zero /\
  MLFeatures.volume_ratio f = F32.of_Z 1 /\
  MLFeatures.volatility_5min f = F32.lit 2 100 /\
  MLFeatures.momentum_1min f = F32.zero /\
  MLFeatures.spread_bps f = spread_bps tick /\
  MLFeatures.timestamp_ns f = timestamp_ns tick /\
  MLFeatures.liquidity_score f
    = log_u32 (UInt.wrap32 (bid_size tick + ask_size tick + 1)) /\
  MLFeatures.venue_preference f = F32.div (F32.of_Z (venue_id tick)) (F32.of_Z 10).
Proof.
  intros H. unfold Proc.process_tick, bind, ret, Proc.count_tick, modify.
  cbn [fst]. rewrite wrap32_add_idemp.
  destruct history_buffer as [h|].
  - destruct H as [H|H]; [discriminate|].
    destruct (Z.ltb_spec 1 history_size) as [Hlt|_]; [lia|].
    cbn. repeat split.
  - cbn. repeat split.
Qed.

Lemma process_tick_without_history_witness :
  let f := fst (Proc.process_tick (fun _ => F32.zero) (mkClockReads 10 20 30)
                  garbage_features sample_tick (Some [sample_tick]) 1
                  fresh_processor) in
  MLFeatures.price_change f = F32.zero /\
  MLFeatures.volume_ratio f = F32.of_Z 1 /\
  MLFeatures.volatility_5min f = F32.lit 2 100 /\
  MLFeatures.momentum_1min f = F32.zero /\
  MLFeatures.spread_bps f = spread_bps sample_tick /\
  MLFeatures.timestamp_ns f = timestamp_ns sample_tick /\
  MLFeatures.liquidity_score f
    = (fun _ => F32.zero) (UInt.wrap32 (bid_size sample_tick + ask_size sample_tick + 1)) /\
  MLFeatures.venue_preference f
    = F32.div (F32.of_Z (venue_id sample_tick)) (F32.of_Z 10).
Proof.
  apply (process_tick_without_history (fun _ => F32.zero)).
  right. lia.
Defined.

(** C5. For every feature vector and every signed position size,
    calculate_risk_metrics returns position_risk = |p| * volatility_5min *
    1000, market_impact_estimate = |p| * spread_bps * 0.1,
    execution_cost_estimate = |p| * (spread_bps * 0.5 + 0.5), and
    risk_limit_exceeded holds exactly when position_risk > 10000 or
    |price_change| > 0.05 or volatility_5min > 0.10 (binary32 arithmetic,
    products taken left to right). *)
Theorem calculate_risk_metrics_spec (f : MLFeatures.t) (p : f32) :
  let r := Proc.calculate_risk_metrics f p in
  RiskMetrics.position_risk r
    = F32.mul (F32.mul (F32.fabs p) (MLFeatures.volatility_5min f)) (F32.of_Z 1000) /\
  RiskMetrics.market_impact_estimate r
    = F32.mul (F32.mul (F32.fabs p) (MLFeatures.spread_bps f)) (F32.lit 1 10) /\
  RiskMetrics.execution_cost_estimate r
    = F32.mul (F32.fabs p)
        (F32.add (F32.mul (MLFeatures.spread_bps f) (F32.lit 5 10)) (F32.lit 5 10)) /\
  (RiskMetrics.risk_limit_exceeded r = true <->
     F32.gtb (RiskMetrics.position_risk r) (F32.of_Z 10000) = true \/
     F32.gtb (F32.fabs (MLFeatures.price_change f)) (F32.lit 5 100) = true \/
     F32.gtb (MLFeatures.volatility_5min f) (F32.lit 10 100) = true).
Proof.
  cbn zeta. unfold Proc.calculate_risk_metrics.
  cbn [RiskMetrics.position_risk RiskMetrics.market_impact_estimate
       RiskMetrics.execution_cost_estimate RiskMetrics.risk_limit_exceeded].
  repeat split.
  - rewrite !orb_true_iff. tauto.
  - rewrite !orb_true_iff. tauto.
Qed.

(** C7 (the computed case and the case the code leaves out). With a non-null
    history of more than one entry: when the recent window, of
    min(history_size, 10) entries, has at least 5 entries, momentum_1min is
    (tick.last_price - h) / h for h the last_price of the entry at index
    history_size - 5; when it has fewer, no assignment to momentum_1min is
    made, and the field keeps whatever the uninitialised local held. *)
Theorem process_tick_momentum (log_u32 : Z -> f32) (clk : ClockReads)
    (uninit : MLFeatures.t) (tick : MarketTick) (history : list MarketTick)
    (history_size : Z) (p : MarketDataProcessor) :
  1 < history_size ->
  let f := fst (Proc.process_tick log_u32 clk uninit tick (Some history)
                  history_size p) in
  let h := last_price (history !!! Z.to_nat (history_size - 5)) in
  (5 <= Z.min history_size 10 ->
     MLFeatures.momentum_1min f = F32.div (F32.sub (last_price tick) h) h) /\
  (Z.min history_size 10 < 5 ->
     MLFeatures.momentum_1min f = MLFeatures.momentum_1min uninit).
Proof.
  intros Hsize. unfold Proc.process_tick, bind, ret, Proc.count_tick, modify.
  cbn [fst].
  destruct (Z.ltb_spec 1 history_size) as [_|Hle]; [|lia].
  cbn [MLFeatures.momentum_1min]. split; intros Hw.
  - destruct (Z.leb_spec 5 (Z.min history_size 10)) as [_|Hlt]; [reflexivity|lia].
  - destruct (Z.leb_spec 5 (Z.min history_size 10)) as [Hge|_]; [lia|reflexivity].
Qed.

(** At a history of three entries the result carries the stale value 7 of
    the local, not 0. *)
Lemma process_tick_momentum_witness :
  MLFeatures.momentum_1min
    (fst (Proc.process_tick (fun _ => F32.zero) (mkClockReads 10 20 30)
            garbage_features sample_tick (Some short_history) 3 fresh_processor))
  = F32.of_Z 7 /\
  F32.of_Z 7 <> F32.zero.
Proof.
  split.
  - apply (process_tick_momentum (fun _ => F32.zero) (mkClockReads 10 20 30)
             garbage_features sample_tick short_history 3 fresh_processor); lia.
  - vm_compute. discriminate.
Defined.

(** ** Flat-call boundary *)


Lemma sample_generator_well_typed : Spec.well_typed sample_generator = true.
Proof. vm_compute. reflexivity. Qed.

Lemma sample_generator_total : Spec.Zsum (Spec.weights sample_generator) = 99.
Proof. vm_compute. reflexivity. Qed.

Lemma generate_tick_selects_first_exceeding_witness :
  (forall r : Z, 0 <= r <= Spec.Zsum (Spec.weights sample_generator) - 1 ->
     exists i : nat,
       Gen.select_scan (Gen.active_symbols sample_generator) 0 0 r = Some i /\
       Spec.first_exceeding (Spec.weights sample_generator) r i) /\
  Obs.total sample_generator = Spec.Zsum (Spec.weights sample_generator) /\
  0 <= Obs.random_weight sample_generator
    <= Spec.Zsum (Spec.weights sample_generator) - 1 /\
  Spec.first_exceeding (Spec.weights sample_generator)
    (Obs.random_weight sample_generator) (Obs.selected_symbol sample_generator) /\
  symbol_id (fst (Gen.generate_tick sample_clock sample_generator))
  = Z.of_nat (Obs.selected_symbol sample_generator).
Proof.
  apply (generate_tick_selects_first_exceeding sample_clock sample_generator).
  - vm_compute. reflexivity.
  - rewrite sample_generator_total. lia.
Defined.

(** ** Batch generation *)

Lemma set_timestamp_ns_get (t : MarketTick) (ts : Z) :
  timestamp_ns (set_timestamp_ns t ts) = ts.
Proof. reflexivity. Qed.

Lemma uniform_u32_from_zero (r bound : Z) :
  0 <= bound < 2 ^ 32 - 1 ->
  0 <= UInt.wrap32 (UInt.wrap64 (0 + r mod UInt.wrap32 (UInt.wrap32 bound - 0 + 1)))
    <= bound.
Proof.
  intros Hb.
  rewrite (wrap32_small bound) by lia.
  replace (bound - 0 + 1) with (bound + 1) by lia.
  rewrite (wrap32_small (bound + 1)) by lia.
  pose proof (Z.mod_pos_bound r (bound + 1)) as Hm.
  rewrite wrap64_small by lia. rewrite wrap32_small by lia. lia.
Qed.

(** What one iteration of the loop does to the buffer and to the state. *)
Lemma batch_step_spec (clk : ClockReads) (i : nat) (buf : list MarketTick)
    (g : Generator) :
  (i < length buf)%nat ->
  0 <= target_tick_interval_ns_ g / 10 < 2 ^ 32 - 1 ->
  0 <= target_tick_interval_ns_ g < 2 ^ 64 ->
  let out := fst (Gen.batch_step clk i buf g) in
  let g' := snd (Gen.batch_step clk i buf g) in
  let iv := target_tick_interval_ns_ g in
  length out = length buf /\
  (forall k : nat, k <> i -> out !! k = buf !! k) /\
  target_tick_interval_ns_ g' = iv /\
  (i = 0%nat -> timestamp_ns (out !!! i) = UInt.wrap64 (t_update clk)) /\
  ((0 < i)%nat ->
     exists jitter : Z,
       0 <= jitter <= iv / 10 /\
       timestamp_ns (out !!! i)
       = UInt.wrap64 (timestamp_ns (buf !!! (i - 1)%nat) + (iv + jitter))).
Proof.
  intros Hi Hj Hiv. unfold Gen.batch_step, bind.
  rewrite generate_tick_run.
  destruct (Nat.ltb_spec 0 i) as [Hpos|Hzero].
  - unfold get, Gen.fast_random_uint32, Gen.xorshift64, bind, ret.
    cbn [fst snd Gen.set_rng_state Obs.final target_tick_interval_ns_ rng_state_].
    set (jitter := UInt.wrap32 (UInt.wrap64 (0 + _ mod _))).
    assert (Hjit : 0 <= jitter <= target_tick_interval_ns_ g / 10).
    { subst jitter. apply uniform_u32_from_zero. exact Hj. }
    repeat split.
    + now rewrite !length_insert.
    + intros k Hk. now rewrite !list_lookup_insert_ne by congruence.
    + lia.
    + intros _. exists jitter. split; [exact Hjit|].
      rewrite list_lookup_total_insert_eq by (now rewrite length_insert).
      rewrite set_timestamp_ns_get.
      rewrite list_lookup_total_insert_ne by lia.
      rewrite (wrap64_small (_ + jitter)); [reflexivity|].
      clearbody jitter.
      pose proof (Z.mul_succ_div_gt (target_tick_interval_ns_ g) 10). lia.
  - assert (i = 0%nat) as -> by lia. unfold ret. cbn [fst snd Obs.final target_tick_interval_ns_].
    repeat split.
    + now rewrite length_insert.
    + intros k Hk. now rewrite list_lookup_insert_ne by congruence.
    + intros _. now rewrite list_lookup_total_insert_eq.
    + lia.
Qed.

(** The loop from index [i] on: entries below [i] are left alone, and every
    entry it writes at a positive index is stamped from its predecessor. *)
Lemma batch_loop_spec (reads : nat -> ClockReads) (todo : nat) :
  forall (i : nat) (buf : list MarketTick) (g : Generator),
  (i + todo <= length buf)%nat ->
  0 <= target_tick_interval_ns_ g / 10 < 2 ^ 32 - 1 ->
  0 <= target_tick_interval_ns_ g < 2 ^ 64 ->
  let out := fst (Gen.batch_loop reads todo i buf g) in
  let g' := snd (Gen.batch_loop reads todo i buf g) in
  let iv := target_tick_interval_ns_ g in
  length out = length buf /\
  (forall k : nat, (k < i)%nat -> out !! k = buf !! k) /\
  target_tick_interval_ns_ g' = iv /\
  (i = 0%nat -> (0 < todo)%nat ->
     timestamp_ns (out !!! 0%nat) = UInt.wrap64 (t_update (reads 0%nat))) /\
  (forall k : nat, (i <= k < i + todo)%nat -> (0 < k)%nat ->
     exists jitter : Z,
       0 <= jitter <= iv / 10 /\
       timestamp_ns (out !!! k)
       = UInt.wrap64 (timestamp_ns (out !!! (k - 1)%nat) + (iv + jitter))).
Proof.
  induction todo as [|todo IH]; intros i buf g Hlen Hj Hiv.
  - cbn. repeat split; trivial; lia.
  - cbn [Gen.batch_loop]. unfold bind.
    pose proof (batch_step_spec (reads i) i buf g) as Hstep.
    destruct (Gen.batch_step (reads i) i buf g) as [buf1 g1].
    cbn [fst snd] in Hstep.
    destruct Hstep as (Hlen1 & Hframe1 & Hiv1 & Hfirst1 & Hstamp1); trivial; try lia.
    assert (Hj1 : 0 <= target_tick_interval_ns_ g1 / 10 < 2 ^ 32 - 1)
      by (rewrite Hiv1; exact Hj).
    assert (Hiv1' : 0 <= target_tick_interval_ns_ g1 < 2 ^ 64)
      by (rewrite Hiv1; exact Hiv).
    assert (Hlen1' : (S i + todo <= length buf1)%nat) by lia.
    pose proof (IH (S i) buf1 g1 Hlen1' Hj1 Hiv1') as Hrest.
    destruct (Gen.batch_loop reads todo (S i) buf1 g1) as [out g'].
    cbn [fst snd] in *.
    destruct Hrest as (Hlen2 & Hframe2 & Hiv2 & _ & Hstamp2).
    assert (Hsame : forall k : nat, (k <= i)%nat -> out !!! k = buf1 !!! k).
    { intros k Hk. rewrite !list_lookup_total_alt. now rewrite Hframe2 by lia. }
    assert (Hold : forall k : nat, (k < i)%nat -> buf1 !!! k = buf !!! k).
    { intros k Hk. rewrite !list_lookup_total_alt. now rewrite Hframe1 by lia. }
    repeat split.
    + lia.
    + intros k Hk. rewrite Hframe2 by lia. apply Hframe1. lia.
    + lia.
    + intros -> _. rewrite Hsame by lia. now apply Hfirst1.
    + intros k Hk Hpos. destruct (Nat.eq_dec k i) as [->|Hne].
      * destruct Hstamp1 as (jitter & Hjit & Hts); [lia|].
        exists jitter. split; [lia|].
        rewrite !Hsame by lia. rewrite (Hold (i - 1)%nat) by lia. exact Hts.
      * destruct (Hstamp2 k) as (jitter & Hjit & Hts); try lia.
        exists jitter. rewrite Hiv1 in *. split; [lia|exact Hts].
Qed.

(** C8. generate_tick_batch with a positive target interval whose tenth
    fits the 32-bit bound of the jitter draw: for every index i >= 1 below
    count, output[i].timestamp_ns is output[i-1].timestamp_ns plus the
    target interval plus a jitter in [0, interval/10], in 64-bit unsigned
    arithmetic; hence, as long as the 64-bit counter does not wrap over the
    batch, consecutive timestamps are at least the target interval apart
    and strictly increasing.  The first timestamp is the clock reading of
    the first call. *)
Theorem generate_tick_batch_timestamps (batch_clk : ClockReads)
    (reads : nat -> ClockReads) (buf : list MarketTick) (count : nat)
    (g : Generator) :
  (2 <= count <= length buf)%nat ->
  0 < target_tick_interval_ns_ g < 2 ^ 64 ->
  target_tick_interval_ns_ g / 10 < 2 ^ 32 - 1 ->
  let out := fst (Gen.generate_tick_batch batch_clk reads buf count g) in
  let iv := target_tick_interval_ns_ g in
  let ts := fun k : nat => timestamp_ns (out !!! k) in
  ts 0%nat = UInt.wrap64 (t_update (reads 0%nat)) /\
  (forall i : nat, (1 <= i < count)%nat ->
     exists jitter : Z,
       0 <= jitter <= iv / 10 /\
       ts i = UInt.wrap64 (ts (i - 1)%nat + (iv + jitter))) /\
  (ts 0%nat + (Z.of_nat count - 1) * (iv + iv / 10) < 2 ^ 64 ->
   forall i : nat, (1 <= i < count)%nat ->
     ts (i - 1)%nat + iv <= ts i /\ ts (i - 1)%nat < ts i).
Proof.
  intros Hcount Hiv Hj. cbn zeta.
  assert (Hj0 : 0 <= target_tick_interval_ns_ g / 10) by (apply Z.div_pos; lia).
  unfold Gen.generate_tick_batch, bind, modify, ret.
  pose proof (batch_loop_spec reads count 0 buf g) as Hloop.
  destruct (Gen.batch_loop reads count 0 buf g) as [out g'].
  cbn [fst snd] in *.
  destruct Hloop as (Hlen & _ & _ & Hfirst & Hstamp); try lia.
  set (iv := target_tick_interval_ns_ g) in *.
  set (ts := fun k : nat => timestamp_ns (out !!! k)).
  assert (Hstep : forall i : nat, (1 <= i < count)%nat ->
            exists jitter : Z, 0 <= jitter <= iv / 10 /\
              ts i = UInt.wrap64 (ts (i - 1)%nat + (iv + jitter))).
  { intros i Hi. apply Hstamp; lia. }
  assert (Hts0 : ts 0%nat = UInt.wrap64 (t_update (reads 0%nat)))
    by (apply Hfirst; lia).
  split; [exact Hts0|]. split; [exact Hstep|].
  change (ts 0%nat + (Z.of_nat count - 1) * (iv + iv / 10) < 2 ^ 64 ->
          forall i : nat, (1 <= i < count)%nat ->
            ts (i - 1)%nat + iv <= ts i /\ ts (i - 1)%nat < ts i).
  clearbody ts. clear Hstamp Hfirst.
  intros Hnowrap.
  assert (Hbound : forall i : nat, (i < count)%nat ->
            0 <= ts i <= ts 0%nat + Z.of_nat i * (iv + iv / 10) /\
            ((1 <= i)%nat -> ts (i - 1)%nat + iv <= ts i)).
  { induction i as [|i IHi]; intros Hi.
    - pose proof (wrap64_range (t_update (reads 0%nat))).
      split; [lia|intros Hone; lia].
    - destruct (IHi ltac:(lia)) as (Hprev & _).
      destruct (Hstep (S i) ltac:(lia)) as (jitter & Hjit & Hts).
      replace (S i - 1)%nat with i in * by lia.
      assert (Hmul : (Z.of_nat i + 1) * (iv + iv / 10)
                     <= (Z.of_nat count - 1) * (iv + iv / 10))
        by (apply Z.mul_le_mono_nonneg_r; lia).
      rewrite wrap64_small in Hts by lia.
      split; [lia|]. intros _. lia. }
  intros i Hi. destruct (Hbound i ltac:(lia)) as (_ & Hgap).
  specialize (Hgap ltac:(lia)). lia.
Qed.

Lemma generate_tick_batch_timestamps_witness :
  let out := fst (Gen.generate_tick_batch sample_clock (fun _ => sample_clock)
                    (replicate 5 blank_tick) 5 sample_generator) in
  let iv := target_tick_interval_ns_ sample_generator in
  let ts := fun k : nat => timestamp_ns (out !!! k) in
  ts 0%nat = UInt.wrap64 (t_update sample_clock) /\
  (forall i : nat, (1 <= i < 5)%nat ->
     exists jitter : Z,
       0 <= jitter <= iv / 10 /\
       ts i = UInt.wrap64 (ts (i - 1)%nat + (iv + jitter))) /\
  (ts 0%nat + (Z.of_nat 5 - 1) * (iv + iv / 10) < 2 ^ 64 ->
   forall i : nat, (1 <= i < 5)%nat ->
     ts (i - 1)%nat + iv <= ts i /\ ts (i - 1)%nat < ts i).
Proof.
  apply (generate_tick_batch_timestamps sample_clock (fun _ => sample_clock)
           (replicate 5 blank_tick) 5 sample_generator).
  - cbn. lia.
  - change (target_tick_interval_ns_ sample_generator) with 10000000. lia.
  - change (target_tick_interval_ns_ sample_generator) with 10000000.
    change (10000000 / 10) with 1000000. lia.
Defined.

(** The intervals set_target_frequency installs satisfy the side conditions
    above, and are positive up to 10^9 ticks per second. *)
Lemma set_target_frequency_interval (ticks_per_second : Z) (g : Generator) :
  0 <= ticks_per_second < 2 ^ 32 ->
  let iv := target_tick_interval_ns_
              (snd (Gen.set_target_frequency ticks_per_second g)) in
  0 <= iv <= 1000000000 /\
  iv / 10 < 2 ^ 32 - 1 /\
  (ticks_per_second <= 1000000000 -> 0 < iv).
Proof.
  intros Hn. cbn.
  destruct (Z.ltb_spec 0 ticks_per_second) as [Hpos|Hzero].
  - assert (H1 : 0 <= 1000000000 / ticks_per_second) by (apply Z.div_pos; lia).
    assert (H2 : 1000000000 / ticks_per_second <= 1000000000).
    { apply Z.div_le_upper_bound; nia. }
    repeat split; try lia.
    + apply Z.div_lt_upper_bound; lia.
    + intros Hle. apply Z.div_str_pos. lia.
  - repeat split; lia.
Qed.

(** ** Binary32 arithmetic: rounding is faithful *)

Module FloatFacts.

Import FloatSpec.

#[local] Open Scope Z_scope.

(** *** Powers of two *)

Lemma bpow_pos (e : Z) : (0 < bpow e)%R.
Proof. unfold bpow. apply powerRZ_lt. lra. Qed.

Lemma bpow_add (a b : Z) : bpow (a + b) = (bpow a * bpow b)%R.
Proof. unfold bpow. apply powerRZ_add. lra. Qed.

Lemma bpow_0 : bpow 0 = 1%R.
Proof. reflexivity. Qed.

Lemma bpow_1 : bpow 1 = 2%R.
Proof. unfold bpow, powerRZ. simpl. lra. Qed.

Lemma bpow_succ (e : Z) : bpow (e + 1) = (2 * bpow e)%R.
Proof. rewrite bpow_add, bpow_1. lra. Qed.

Lemma bpow_nonneg_IZR (n : Z) : 0 <= n -> bpow n = IZR (2 ^ n).
Proof.
  intros Hn. rewrite <- (Z2Nat.id n Hn). generalize (Z.to_nat n) as k. clear.
  intros k. unfold bpow. rewrite <- pow_powerRZ.
  change 2%R with (IZR 2). now rewrite pow_IZR.
Qed.

Lemma bpow_ge_1 (n : Z) : 0 <= n -> (1 <= bpow n)%R.
Proof.
  intros Hn. rewrite bpow_nonneg_IZR by trivial. apply IZR_le.
  pose proof (Z.pow_pos_nonneg 2 n). lia.
Qed.

Lemma bpow_le (a b : Z) : a <= b -> (bpow a <= bpow b)%R.
Proof.
  intros H. replace b with (a + (b - a)) by lia. rewrite bpow_add.
  pose proof (bpow_pos a). pose proof (bpow_ge_1 (b - a) ltac:(lia)). nra.
Qed.

Lemma bpow_lt (a b : Z) : a < b -> (bpow a < bpow b)%R.
Proof.
  intros H. replace b with (a + 1 + (b - a - 1)) by lia.
  rewrite bpow_add, bpow_succ.
  pose proof (bpow_pos a). pose proof (bpow_ge_1 (b - a - 1) ltac:(lia)). nra.
Qed.

Lemma bpow_lt_inv (a b : Z) : (bpow a < bpow b)%R -> a < b.
Proof.
  intros H. destruct (Z_lt_le_dec a b) as [|Hle]; trivial.
  apply bpow_le in Hle. lra.
Qed.

Lemma F2R_shift (m e n : Z) : 0 <= n -> F2R (m * 2 ^ n) e = F2R m (e + n).
Proof.
  intros Hn. unfold F2R. rewrite mult_IZR, bpow_add, (bpow_nonneg_IZR n) by trivial.
  lra.
Qed.

Lemma F2R_le (m1 m2 e : Z) : m1 <= m2 -> (F2R m1 e <= F2R m2 e)%R.
Proof.
  intros H. unfold F2R. apply IZR_le in H. pose proof (bpow_pos e). nra.
Qed.

Lemma F2R_lt (m1 m2 e : Z) : m1 < m2 -> (F2R m1 e < F2R m2 e)%R.
Proof.
  intros H. unfold F2R. apply IZR_lt in H. pose proof (bpow_pos e). nra.
Qed.

Lemma F2R_le_inv (m1 m2 e : Z) : (F2R m1 e <= F2R m2 e)%R -> m1 <= m2.
Proof.
  intros H. destruct (Z_le_gt_dec m1 m2) as [|Hgt]; trivial.
  apply Z.gt_lt, (F2R_lt _ _ e) in Hgt. lra.
Qed.

Lemma F2R_lt_inv (m1 m2 e : Z) : (F2R m1 e < F2R m2 e)%R -> m1 < m2.
Proof.
  intros H. destruct (Z_lt_le_dec m1 m2) as [|Hle]; trivial.
  apply (F2R_le _ _ e) in Hle. lra.
Qed.

Lemma F2R_0 (e : Z) : F2R 0 e = 0%R.
Proof. unfold F2R. lra. Qed.

Lemma F2R_bpow (e : Z) : F2R 1 e = bpow e.
Proof. unfold F2R. lra. Qed.

(** *** Number of digits *)

Lemma digits2_pos_bounds (m : positive) :
  2 ^ (Zpos (digits2_pos m) - 1) <= Zpos m < 2 ^ Zpos (digits2_pos m).
Proof.
  induction m as [m IH|m IH|]; cbn [digits2_pos].
  - rewrite Pos2Z.inj_succ.
    replace (Z.succ (Zpos (digits2_pos m)) - 1) with (Z.succ (Zpos (digits2_pos m) - 1)) by lia.
    rewrite !Z.pow_succ_r by lia. lia.
  - rewrite Pos2Z.inj_succ.
    replace (Z.succ (Zpos (digits2_pos m)) - 1) with (Z.succ (Zpos (digits2_pos m) - 1)) by lia.
    rewrite !Z.pow_succ_r by lia. lia.
  - cbn. lia.
Qed.

(** The number of digits is determined by the bounds. *)
Lemma digits2_pos_unique (m : positive) (d : Z) :
  2 ^ (d - 1) <= Zpos m < 2 ^ d -> Zpos (digits2_pos m) = d.
Proof.
  intros H. pose proof (digits2_pos_bounds m) as Hm.
  assert (Hd : 0 < d).
  { destruct (Z_lt_le_dec 0 d) as [|Hle]; trivial.
    assert (2 ^ d <= 1).
    { destruct (Z.eq_dec d 0) as [->|]; [cbn; lia|].
      rewrite Z.pow_neg_r by lia. lia. }
    lia. }
  destruct (Z.lt_trichotomy (Zpos (digits2_pos m)) d) as [Hlt|[Heq|Hgt]]; trivial.
  - assert (2 ^ Zpos (digits2_pos m) <= 2 ^ (d - 1)) by (apply Z.pow_le_mono_r; lia).
    lia.
  - assert (2 ^ d <= 2 ^ (Zpos (digits2_pos m) - 1)) by (apply Z.pow_le_mono_r; lia).
    lia.
Qed.

(** The real bounds that go with the digits. *)
Lemma F2R_digits (m : positive) (e : Z) :
  (bpow (Zpos (digits2_pos m) + e - 1) <= F2R (Zpos m) e < bpow (Zpos (digits2_pos m) + e))%R.
Proof.
  pose proof (digits2_pos_bounds m) as [Hlo Hhi].
  apply IZR_le in Hlo. apply IZR_lt in Hhi.
  rewrite <- bpow_nonneg_IZR in Hlo, Hhi by lia.
  unfold F2R.
  replace (Zpos (digits2_pos m) + e - 1) with ((Zpos (digits2_pos m) - 1) + e) by lia.
  rewrite !bpow_add. pose proof (bpow_pos e). nra.
Qed.


(** *** Shifting right *)

Lemma shr_1_shifted (mrs : shr_record) :
  0 <= shr_m mrs -> shifted 1 mrs (shr_1 mrs).
Proof.
  destruct mrs as [m r s]. unfold shifted, inexact. cbn [shr_m shr_r shr_s].
  intros Hm. change (2 ^ 1) with 2.
  destruct m as [|[p|p|]|]; try lia; cbn [shr_1 shr_m shr_r shr_s].
  - split; [reflexivity|]. cbn. tauto.
  - split.
    + apply (Z.div_unique _ 2 _ 1); lia.
    + rewrite <- (Z.mod_unique (Zpos p~1) 2 (Zpos p) 1) by lia.
      cbn. split; [discriminate|intros [_ H]; discriminate H].
  - split.
    + apply (Z.div_unique _ 2 _ 0); lia.
    + rewrite <- (Z.mod_unique (Zpos p~0) 2 (Zpos p) 0) by lia.
      cbn. tauto.
  - split; [reflexivity|]. cbn. split; [discriminate|intros [_ H]; discriminate H].
Qed.

Lemma shifted_nonneg (n : Z) (mrs mrs' : shr_record) :
  0 <= n -> 0 <= shr_m mrs -> shifted n mrs mrs' -> 0 <= shr_m mrs'.
Proof.
  intros Hn Hm [-> _]. apply Z.div_pos; [trivial|]. apply Z.pow_pos_nonneg; lia.
Qed.

Lemma shifted_trans (a b : Z) (x y z : shr_record) :
  0 <= a -> 0 <= b -> 0 <= shr_m x ->
  shifted a x y -> shifted b y z -> shifted (a + b) x z.
Proof.
  intros Ha Hb Hx [Hy1 Hy2] [Hz1 Hz2].
  assert (Hpa : 0 < 2 ^ a) by (apply Z.pow_pos_nonneg; lia).
  assert (Hpb : 0 < 2 ^ b) by (apply Z.pow_pos_nonneg; lia).
  split.
  - rewrite Hz1, Hy1, Z.pow_add_r by trivial. now rewrite Z.div_div by lia.
  - rewrite Hz2, Hy2, Hy1. rewrite Z.pow_add_r by trivial.
    rewrite Z.rem_mul_r by lia.
    pose proof (Z.mod_pos_bound (shr_m x) (2 ^ a) Hpa).
    pose proof (Z.mod_pos_bound (shr_m x / 2 ^ a) (2 ^ b) Hpb).
    split.
    + intros [[Hi Hma] Hmb]. split; [exact Hi|]. rewrite Hma, Hmb. lia.
    + intros [Hi Hsum]. split; [split; [exact Hi|]|]; nia.
Qed.

Lemma iter_pos_shifted (p : positive) :
  forall mrs : shr_record, 0 <= shr_m mrs ->
    shifted (Zpos p) mrs (SpecFloat.iter_pos shr_1 p mrs).
Proof.
  induction p as [p IH|p IH|]; intros mrs Hm; cbn [SpecFloat.iter_pos].
  - pose proof (shr_1_shifted mrs Hm) as H1.
    pose proof (shifted_nonneg 1 _ _ ltac:(lia) Hm H1) as Hm1.
    pose proof (IH _ Hm1) as H2.
    pose proof (shifted_nonneg (Zpos p) _ _ ltac:(lia) Hm1 H2) as Hm2.
    pose proof (IH _ Hm2) as H3.
    replace (Zpos p~1) with (1 + (Zpos p + Zpos p)) by lia.
    apply (shifted_trans 1 (Zpos p + Zpos p) _ _ _ ltac:(lia) ltac:(lia) Hm H1).
    apply (shifted_trans (Zpos p) (Zpos p) _ _ _ ltac:(lia) ltac:(lia) Hm1 H2 H3).
  - pose proof (IH _ Hm) as H2.
    pose proof (shifted_nonneg (Zpos p) _ _ ltac:(lia) Hm H2) as Hm2.
    pose proof (IH _ Hm2) as H3.
    replace (Zpos p~0) with (Zpos p + Zpos p) by lia.
    apply (shifted_trans (Zpos p) (Zpos p) _ _ _ ltac:(lia) ltac:(lia) Hm H2 H3).
  - now apply shr_1_shifted.
Qed.

Lemma loc_of_shr_record_exact (mrs : shr_record) :
  loc_of_shr_record mrs = loc_Exact <-> inexact mrs = false.
Proof.
  destruct mrs as [m [|] [|]]; cbn; split; congruence.
Qed.

Lemma shr_record_of_loc_inexact (m : Z) (l : location) :
  shr_m (shr_record_of_loc m l) = m /\
  (inexact (shr_record_of_loc m l) = false <-> l = loc_Exact).
Proof.
  destruct l as [|[| |]]; cbn; split; trivial; split; congruence.
Qed.

(** [shr_fexp] divides the mantissa by the power of two that brings the
    exponent to [fexp], and keeps track of exactness. *)
Lemma shr_fexp_spec (m e : Z) (l : location) :
  0 <= m ->
  let n := Z.max 0 (fexp32 (Zdigits2 m + e) - e) in
  snd (shr_fexp F32.prec F32.emax m e l) = e + n /\
  shr_m (fst (shr_fexp F32.prec F32.emax m e l)) = m / 2 ^ n /\
  (loc_of_shr_record (fst (shr_fexp F32.prec F32.emax m e l)) = loc_Exact <->
   l = loc_Exact /\ m mod 2 ^ n = 0).
Proof.
  intros Hm n. unfold shr_fexp, shr. fold (fexp32 (Zdigits2 m + e)).
  destruct (shr_record_of_loc_inexact m l) as [Hrec Hloc].
  destruct (fexp32 (Zdigits2 m + e) - e) as [|p|p] eqn:Hn; subst n; cbn [fst snd].
  - change (Z.max 0 0) with 0. rewrite Z.add_0_r, Z.pow_0_r, Z.div_1_r, Z.mod_1_r.
    rewrite loc_of_shr_record_exact, Hloc, Hrec. tauto.
  - replace (Z.max 0 (Zpos p)) with (Zpos p) by lia.
    destruct (iter_pos_shifted p (shr_record_of_loc m l)) as [H1 H2]; [lia|].
    rewrite loc_of_shr_record_exact, H2, H1, Hloc, Hrec. tauto.
  - replace (Z.max 0 (Zneg p)) with 0 by lia.
    rewrite Z.add_0_r, Z.pow_0_r, Z.div_1_r, Z.mod_1_r.
    rewrite loc_of_shr_record_exact, Hloc, Hrec. tauto.
Qed.


(** *** The exponent function *)

Lemma fexp32_eq (k : Z) : fexp32 k = Z.max (k - 24) (-149).
Proof. reflexivity. Qed.

Lemma fexp32_mono (a b : Z) : a <= b -> fexp32 a <= fexp32 b.
Proof. rewrite !fexp32_eq. lia. Qed.

Lemma canonical_eq (m : positive) (e : Z) :
  canonical m e = true <-> fexp32 (Zpos (digits2_pos m) + e) = e.
Proof. unfold canonical, canonical_mantissa. apply Z.eqb_eq. Qed.

Lemma bounded_canonical (m : positive) (e : Z) :
  bounded F32.prec F32.emax m e = true <-> canonical m e = true /\ e <= 104.
Proof.
  unfold bounded, canonical. rewrite andb_true_iff, Z.leb_le. reflexivity.
Qed.

(** *** Brackets *)

Lemma bracket_shift (m e n m' : Z) (l l' : location) (x : R) :
  0 <= n -> 0 <= m -> m' = m / 2 ^ n ->
  (l' = loc_Exact <-> l = loc_Exact /\ m mod 2 ^ n = 0) ->
  bracket m e l x -> bracket m' (e + n) l' x.
Proof.
  intros Hn Hm Hm' Hl [[Hlo Hhi] Hex].
  assert (Hp : 0 < 2 ^ n) by (apply Z.pow_pos_nonneg; lia).
  pose proof (Z.div_mod m (2 ^ n) ltac:(lia)) as Hdm.
  pose proof (Z.mod_pos_bound m (2 ^ n) Hp) as Hmod.
  rewrite <- Hm' in Hdm.
  assert (Hlo' : (F2R m' (e + n) <= F2R m e)%R).
  { rewrite <- F2R_shift by trivial. apply F2R_le. lia. }
  assert (Hhi' : (F2R (m + 1) e <= F2R (m' + 1) (e + n))%R).
  { rewrite <- F2R_shift by trivial. apply F2R_le. lia. }
  split; [lra|]. rewrite Hl, Hex. split.
  - intros [-> Hz]. rewrite <- F2R_shift by trivial. f_equal. lia.
  - intros Hx. assert (Heq : F2R m e = F2R m' (e + n)) by lra.
    rewrite <- F2R_shift in Heq by trivial.
    assert (m <= m' * 2 ^ n) by (apply (F2R_le_inv _ _ e); lra).
    split; [lra|lia].
Qed.

Lemma bracket_magnitude (m : positive) (e : Z) (l : location) (x : R) :
  bracket (Zpos m) e l x ->
  (bpow (Zpos (digits2_pos m) + e - 1) <= x < bpow (Zpos (digits2_pos m) + e))%R.
Proof.
  intros [[Hlo Hhi] _]. pose proof (F2R_digits m e) as [Hd _].
  split; [lra|].
  pose proof (digits2_pos_bounds m) as [_ Hm].
  assert (Hle : (F2R (Zpos m + 1) e <= F2R (2 ^ Zpos (digits2_pos m)) e)%R)
    by (apply F2R_le; lia).
  rewrite <- (Z.mul_1_l (2 ^ _)), F2R_shift, F2R_bpow in Hle by lia.
  replace (e + Zpos (digits2_pos m)) with (Zpos (digits2_pos m) + e) in Hle by lia.
  lra.
Qed.

(** A canonical number lies at or above the smallest positive one. *)
Lemma canonical_ge_bpow_emin (mf : positive) (ef : Z) :
  canonical mf ef = true -> (bpow (-149) <= F2R (Zpos mf) ef)%R.
Proof.
  intros Hc. apply canonical_eq in Hc. rewrite fexp32_eq in Hc.
  assert (He : -149 <= ef) by lia.
  apply bpow_le in He. rewrite <- F2R_bpow in He |- *.
  assert ((F2R 1 ef <= F2R (Zpos mf) ef)%R) by (apply F2R_le; lia).
  rewrite F2R_bpow in *. lra.
Qed.

(** No canonical number lies strictly inside a slot of the grid of [x]. *)
Lemma grid_separation (M m' : Z) (x : R) (mf : positive) (ef : Z) :
  (bpow (M - 1) <= x < bpow M)%R ->
  0 <= m' ->
  (F2R m' (fexp32 M) <= x < F2R (m' + 1) (fexp32 M))%R ->
  canonical mf ef = true ->
  ((F2R (Zpos mf) ef <= x)%R -> (F2R (Zpos mf) ef <= F2R m' (fexp32 M))%R) /\
  ((x <= F2R (Zpos mf) ef)%R ->
     x = F2R m' (fexp32 M) \/ (F2R (m' + 1) (fexp32 M) <= F2R (Zpos mf) ef)%R).
Proof.
  intros [HxM HxM'] Hm' [Hlo Hhi] Hcan.
  pose proof (canonical_ge_bpow_emin mf ef Hcan) as Hmin.
  apply canonical_eq in Hcan.
  pose proof (F2R_digits mf ef) as [Hf1 Hf2].
  set (Mf := Zpos (digits2_pos mf) + ef) in *.
  set (c := fexp32 M) in *.
  set (vf := F2R (Zpos mf) ef) in *.
  (* the ends of the slot against the binade of x *)
  assert (Hends : (c <= M - 1 ->
                   (bpow (M - 1) <= F2R m' c)%R /\ (F2R (m' + 1) c <= bpow M)%R) /\
                  (M <= c -> c = -149 /\ m' = 0)).
  { split.
    - intros Hc.
      assert (E1 : bpow (M - 1) = F2R (2 ^ (M - 1 - c)) c).
      { rewrite <- (Z.mul_1_l (2 ^ _)), F2R_shift, F2R_bpow by lia. f_equal. lia. }
      assert (E2 : bpow M = F2R (2 ^ (M - c)) c).
      { rewrite <- (Z.mul_1_l (2 ^ _)), F2R_shift, F2R_bpow by lia. f_equal. lia. }
      rewrite E1, E2. split; apply F2R_le.
      + assert (2 ^ (M - 1 - c) < m' + 1) by (apply (F2R_lt_inv _ _ c); lra). lia.
      + assert (m' < 2 ^ (M - c)) by (apply (F2R_lt_inv _ _ c); lra). lia.
    - intros Hc. assert (Hce : c = -149) by (subst c; rewrite fexp32_eq in *; lia).
      split; [exact Hce|].
      assert (Hb : (bpow M <= bpow c)%R) by (apply bpow_le; lia).
      rewrite <- (F2R_bpow c) in Hb.
      assert (m' < 1) by (apply (F2R_lt_inv _ _ c); lra). lia. }
  destruct Hends as [Hin Hunder].
  split.
  - intros Hle.
    assert (HMf : Mf <= M) by (assert (Mf - 1 < M) by (apply bpow_lt_inv; lra); lia).
    destruct (Z_le_gt_dec M c) as [Hc|Hc].
    + destruct (Hunder Hc) as [Hce ->].
      assert ((bpow M <= bpow (-149))%R) by (apply bpow_le; lia). lra.
    + destruct (Hin ltac:(lia)) as [Hb _].
      destruct (Z.eq_dec Mf M) as [Heq|Hne].
      * assert (Hef : ef = c) by (subst c; rewrite <- Heq; symmetry; exact Hcan).
        subst vf. rewrite Hef in *. apply F2R_le.
        assert (Zpos mf < m' + 1) by (apply (F2R_lt_inv _ _ c); lra). lia.
      * assert ((bpow Mf <= bpow (M - 1))%R) by (apply bpow_le; lia). lra.
  - intros Hge.
    assert (HMf : M <= Mf) by (assert (M - 1 < Mf) by (apply bpow_lt_inv; lra); lia).
    destruct (Req_dec x (F2R m' c)) as [Hx|Hx]; [now left|right].
    destruct (Z.eq_dec Mf M) as [Heq|Hne].
    + assert (Hef : ef = c) by (subst c; rewrite <- Heq; symmetry; exact Hcan).
      subst vf. rewrite Hef in *. apply F2R_le.
      assert (m' < Zpos mf) by (apply (F2R_lt_inv _ _ c); lra). lia.
    + destruct (Z_le_gt_dec M c) as [Hc|Hc].
      * destruct (Hunder Hc) as [Hce ->]. rewrite Hce. cbn [Z.add].
        rewrite F2R_bpow. exact Hmin.
      * destruct (Hin ltac:(lia)) as [_ Hb].
        assert ((bpow M <= bpow (Mf - 1))%R) by (apply bpow_le; lia). lra.
Qed.


(** *** The rounding step *)

Lemma round_nearest_even_cases (m : Z) (l : location) :
  round_nearest_even m l = m \/
  (round_nearest_even m l = m + 1 /\ l <> loc_Exact).
Proof.
  destruct l as [|[| |]]; cbn [round_nearest_even];
    try destruct (Z.even m);
    first [now left | right; split; [reflexivity|discriminate]].
Qed.

Lemma bounded_lt_bpow_emax (mf : positive) (ef : Z) :
  bounded F32.prec F32.emax mf ef = true -> (F2R (Zpos mf) ef < bpow 128)%R.
Proof.
  intros Hb. apply bounded_canonical in Hb. destruct Hb as [Hc He].
  apply canonical_eq in Hc. rewrite fexp32_eq in Hc.
  pose proof (F2R_digits mf ef) as [_ Hlt].
  assert (Hle : (bpow (Zpos (digits2_pos mf) + ef) <= bpow 128)%R)
    by (apply bpow_le; lia).
  lra.
Qed.

Lemma canonical_overflow (m : positive) (e : Z) :
  canonical m e = true -> 104 < e -> (bpow 128 <= F2R (Zpos m) e)%R.
Proof.
  intros Hc He. apply canonical_eq in Hc. rewrite fexp32_eq in Hc.
  pose proof (F2R_digits m e) as [Hge _].
  assert (Hle : (bpow 128 <= bpow (Zpos (digits2_pos m) + e - 1))%R)
    by (apply bpow_le; lia).
  lra.
Qed.

(** After rounding, the second shift renormalises the mantissa when it has
    grown to one more digit, and changes nothing otherwise. *)
Lemma second_shift (r c M : Z) :
  c = fexp32 M ->
  (c <= M - 1 /\ 2 ^ (M - 1 - c) <= r <= 2 ^ (M - c)) \/ (M <= c /\ r = 1) ->
  let n2 := Z.max 0 (fexp32 (Zdigits2 r + c) - c) in
  exists m'' : positive,
    r / 2 ^ n2 = Zpos m'' /\
    canonical m'' (c + n2) = true /\
    F2R (Zpos m'') (c + n2) = F2R r c.
Proof.
  intros Hc [[HcM [Hlo Hhi]]|[HcM ->]].
  - assert (Hpos : 0 < 2 ^ (M - 1 - c)) by (apply Z.pow_pos_nonneg; lia).
    destruct r as [|r|r]; try lia. cbn [Zdigits2].
    assert (Hpow : 2 ^ (M - c) = 2 * 2 ^ (M - 1 - c)).
    { replace (M - c) with (Z.succ (M - 1 - c)) by lia. apply Z.pow_succ_r. lia. }
    destruct (Z_lt_le_dec (Zpos r) (2 ^ (M - c))) as [Hlt|Hge].
    + rewrite (digits2_pos_unique r (M - c)) by (replace (M - c - 1) with (M - 1 - c) by lia; lia).
      replace (M - c + c) with M by lia. rewrite <- Hc.
      replace (c - c) with 0 by lia. cbn zeta. change (Z.max 0 0) with 0.
      exists r. rewrite Z.pow_0_r, Z.div_1_r, Z.add_0_r.
      repeat split; trivial. apply canonical_eq.
      rewrite (digits2_pos_unique r (M - c)) by (replace (M - c - 1) with (M - 1 - c) by lia; lia).
      replace (M - c + c) with M by lia. now symmetry.
    + assert (Hr : Zpos r = 2 ^ (M - c)) by lia.
      assert (Hd : Zpos (digits2_pos r) = M - c + 1).
      { apply digits2_pos_unique. replace (M - c + 1 - 1) with (M - c) by lia.
        replace (M - c + 1) with (Z.succ (M - c)) by lia.
        rewrite Z.pow_succ_r by lia. lia. }
      rewrite Hd. replace (M - c + 1 + c) with (M + 1) by lia.
      assert (Hstep : fexp32 (M + 1) = c \/ fexp32 (M + 1) = c + 1)
        by (rewrite Hc, !fexp32_eq; lia).
      destruct Hstep as [Hs|Hs]; rewrite Hs.
      * replace (c - c) with 0 by lia. cbn zeta. change (Z.max 0 0) with 0.
        exists r. rewrite Z.pow_0_r, Z.div_1_r, Z.add_0_r.
        repeat split; trivial. apply canonical_eq. rewrite Hd.
        replace (M - c + 1 + c) with (M + 1) by lia. exact Hs.
      * replace (c + 1 - c) with 1 by lia. cbn zeta. change (Z.max 0 1) with 1.
        change (2 ^ 1) with 2.
        assert (Hhalf : Zpos r / 2 = 2 ^ (M - 1 - c)).
        { rewrite Hr, Hpow. rewrite Z.mul_comm. apply Z.div_mul. lia. }
        destruct (2 ^ (M - 1 - c)) as [|q|q] eqn:Hq; try lia.
        exists q. split; [exact Hhalf|]. split.
        -- apply canonical_eq.
           rewrite (digits2_pos_unique q (M - c)).
           ++ replace (M - c + (c + 1)) with (M + 1) by lia. exact Hs.
           ++ rewrite <- Hq. replace (M - c - 1) with (M - 1 - c) by lia. lia.
        -- rewrite <- F2R_shift by lia. f_equal. change (2 ^ 1) with 2. lia.
  - cbn [Zdigits2 digits2_pos].
    assert (Hce : c = -149) by (rewrite Hc, fexp32_eq in *; lia).
    subst c. rewrite Hce. change (fexp32 (1 + -149) - -149) with 0.
    cbn zeta. change (Z.max 0 0) with 0.
    exists 1%positive. rewrite Z.pow_0_r, Z.div_1_r, Z.add_0_r.
    repeat split; trivial.
Qed.

(** The core of every operation: rounding a bracketed positive real gives a
    faithful rounding. *)
Lemma binary_round_aux_rounds (m : positive) (e : Z) (l : location) (x : R) :
  bracket (Zpos m) e l x ->
  e <= fexp32 (Zpos (digits2_pos m) + e) ->
  rounds x (binary_round_aux F32.prec F32.emax false (Zpos m) e l).
Proof.
  intros Hbr Hpre.
  pose proof (bracket_magnitude m e l x Hbr) as Hmag.
  set (M := Zpos (digits2_pos m) + e) in *.
  set (c := fexp32 M) in *.
  unfold binary_round_aux.
  pose proof (shr_fexp_spec (Zpos m) e l ltac:(lia)) as Hs1.
  cbn zeta in Hs1. cbn [Zdigits2] in Hs1. fold M in Hs1. fold c in Hs1.
  replace (Z.max 0 (c - e)) with (c - e) in Hs1 by lia.
  destruct (shr_fexp F32.prec F32.emax (Zpos m) e l) as [mrs' e'].
  cbn [fst snd] in Hs1. destruct Hs1 as (He' & Hm' & Hl').
  replace (e + (c - e)) with c in He' by lia. subst e'.
  set (m' := shr_m mrs') in *. set (l' := loc_of_shr_record mrs') in *.
  assert (Hm'0 : 0 <= m').
  { rewrite Hm'. apply Z.div_pos; [lia|apply Z.pow_pos_nonneg; lia]. }
  assert (Hbr' : bracket m' c l' x).
  { replace c with (e + (c - e)) by lia.
    apply (bracket_shift (Zpos m) e (c - e) m' l l' x); trivial; lia. }
  destruct Hbr' as [[Hlo Hhi] Hex].
  (* where the slot lies in the binade *)
  assert (Hslot : (c <= M - 1 /\ 2 ^ (M - 1 - c) <= m' /\ m' + 1 <= 2 ^ (M - c)) \/
                  (M <= c /\ m' = 0)).
  { destruct (Z_le_gt_dec M c) as [Hc|Hc].
    - right. split; [exact Hc|].
      assert (Hb : (bpow M <= bpow c)%R) by (apply bpow_le; lia).
      rewrite <- (F2R_bpow c) in Hb.
      assert (m' < 1) by (apply (F2R_lt_inv _ _ c); lra). lia.
    - left. split; [lia|].
      assert (E1 : bpow (M - 1) = F2R (2 ^ (M - 1 - c)) c).
      { rewrite <- (Z.mul_1_l (2 ^ _)), F2R_shift, F2R_bpow by lia. f_equal. lia. }
      assert (E2 : bpow M = F2R (2 ^ (M - c)) c).
      { rewrite <- (Z.mul_1_l (2 ^ _)), F2R_shift, F2R_bpow by lia. f_equal. lia. }
      split.
      + assert (2 ^ (M - 1 - c) < m' + 1) by (apply (F2R_lt_inv _ _ c); lra). lia.
      + assert (m' < 2 ^ (M - c)) by (apply (F2R_lt_inv _ _ c); lra). lia. }
  set (r := round_nearest_even m' l').
  assert (Hr : r = m' \/ (r = m' + 1 /\ l' <> loc_Exact))
    by apply round_nearest_even_cases.
  assert (Hxpos : (0 < x)%R) by (pose proof (bpow_pos (M - 1)); lra).
  (* the separation property for the rounded value F2R r c *)
  assert (Hsep : forall f : spec_float, nonneg_finite f ->
            ((B2R f <= x)%R -> (B2R f <= F2R r c)%R) /\
            ((x <= B2R f)%R -> (F2R r c <= B2R f)%R)).
  { intros f Hf.
    assert (Hrlo : (F2R m' c <= F2R r c)%R)
      by (apply F2R_le; destruct Hr as [->|[-> _]]; lia).
    assert (Hrhi : (F2R r c <= F2R (m' + 1) c)%R)
      by (apply F2R_le; destruct Hr as [->|[-> _]]; lia).
    assert (H0 : (0 <= F2R m' c)%R) by (rewrite <- (F2R_0 c); apply F2R_le; lia).
    destruct f as [[|]|[|]| |[|] mf ef]; cbn in Hf; try contradiction; cbn [B2R cond_Zopp].
    - split; intros; lra.
    - apply bounded_canonical in Hf. destruct Hf as [Hcan _].
      destruct (grid_separation M m' x mf ef Hmag Hm'0 (conj Hlo Hhi) Hcan) as [G1 G2].
      fold c in G1, G2. split.
      + intros Hle. specialize (G1 Hle). lra.
      + intros Hge. destruct (G2 Hge) as [Hx|Hup]; [|lra].
        assert (Hl'e : l' = loc_Exact) by (apply Hex; exact Hx).
        destruct Hr as [->|[_ Hne]]; [lra|contradiction]. }
  destruct (Z.eq_dec r 0) as [Hr0|Hr0].
  - (* underflow to zero *)
    rewrite Hr0 in *. change (shr_fexp F32.prec F32.emax 0 c loc_Exact)
      with (shr (shr_record_of_loc 0 loc_Exact) c (fexp32 (0 + c) - c)).
    assert (Hz : shr_m (fst (shr (shr_record_of_loc 0 loc_Exact) c (fexp32 (0 + c) - c))) = 0).
    { unfold shr. destruct (fexp32 (0 + c) - c) as [|p|p]; cbn [fst]; trivial.
      destruct (iter_pos_shifted p (shr_record_of_loc 0 loc_Exact)) as [H1 _]; [cbn; lia|].
      rewrite H1. cbn. apply Z.div_0_l. apply Z.pow_nonzero; lia. }
    destruct (shr _ c _) as [mrs'' e'']. cbn [fst] in Hz. rewrite Hz.
    split; [exact I|]. rewrite F2R_0 in Hsep.
    split; [intros f Hf Hb; apply (Hsep f Hf); exact Hb|].
    split; [intros f Hf Hb; apply (Hsep f Hf); exact Hb|].
    intros Hbig. exfalso.
    assert (Hm0 : m' = 0) by (destruct Hr as [Hr|[Hr _]]; lia).
    destruct Hslot as [(H1 & H2 & _)|(H1 & _)].
    + assert (0 < 2 ^ (M - 1 - c)) by (apply Z.pow_pos_nonneg; lia). lia.
    + assert (Hce : c = -149) by (subst c; rewrite fexp32_eq in *; lia).
      assert ((bpow M <= bpow 128)%R) by (apply bpow_le; lia). lra.
  - (* a positive mantissa *)
    assert (Hr1 : (c <= M - 1 /\ 2 ^ (M - 1 - c) <= r <= 2 ^ (M - c)) \/ (M <= c /\ r = 1)).
    { destruct Hslot as [(H1 & H2 & H3)|(H1 & H2)]; [left|right].
      - split; [exact H1|]. destruct Hr as [->|[-> _]]; lia.
      - split; [exact H1|]. destruct Hr as [Hr|[Hr _]]; lia. }
    pose proof (second_shift r c M eq_refl Hr1) as Hsec. cbn zeta in Hsec.
    assert (Hrpos : 0 <= r) by (destruct Hr as [->|[-> _]]; lia).
    pose proof (shr_fexp_spec r c loc_Exact Hrpos) as Hs2. cbn zeta in Hs2.
    destruct (shr_fexp F32.prec F32.emax r c loc_Exact) as [mrs'' e''].
    cbn [fst snd] in Hs2. destruct Hs2 as (He'' & Hm'' & _).
    destruct Hsec as (m'' & Hq & Hcan & Hval).
    rewrite Hm'', Hq. rewrite <- He'' in Hcan, Hval.
    destruct (Z.leb_spec e'' (F32.emax - F32.prec)) as [Hfit|Hover].
    + split; [|split; [|split]].
      * cbn. apply bounded_canonical. split; [exact Hcan|exact Hfit].
      * intros f Hf Hb. cbn [B2R cond_Zopp]. rewrite Hval. now apply (Hsep f Hf).
      * intros f Hf Hb. cbn [B2R cond_Zopp]. rewrite Hval. now apply (Hsep f Hf).
      * intros Hbig. exfalso.
        assert (HM : 128 < M) by (apply bpow_lt_inv; lra).
        assert (Hc105 : 105 <= c) by (subst c; rewrite fexp32_eq; lia).
        change (F32.emax - F32.prec) with 104 in Hfit. lia.
    + split; [exact I|]. split; [trivial|]. split; [|reflexivity].
      intros f Hf Hb. destruct (Hsep f Hf) as [_ Hup]. specialize (Hup Hb).
      rewrite <- Hval in Hup.
      pose proof (canonical_overflow m'' e'' Hcan Hover) as Hbig.
      destruct f as [[|]|[|]| |[|] mf ef]; cbn in Hf; try contradiction; cbn [B2R cond_Zopp] in *.
      * pose proof (bpow_pos 128). lra.
      * pose proof (bounded_lt_bpow_emax mf ef Hf). lra.
Qed.

End FloatFacts.

(** ** Binary32 arithmetic: the operations on non-negative numbers *)

Module FloatOps.

Import FloatSpec FloatFacts.

#[local] Open Scope Z_scope.

Lemma iter_xO_pow (m d : positive) :
  Zpos (Pos.iter xO m d) = Zpos m * 2 ^ Zpos d.
Proof.
  apply (Pos.iter_ind _ xO m (fun d r => Zpos r = Zpos m * 2 ^ Zpos d)).
  - change (2 ^ 1) with 2. lia.
  - intros p r Hr. rewrite Pos2Z.inj_succ, Z.pow_succ_r by lia.
    rewrite Pos2Z.inj_xO, Hr. lia.
Qed.

(** Aligning to a smaller exponent multiplies the mantissa. *)
Lemma shl_align_spec (m : positive) (e e' : Z) :
  let mz := fst (shl_align m e e') in
  let ez := snd (shl_align m e e') in
  ez = Z.min e e' /\ Zpos mz = Zpos m * 2 ^ (e - ez).
Proof.
  unfold shl_align. destruct (e' - e) as [|d|d] eqn:Hd; cbn [fst snd].
  - split; [lia|]. replace (e - e) with 0 by lia. cbn. lia.
  - split; [lia|]. replace (e - e) with 0 by lia. cbn. lia.
  - split; [lia|]. rewrite iter_xO_pow. f_equal. f_equal. lia.
Qed.

Lemma shl_align_F2R (m : positive) (e e' : Z) :
  F2R (Zpos (fst (shl_align m e e'))) (snd (shl_align m e e')) = F2R (Zpos m) e.
Proof.
  destruct (shl_align_spec m e e') as [He Hm]. rewrite Hm.
  rewrite F2R_shift by lia. f_equal. lia.
Qed.

Lemma digits2_pos_shift (m mz : positive) (d : Z) :
  0 <= d -> Zpos mz = Zpos m * 2 ^ d ->
  Zpos (digits2_pos mz) = Zpos (digits2_pos m) + d.
Proof.
  intros Hd Hmz. apply digits2_pos_unique. rewrite Hmz.
  pose proof (digits2_pos_bounds m) as [Hlo Hhi].
  assert (Hp : 0 < 2 ^ d) by (apply Z.pow_pos_nonneg; lia).
  replace (Zpos (digits2_pos m) + d - 1) with (Zpos (digits2_pos m) - 1 + d) by lia.
  rewrite !Z.pow_add_r by lia. nia.
Qed.

(** [binary_round] of a positive number is a faithful rounding of it. *)
Lemma binary_round_rounds (m : positive) (e : Z) :
  rounds (F2R (Zpos m) e) (binary_round F32.prec F32.emax false m e).
Proof.
  unfold binary_round. fold (fexp32 (Zpos (digits2_pos m) + e)).
  pose proof (shl_align_spec m e (fexp32 (Zpos (digits2_pos m) + e))) as Hs.
  pose proof (shl_align_F2R m e (fexp32 (Zpos (digits2_pos m) + e))) as Hv.
  destruct (shl_align m e (fexp32 (Zpos (digits2_pos m) + e))) as [mz ez].
  cbn [fst snd] in *. destruct Hs as [Hez Hmz].
  rewrite <- Hv. apply binary_round_aux_rounds.
  - split; [split; [lra|apply F2R_lt; lia]|tauto].
  - rewrite (digits2_pos_shift m mz (e - ez)) by (trivial; lia).
    replace (Zpos (digits2_pos m) + (e - ez) + ez) with (Zpos (digits2_pos m) + e) by lia.
    lia.
Qed.

Lemma rounds_zero : rounds 0 (S754_zero false).
Proof.
  split; [exact I|]. cbn [B2R].
  split; [intros f _ H; exact H|]. split; [intros f _ H; exact H|].
  intros H. pose proof (bpow_pos 128). lra.
Qed.

Lemma rounds_self (x : spec_float) : nonneg_finite x -> rounds (B2R x) x.
Proof.
  intros Hx. split.
  - destruct x as [[|]|[|]| |[|] m e]; cbn in *; trivial.
  - destruct x as [[|]|[|]| |[|] m e]; cbn in Hx; try contradiction;
      (split; [intros f _ H; exact H|]); (split; [intros f _ H; exact H|]);
      intros H; exfalso; cbn [B2R cond_Zopp] in H.
    + pose proof (bpow_pos 128). lra.
    + pose proof (bounded_lt_bpow_emax m e Hx). lra.
Qed.

Lemma nonneg_finite_B2R (x : spec_float) : nonneg_finite x -> (0 <= B2R x)%R.
Proof.
  destruct x as [[|]|[|]| |[|] m e]; cbn; try contradiction; intros _; try lra.
  unfold F2R. pose proof (bpow_pos e). assert (0 < IZR (Zpos m))%R by (apply IZR_lt; lia).
  nra.
Qed.

Lemma pos_finite_B2R (x : spec_float) : pos_finite x -> (0 < B2R x)%R.
Proof.
  destruct x as [[|]|[|]| |[|] m e]; cbn; try contradiction; intros _.
  unfold F2R. pose proof (bpow_pos e). assert (0 < IZR (Zpos m))%R by (apply IZR_lt; lia).
  nra.
Qed.

Lemma pos_finite_nonneg (x : spec_float) : pos_finite x -> nonneg_finite x.
Proof. destruct x as [[|]|[|]| |[|] m e]; cbn; tauto. Qed.

(** Conversion of a non-negative integer. *)
Lemma of_Z_rounds (n : Z) : 0 <= n -> rounds (IZR n) (F32.of_Z n).
Proof.
  intros Hn. unfold F32.of_Z, binary_normalize. destruct n as [|p|p]; try lia.
  - apply rounds_zero.
  - replace (IZR (Zpos p)) with (F2R (Zpos p) 0) by (unfold F2R; rewrite bpow_0; lra).
    apply binary_round_rounds.
Qed.

(** Multiplication. *)
Lemma mul_precondition (mx my : positive) (ex ey : Z) :
  canonical mx ex = true -> canonical my ey = true ->
  ex + ey <= fexp32 (Zpos (digits2_pos (mx * my)) + (ex + ey)).
Proof.
  intros Hx Hy. apply canonical_eq in Hx, Hy.
  pose proof (digits2_pos_bounds mx) as [Hx1 _].
  pose proof (digits2_pos_bounds my) as [Hy1 _].
  pose proof (digits2_pos_bounds (mx * my)) as [_ Hp].
  set (dx := Zpos (digits2_pos mx)) in *. set (dy := Zpos (digits2_pos my)) in *.
  set (dp := Zpos (digits2_pos (mx * my))) in *.
  assert (Hdx : 1 <= dx) by (subst dx; lia).
  assert (Hdy : 1 <= dy) by (subst dy; lia).
  assert (Hd : dx + dy - 1 <= dp).
  { assert (Hlt : 2 ^ (dx - 1 + (dy - 1)) < 2 ^ dp).
    { rewrite Z.pow_add_r by lia. rewrite Pos2Z.inj_mul in Hp.
      assert (0 < 2 ^ (dx - 1)) by (apply Z.pow_pos_nonneg; lia).
      assert (0 < 2 ^ (dy - 1)) by (apply Z.pow_pos_nonneg; lia). nia. }
    apply Z.pow_lt_mono_r_iff in Hlt; subst dp; lia. }
  pose proof (fexp32_mono (dx + dy - 1 + (ex + ey)) (dp + (ex + ey)) ltac:(lia)) as Hm.
  rewrite fexp32_eq in *. lia.
Qed.

Lemma mul_rounds (a b : spec_float) :
  nonneg_finite a -> nonneg_finite b -> rounds (B2R a * B2R b) (F32.mul a b).
Proof.
  intros Ha Hb.
  destruct a as [[|]|[|]| |[|] mx ex]; cbn in Ha; try contradiction;
  destruct b as [[|]|[|]| |[|] my ey]; cbn in Hb; try contradiction;
    cbn [B2R cond_Zopp F32.mul SFmul xorb].
  - rewrite Rmult_0_l. apply rounds_zero.
  - rewrite Rmult_0_l. apply rounds_zero.
  - rewrite Rmult_0_r. apply rounds_zero.
  - unfold F32.mul, SFmul. cbn [xorb].
    apply bounded_canonical in Ha, Hb. destruct Ha as [Ha _], Hb as [Hb _].
    replace (F2R (Zpos mx) ex * F2R (Zpos my) ey)%R with (F2R (Zpos (mx * my)) (ex + ey)).
    + apply binary_round_aux_rounds.
      * split; [split; [lra|apply F2R_lt; lia]|tauto].
      * now apply mul_precondition.
    + unfold F2R. rewrite Pos2Z.inj_mul, mult_IZR, bpow_add. lra.
Qed.

(** Addition. *)
Lemma add_rounds (a b : spec_float) :
  nonneg_finite a -> nonneg_finite b -> rounds (B2R a + B2R b) (F32.add a b).
Proof.
  intros Ha Hb.
  destruct a as [[|]|[|]| |[|] mx ex] eqn:Ea; cbn in Ha; try contradiction;
  destruct b as [[|]|[|]| |[|] my ey] eqn:Eb; cbn in Hb; try contradiction.
  - cbn. rewrite Rplus_0_l. apply rounds_zero.
  - unfold F32.add, SFadd. cbn [B2R]. rewrite Rplus_0_l.
    apply (rounds_self (S754_finite false my ey)). exact Hb.
  - unfold F32.add, SFadd. cbn [B2R]. rewrite Rplus_0_r.
    apply (rounds_self (S754_finite false mx ex)). exact Ha.
  - unfold F32.add, SFadd. cbn [cond_Zopp B2R].
    set (ez := Z.min ex ey).
    destruct (shl_align_spec mx ex ez) as [Hx1 Hx2].
    destruct (shl_align_spec my ey ez) as [Hy1 Hy2].
    set (sx := fst (shl_align mx ex ez)) in *. set (sy := fst (shl_align my ey ez)) in *.
    replace (Z.min ex ez) with ez in * by lia. replace (Z.min ey ez) with ez in * by lia.
    rewrite Hx1 in Hx2. rewrite Hy1 in Hy2.
    change (Zpos sx + Zpos sy) with (Zpos (sx + sy)). cbn [binary_normalize].
    replace (F2R (Zpos mx) ex + F2R (Zpos my) ey)%R with (F2R (Zpos (sx + sy)) ez).
    + apply binary_round_rounds.
    + rewrite Pos2Z.inj_add. unfold F2R at 1. rewrite plus_IZR, Rmult_plus_distr_r.
      fold (F2R (Zpos sx) ez). fold (F2R (Zpos sy) ez). rewrite Hx2, Hy2.
      rewrite !F2R_shift by lia.
      replace (ez + (ex - ez)) with ex by lia. replace (ez + (ey - ez)) with ey by lia.
      reflexivity.
Qed.

(** Subtraction of a smaller positive number. *)
Lemma sub_rounds (a b : spec_float) :
  pos_finite a -> pos_finite b -> (B2R b <= B2R a)%R ->
  rounds (B2R a - B2R b) (F32.sub a b).
Proof.
  intros Ha Hb Hle.
  destruct a as [[|]|[|]| |[|] mx ex] eqn:Ea; cbn in Ha; try contradiction;
  destruct b as [[|]|[|]| |[|] my ey] eqn:Eb; cbn in Hb; try contradiction.
  unfold F32.sub, SFsub. cbn [cond_Zopp B2R] in *.
  set (ez := Z.min ex ey).
  destruct (shl_align_spec mx ex ez) as [Hx1 Hx2].
  destruct (shl_align_spec my ey ez) as [Hy1 Hy2].
  set (sx := fst (shl_align mx ex ez)) in *. set (sy := fst (shl_align my ey ez)) in *.
  replace (Z.min ex ez) with ez in * by lia. replace (Z.min ey ez) with ez in * by lia.
  rewrite Hx1 in Hx2. rewrite Hy1 in Hy2.
  assert (Hval : (F2R (Zpos mx) ex - F2R (Zpos my) ey)%R = F2R (Zpos sx - Zpos sy) ez).
  { unfold F2R at 3. rewrite minus_IZR, Rmult_minus_distr_r.
    fold (F2R (Zpos sx) ez). fold (F2R (Zpos sy) ez). rewrite Hx2, Hy2.
    rewrite !F2R_shift by lia.
    replace (ez + (ex - ez)) with ex by lia. replace (ez + (ey - ez)) with ey by lia.
    reflexivity. }
  rewrite Hval.
  assert (Hnn : 0 <= Zpos sx - Zpos sy).
  { apply (F2R_le_inv _ _ ez). rewrite F2R_0, <- Hval. lra. }
  destruct (Zpos sx - Zpos sy) as [|p|p] eqn:Hd; try lia; cbn [binary_normalize].
  - rewrite F2R_0. apply rounds_zero.
  - apply binary_round_rounds.
Qed.


(** Division of a non-negative number by a positive one, when the quotient
    is zero or at least 2^-125 (no underflow). *)
Lemma new_location_exact (nb k : Z) :
  new_location nb k = loc_Exact <-> k = 0.
Proof.
  unfold new_location, new_location_even, new_location_odd.
  destruct (Z.even nb); destruct (Z.eqb_spec k 0); split; congruence.
Qed.

Lemma div_rounds_pos (mx my : positive) (ex ey : Z) :
  bounded F32.prec F32.emax mx ex = true ->
  bounded F32.prec F32.emax my ey = true ->
  (bpow (-125) <= F2R (Zpos mx) ex / F2R (Zpos my) ey)%R ->
  rounds (F2R (Zpos mx) ex / F2R (Zpos my) ey)
    (F32.div (S754_finite false mx ex) (S754_finite false my ey)).
Proof.
  intros Hbx Hby Hq.
  unfold F32.div, SFdiv, SFdiv_core_binary. cbn [xorb Zdigits2].
  fold (fexp32 (Zpos (digits2_pos mx) + ex - (Zpos (digits2_pos my) + ey))).
  pose proof (F2R_digits mx ex) as [Hx1 Hx2].
  pose proof (F2R_digits my ey) as [Hy1 Hy2].
  pose proof (digits2_pos_bounds mx) as [Hmx1 Hmx2].
  pose proof (digits2_pos_bounds my) as [Hmy1 Hmy2].
  set (dx := Zpos (digits2_pos mx)) in *. set (dy := Zpos (digits2_pos my)) in *.
  set (X := F2R (Zpos mx) ex) in *. set (Y := F2R (Zpos my) ey) in *.
  set (k := dx + ex - (dy + ey)).
  assert (HY : (0 < Y)%R) by (pose proof (bpow_pos (dy + ey - 1)); lra).
  assert (HX : (0 < X)%R) by (pose proof (bpow_pos (dx + ex - 1)); lra).
  (* the quotient is below 2^(k+1) *)
  assert (Hk : -125 <= k).
  { assert (Hlt : (X / Y < bpow (k + 1))%R).
    { apply (Rmult_lt_reg_r Y); [exact HY|].
      replace (X / Y * Y)%R with X by (field; lra).
      assert (E : bpow (dx + ex) = (bpow (k + 1) * bpow (dy + ey - 1))%R).
      { rewrite <- bpow_add. f_equal. subst k. lia. }
      pose proof (bpow_pos (k + 1)). nra. }
    assert (-125 < k + 1) by (apply bpow_lt_inv; lra). lia. }
  assert (Hfk : fexp32 k = k - 24) by (rewrite fexp32_eq; lia).
  fold k. rewrite Hfk.
  set (e' := Z.min (k - 24) (ex - ey)).
  set (s := ex - ey - e').
  assert (Hs : 0 <= s /\ 24 - dx + dy <= s) by (subst s e' k; lia).
  set (m' := match s with Zpos _ => Z.shiftl (Zpos mx) s | 0 => Zpos mx | Zneg _ => 0 end).
  assert (Hm' : m' = Zpos mx * 2 ^ s).
  { subst m'. clearbody s. destruct s as [|p|p]; try lia.
    apply Z.shiftl_mul_pow2. lia. }
  clearbody m'.
  pose proof (Z.div_eucl_eq m' (Zpos my) ltac:(lia)) as Hde.
  pose proof (Z.mod_pos_bound m' (Zpos my) ltac:(lia)) as Hmod.
  unfold Z.modulo in Hmod.
  destruct (Z.div_eucl m' (Zpos my)) as [q r]. cbn [fst snd] in Hmod.
  (* the quotient has at least 24 digits *)
  assert (Hq23 : 2 ^ 23 <= q).
  { assert (Hlow : 2 ^ (23 + dy) <= m').
    { rewrite Hm'. assert (E : 2 ^ (23 + dy) <= 2 ^ (dx - 1 + s)) by (apply Z.pow_le_mono_r; lia).
      rewrite (Z.pow_add_r 2 (dx - 1) s) in E by lia.
      assert (0 < 2 ^ s) by (apply Z.pow_pos_nonneg; lia).
      apply Z.le_trans with (2 ^ (dx - 1) * 2 ^ s); [exact E|].
      apply Z.mul_le_mono_nonneg_r; lia. }
    rewrite Z.pow_add_r in Hlow by lia.
    assert (Hlt : 2 ^ 23 * 2 ^ dy < (Zpos my) * (q + 1)) by lia.
    assert (Hlt2 : 2 ^ 23 * Zpos my < Zpos my * (q + 1)).
    { apply Z.le_lt_trans with (2 ^ 23 * 2 ^ dy); [|exact Hlt].
      apply Z.mul_le_mono_nonneg_l; lia. }
    rewrite (Z.mul_comm (2 ^ 23)) in Hlt2.
    apply Z.mul_lt_mono_pos_l in Hlt2; lia. }
  destruct q as [|q|q]; try lia.
  assert (HXY : (X / Y = (IZR (Zpos q) + IZR r / IZR (Zpos my)) * bpow e')%R).
  { subst X Y. unfold F2R.
    assert (IZR (Zpos my) <> 0)%R by (apply not_0_IZR; lia).
    pose proof (bpow_pos ey). pose proof (bpow_pos e').
    assert (E1 : bpow ex = (bpow s * bpow e' * bpow ey)%R).
    { rewrite <- !bpow_add. f_equal. subst s. lia. }
    assert (E2 : (IZR (Zpos mx) * bpow s)%R = (IZR (Zpos my) * IZR (Zpos q) + IZR r)%R).
    { rewrite (bpow_nonneg_IZR s) by lia. rewrite <- mult_IZR, <- Hm', Hde.
      now rewrite plus_IZR, mult_IZR. }
    rewrite E1.
    replace (IZR (Zpos mx) * (bpow s * bpow e' * bpow ey))%R
      with ((IZR (Zpos mx) * bpow s) * bpow e' * bpow ey)%R by ring.
    rewrite E2. field. split; lra. }
  assert (Hfrac : (0 <= IZR r / IZR (Zpos my) < 1)%R).
  { assert (0 < IZR (Zpos my))%R by (apply IZR_lt; lia).
    assert (0 <= IZR r)%R by (apply IZR_le; lia).
    assert (IZR r < IZR (Zpos my))%R by (apply IZR_lt; lia).
    split.
    - apply Rmult_le_pos; [lra|]. apply Rlt_le, Rinv_0_lt_compat. lra.
    - apply (Rmult_lt_reg_r (IZR (Zpos my))); [lra|].
      replace (IZR r / IZR (Zpos my) * IZR (Zpos my))%R with (IZR r) by (field; lra). lra. }
  apply binary_round_aux_rounds.
  - rewrite HXY. unfold bracket, F2R. rewrite plus_IZR. pose proof (bpow_pos e').
    split; [split; nra|].
    rewrite new_location_exact. split.
    + intros ->. lra.
    + intros Heq. assert (Hz : (IZR r / IZR (Zpos my) = 0)%R) by nra.
      assert (0 < IZR (Zpos my))%R by (apply IZR_lt; lia).
      assert (Hr0 : IZR r = 0%R).
      { replace (IZR r) with (IZR r / IZR (Zpos my) * IZR (Zpos my))%R by (field; lra).
        rewrite Hz. ring. }
      now apply eq_IZR in Hr0.
  - assert (Hdq : 24 <= Zpos (digits2_pos q)).
    { pose proof (digits2_pos_bounds q) as [_ Hq2].
      assert (Hlt : 2 ^ 23 < 2 ^ Zpos (digits2_pos q)) by lia.
      apply Z.pow_lt_mono_r_iff in Hlt; lia. }
    rewrite fexp32_eq. lia.
Qed.

Lemma div_rounds (a b : spec_float) :
  nonneg_finite a -> pos_finite b ->
  (B2R a = 0 \/ bpow (-125) <= B2R a / B2R b)%R ->
  rounds (B2R a / B2R b) (F32.div a b).
Proof.
  intros Ha Hb Hq.
  destruct b as [[|]|[|]| |[|] my ey]; cbn in Hb; try contradiction.
  destruct a as [[|]|[|]| |[|] mx ex]; cbn in Ha; try contradiction.
  - cbn. unfold Rdiv. rewrite Rmult_0_l. apply rounds_zero.
  - cbn [B2R cond_Zopp] in *. apply div_rounds_pos; trivial.
    destruct Hq as [Hz|Hq]; [|exact Hq].
    pose proof (pos_finite_B2R (S754_finite false mx ex) Ha) as Hp.
    cbn [B2R cond_Zopp] in Hp. lra.
Qed.

(** *** Using a faithful rounding *)

Lemma rounds_upper (x : R) (r f : spec_float) :
  rounds x r -> nonneg_finite f -> (x <= B2R f)%R ->
  nonneg_finite r /\ (B2R r <= B2R f)%R.
Proof.
  intros (Hres & _ & Hup & _) Hf Hx. specialize (Hup f Hf Hx).
  destruct r as [[|]|[|]| |[|] m e]; cbn in Hres; try contradiction; tauto.
Qed.

Lemma rounds_lower (x : R) (r f : spec_float) :
  rounds x r -> nonneg_finite f -> (B2R f <= x)%R -> nonneg_finite r ->
  (B2R f <= B2R r)%R.
Proof.
  intros (_ & Hlo & _) Hf Hx Hr. specialize (Hlo f Hf Hx).
  destruct r as [[|]|[|]| |[|] m e]; cbn in Hr; try contradiction; exact Hlo.
Qed.

Lemma nonneg_finite_pos (r : spec_float) :
  nonneg_finite r -> (0 < B2R r)%R -> pos_finite r.
Proof.
  destruct r as [[|]|[|]| |[|] m e]; cbn; try tauto. intros _ H. lra.
Qed.

Lemma rounds_between (x : R) (r lo hi : spec_float) :
  rounds x r -> pos_finite lo -> nonneg_finite hi ->
  (B2R lo <= x <= B2R hi)%R ->
  pos_finite r /\ (B2R lo <= B2R r <= B2R hi)%R.
Proof.
  intros Hr Hlo Hhi [H1 H2].
  destruct (rounds_upper x r hi Hr Hhi H2) as [Hfin Hle].
  pose proof (rounds_lower x r lo Hr (pos_finite_nonneg lo Hlo) H1 Hfin) as Hge.
  pose proof (pos_finite_B2R lo Hlo).
  split; [apply nonneg_finite_pos; [exact Hfin|lra]|lra].
Qed.

(** *** Comparison of valid numbers *)

Lemma canonical_exponent_lt (m1 m2 : positive) (e1 e2 : Z) :
  canonical m1 e1 = true -> canonical m2 e2 = true -> e1 < e2 ->
  (F2R (Zpos m1) e1 < F2R (Zpos m2) e2)%R.
Proof.
  intros H1 H2 Hlt. apply canonical_eq in H1, H2.
  pose proof (F2R_digits m1 e1) as [_ Hhi]. pose proof (F2R_digits m2 e2) as [Hlo _].
  set (M1 := Zpos (digits2_pos m1) + e1) in *. set (M2 := Zpos (digits2_pos m2) + e2) in *.
  assert (HM : M1 < M2).
  { destruct (Z_lt_le_dec M1 M2) as [|Hge]; trivial.
    pose proof (fexp32_mono M2 M1 Hge). lia. }
  assert ((bpow M1 <= bpow (M2 - 1))%R) by (apply bpow_le; lia). lra.
Qed.

(** On valid positive numbers the comparison is that of the real values. *)
Lemma compare_pos_finite (a b : spec_float) :
  pos_finite a -> pos_finite b ->
  (SFcompare a b = Some Lt /\ (B2R a < B2R b)%R) \/
  (SFcompare a b = Some Eq /\ B2R a = B2R b) \/
  (SFcompare a b = Some Gt /\ (B2R b < B2R a)%R).
Proof.
  intros Ha Hb.
  destruct a as [[|]|[|]| |[|] m1 e1]; cbn in Ha; try contradiction.
  destruct b as [[|]|[|]| |[|] m2 e2]; cbn in Hb; try contradiction.
  apply bounded_canonical in Ha, Hb. destruct Ha as [Ha _], Hb as [Hb _].
  cbn [SFcompare B2R cond_Zopp].
  destruct (Z.compare_spec e1 e2) as [He|He|He].
  - subst e2. rewrite Pos.compare_cont_spec. cbn [Pos.switch_Eq].
    change (Pos.compare m1 m2) with (Z.compare (Zpos m1) (Zpos m2)).
    destruct (Z.compare_spec (Zpos m1) (Zpos m2)) as [Hm|Hm|Hm].
    + right; left. split; [reflexivity|]. now rewrite Hm.
    + left. split; [reflexivity|]. now apply F2R_lt.
    + right; right. split; [reflexivity|]. now apply F2R_lt.
  - left. split; [reflexivity|]. now apply canonical_exponent_lt.
  - right; right. split; [reflexivity|]. now apply canonical_exponent_lt.
Qed.

Lemma ltb_pos_finite (a b : spec_float) :
  pos_finite a -> pos_finite b ->
  (F32.ltb a b = true <-> (B2R a < B2R b)%R).
Proof.
  intros Ha Hb. unfold F32.ltb, SFltb.
  destruct (compare_pos_finite a b Ha Hb) as [[-> H]|[[-> H]|[-> H]]];
    split; intros; try discriminate; try reflexivity; lra.
Qed.

Lemma leb_pos_finite (a b : spec_float) :
  pos_finite a -> pos_finite b ->
  (F32.leb a b = true <-> (B2R a <= B2R b)%R).
Proof.
  intros Ha Hb. unfold F32.leb, SFleb.
  destruct (compare_pos_finite a b Ha Hb) as [[-> H]|[[-> H]|[-> H]]];
    split; intros; try discriminate; try reflexivity; lra.
Qed.

End FloatOps.

(** ** Binary32 arithmetic: signs, validity and NaN *)

Module FloatValid.

Import FloatSpec FloatFacts FloatOps.

#[local] Open Scope Z_scope.

Lemma binary_round_aux_sign (m e : Z) (l : location) :
  binary_round_aux F32.prec F32.emax true m e l
  = SFopp (binary_round_aux F32.prec F32.emax false m e l).
Proof.
  unfold binary_round_aux.
  destruct (shr_fexp F32.prec F32.emax m e l) as [mrs' e'].
  destruct (shr_fexp F32.prec F32.emax _ e' loc_Exact) as [mrs'' e''].
  destruct (shr_m mrs'') as [|p|p]; try reflexivity.
  destruct (e'' <=? F32.emax - F32.prec); reflexivity.
Qed.

Lemma binary_round_sign (m : positive) (e : Z) :
  binary_round F32.prec F32.emax true m e
  = SFopp (binary_round F32.prec F32.emax false m e).
Proof.
  unfold binary_round. destruct (shl_align m e _) as [mz ez].
  apply binary_round_aux_sign.
Qed.

Lemma valid_opp (x : spec_float) : F32.valid (SFopp x) = F32.valid x.
Proof. now destruct x. Qed.

Lemma nonneg_result_valid (r : spec_float) : nonneg_result r -> F32.valid r = true.
Proof. destruct r as [[|]|[|]| |[|] m e]; cbn; trivial; contradiction. Qed.

Lemma rounds_valid (x : R) (r : spec_float) : rounds x r -> F32.valid r = true.
Proof. intros [H _]. now apply nonneg_result_valid. Qed.

Lemma valid_binary_round (s : bool) (m : positive) (e : Z) :
  F32.valid (binary_round F32.prec F32.emax s m e) = true.
Proof.
  destruct s.
  - rewrite binary_round_sign, valid_opp. apply (rounds_valid _ _ (binary_round_rounds m e)).
  - apply (rounds_valid _ _ (binary_round_rounds m e)).
Qed.

Lemma valid_binary_normalize (z e : Z) :
  F32.valid (binary_normalize F32.prec F32.emax z e false) = true.
Proof. destruct z; cbn [binary_normalize]; [reflexivity| |]; apply valid_binary_round. Qed.

Lemma valid_add (a b : spec_float) :
  F32.valid a = true -> F32.valid b = true -> F32.valid (F32.add a b) = true.
Proof.
  intros Ha Hb. unfold F32.add, SFadd.
  destruct a as [sa|sa| |sa ma ea], b as [sb|sb| |sb mb eb]; trivial;
    try (destruct sa, sb; trivial).
  all: apply valid_binary_normalize.
Qed.

Lemma valid_sub (a b : spec_float) :
  F32.valid a = true -> F32.valid b = true -> F32.valid (F32.sub a b) = true.
Proof.
  intros Ha Hb. unfold F32.sub, SFsub.
  destruct a as [sa|sa| |sa ma ea], b as [sb|sb| |sb mb eb]; trivial;
    try (destruct sa, sb; trivial).
  all: apply valid_binary_normalize.
Qed.

Lemma valid_mul (a b : spec_float) :
  F32.valid a = true -> F32.valid b = true -> F32.valid (F32.mul a b) = true.
Proof.
  intros Ha Hb. unfold F32.mul, SFmul.
  destruct a as [sa|sa| |sa ma ea], b as [sb|sb| |sb mb eb]; trivial.
  cbn in Ha, Hb.
  assert (Hpos : F32.valid (binary_round_aux F32.prec F32.emax false
                              (Zpos (ma * mb)) (ea + eb) loc_Exact) = true).
  { apply (rounds_valid (F2R (Zpos (ma * mb)) (ea + eb))).
    apply bounded_canonical in Ha, Hb. destruct Ha as [Ha _], Hb as [Hb _].
    apply binary_round_aux_rounds.
    - split; [split; [lra|apply F2R_lt; lia]|tauto].
    - now apply mul_precondition. }
  destruct (xorb sa sb); [|exact Hpos].
  now rewrite binary_round_aux_sign, valid_opp.
Qed.

Lemma valid_neg (a : spec_float) : F32.valid a = true -> F32.valid (F32.neg a) = true.
Proof. intros H. unfold F32.neg. now rewrite valid_opp. Qed.

(** The rounding step never produces NaN. *)
Lemma binary_round_aux_not_nan (s : bool) (m : positive) (e : Z) (l : location) :
  F32.is_nan (binary_round_aux F32.prec F32.emax s (Zpos m) e l) = false.
Proof.
  unfold binary_round_aux.
  pose proof (shr_fexp_spec (Zpos m) e l ltac:(lia)) as H1. cbn zeta in H1.
  destruct (shr_fexp F32.prec F32.emax (Zpos m) e l) as [mrs' e'].
  cbn [fst snd] in H1. destruct H1 as (_ & Hm' & _).
  assert (H0 : 0 <= shr_m mrs').
  { rewrite Hm'. apply Z.div_pos; [lia|]. apply Z.pow_pos_nonneg; lia. }
  set (r := round_nearest_even (shr_m mrs') (loc_of_shr_record mrs')).
  assert (Hr : 0 <= r).
  { destruct (round_nearest_even_cases (shr_m mrs') (loc_of_shr_record mrs'))
      as [H|[H _]]; subst r; lia. }
  pose proof (shr_fexp_spec r e' loc_Exact Hr) as H2. cbn zeta in H2.
  destruct (shr_fexp F32.prec F32.emax r e' loc_Exact) as [mrs'' e''].
  cbn [fst snd] in H2. destruct H2 as (_ & Hm'' & _).
  assert (H0' : 0 <= shr_m mrs'').
  { rewrite Hm''. apply Z.div_pos; [lia|]. apply Z.pow_pos_nonneg; lia. }
  destruct (shr_m mrs'') as [|p|p]; try lia; [reflexivity|].
  destruct (e'' <=? F32.emax - F32.prec); reflexivity.
Qed.

Lemma binary_normalize_not_nan (z e : Z) :
  F32.is_nan (binary_normalize F32.prec F32.emax z e false) = false.
Proof.
  destruct z as [|p|p]; cbn [binary_normalize]; [reflexivity| |];
    unfold binary_round; destruct (shl_align p e _) as [mz ez];
    apply binary_round_aux_not_nan.
Qed.

Lemma add_finite_not_nan (s : bool) (m : positive) (e : Z) (b : spec_float) :
  F32.is_nan b = false -> F32.is_nan (F32.add (S754_finite s m e) b) = false.
Proof.
  intros Hb. unfold F32.add, SFadd.
  destruct b as [sb|sb| |sb mb eb]; trivial. apply binary_normalize_not_nan.
Qed.

Lemma mul_finite_not_nan (s : bool) (m : positive) (e : Z) (b : spec_float) :
  F32.is_nan b = false -> F32.is_nan (F32.mul (S754_finite s m e) b) = false.
Proof.
  intros Hb. unfold F32.mul, SFmul.
  destruct b as [sb|sb| |sb mb eb]; trivial. apply binary_round_aux_not_nan.
Qed.

(** Swapping the operands of a comparison reverses its result. *)
Lemma SFcompare_swap (a b : spec_float) :
  SFcompare b a = option_map CompOpp (SFcompare a b).
Proof.
  destruct a as [sa|sa| |sa ma ea], b as [sb|sb| |sb mb eb]; cbn;
    try reflexivity; try (destruct sa; reflexivity); try (destruct sb; reflexivity);
    try (destruct sa, sb; reflexivity).
  f_equal. destruct sa, sb; trivial.
  - rewrite (Z.compare_antisym ea eb). destruct (ea ?= eb); cbn; trivial.
    now rewrite (Pos.compare_cont_antisym ma mb Eq).
  - rewrite (Z.compare_antisym ea eb). destruct (ea ?= eb); cbn; trivial.
    now rewrite (Pos.compare_cont_antisym ma mb Eq).
Qed.

End FloatValid.

(** ** The price floor *)

Lemma lit_1_100 : F32.lit 1 100 = S754_finite false 10737418 (-30).
Proof. vm_compute. reflexivity. Qed.

Lemma one_eq : F32.one = S754_finite false 8388608 (-23).
Proof. vm_compute. reflexivity. Qed.

(** [std::max(p, c)] against a positive finite [c]: unless [p] is NaN the
    result is at least [c], hence positive. *)
Lemma max_floor (p : f32) (mc : positive) (ec : Z) :
  F32.is_nan p = false ->
  F32.leb (S754_finite false mc ec) (F32.max p (S754_finite false mc ec)) = true /\
  F32.gtb (F32.max p (S754_finite false mc ec)) F32.zero = true.
Proof.
  intros Hp. set (c := S754_finite false mc ec). unfold F32.max, F32.ltb, SFltb.
  pose proof (FloatValid.SFcompare_swap p c) as Hswap.
  destruct (SFcompare p c) as [[| |]|] eqn:Hc; cbn [option_map CompOpp] in Hswap.
  - unfold F32.leb, SFleb, F32.gtb, SFltb. rewrite Hswap. split; [reflexivity|].
    destruct p as [sp|sp| |sp mp ep]; cbn in Hc, Hp |- *; try discriminate.
    + destruct sp; [discriminate|reflexivity].
    + destruct sp; [discriminate|reflexivity].
  - split.
    + unfold F32.leb, SFleb, c. cbn [SFcompare]. rewrite Z.compare_refl.
      now rewrite Pos.compare_cont_refl.
    + reflexivity.
  - unfold F32.leb, SFleb, F32.gtb, SFltb. rewrite Hswap. split; [reflexivity|].
    destruct p as [sp|sp| |sp mp ep]; cbn in Hc, Hp |- *; try discriminate.
    + destruct sp; [discriminate|reflexivity].
    + destruct sp; [discriminate|reflexivity].
  - destruct p as [sp|sp| |sp mp ep]; cbn in Hc, Hp; try discriminate;
      destruct sp; discriminate.
Qed.

Lemma next_price_not_nan (cur pc : f32) :
  F32.is_finite cur = true -> F32.gtb cur F32.zero = true ->
  F32.is_nan pc = false ->
  F32.is_nan (F32.mul cur (F32.add F32.one pc)) = false.
Proof.
  intros Hfin Hpos Hpc.
  destruct cur as [s|s| |s m e]; cbn in Hfin, Hpos; try discriminate.
  apply FloatValid.mul_finite_not_nan. rewrite one_eq.
  now apply FloatValid.add_finite_not_nan.
Qed.

Lemma next_price_floor (cur pc : f32) :
  F32.is_finite cur = true -> F32.gtb cur F32.zero = true ->
  F32.is_nan pc = false ->
  F32.leb (F32.lit 1 100) (Gen.next_price cur pc) = true /\
  F32.gtb (Gen.next_price cur pc) F32.zero = true.
Proof.
  intros Hfin Hpos Hpc. unfold Gen.next_price. rewrite lit_1_100.
  apply max_floor. now apply next_price_not_nan.
Qed.

(** C6. For a selected symbol whose current price is finite and positive,
    the new price is [max(current * (1 + change), 0.01f)]: whatever the
    price-change fraction, unless it is NaN, that value is at least 0.01f
    and so positive; it is the [last_price] of the returned tick and the
    [current_price] committed into the symbol state. *)
Theorem generate_tick_price_floor (clk : ClockReads) (g : Generator) :
  let t := fst (Gen.generate_tick clk g) in
  let g' := snd (Gen.generate_tick clk g) in
  let i := Obs.selected_symbol g in
  let cur := current_price (symbols_ g !!! i) in
  F32.is_finite cur = true -> F32.gtb cur F32.zero = true ->
  (forall pc : f32, F32.is_nan pc = false ->
     F32.leb (F32.lit 1 100) (Gen.next_price cur pc) = true /\
     F32.gtb (Gen.next_price cur pc) F32.zero = true) /\
  last_price t = Gen.next_price cur (Obs.price_change g) /\
  current_price (symbols_ g' !!! i) = last_price t /\
  (F32.is_nan (Obs.price_change g) = false ->
     F32.leb (F32.lit 1 100) (last_price t) = true /\
     F32.gtb (last_price t) F32.zero = true).
Proof.
  cbn zeta. intros Hfin Hpos. rewrite generate_tick_run. cbn [fst snd].
  cbn [Obs.tick Obs.final last_price symbols_].
  split; [intros pc Hpc; now apply next_price_floor|].
  split; [reflexivity|]. split.
  - assert (Hlen : (Obs.selected_symbol g < length (symbols_ g))%nat).
    { destruct (Nat.lt_ge_cases (Obs.selected_symbol g) (length (symbols_ g)))
        as [|Hge]; trivial.
      rewrite list_lookup_total_alt, (lookup_ge_None_2 _ _ Hge) in Hpos.
      discriminate Hpos. }
    rewrite list_lookup_total_insert_eq by exact Hlen. reflexivity.
  - intros Hpc. unfold Obs.new_price, Obs.symbol. now apply next_price_floor.
Qed.

Lemma generate_tick_price_floor_witness :
  let t := fst (Gen.generate_tick sample_clock sample_generator) in
  let g' := snd (Gen.generate_tick sample_clock sample_generator) in
  let i := Obs.selected_symbol sample_generator in
  let cur := current_price (symbols_ sample_generator !!! i) in
  (forall pc : f32, F32.is_nan pc = false ->
     F32.leb (F32.lit 1 100) (Gen.next_price cur pc) = true /\
     F32.gtb (Gen.next_price cur pc) F32.zero = true) /\
  last_price t = Gen.next_price cur (Obs.price_change sample_generator) /\
  current_price (symbols_ g' !!! i) = last_price t /\
  (F32.is_nan (Obs.price_change sample_generator) = false ->
     F32.leb (F32.lit 1 100) (last_price t) = true /\
     F32.gtb (last_price t) F32.zero = true).
Proof.
  apply (generate_tick_price_floor sample_clock sample_generator).
  - vm_compute. reflexivity.
  - vm_compute. reflexivity.
Defined.

(** ** Bounds on the values of generate_tick *)

Module Bounds.

Import FloatSpec FloatFacts FloatOps FloatValid.

#[local] Open Scope Z_scope.

Lemma bpow_neg_IZR (n : Z) : 0 <= n -> bpow (- n) = (/ IZR (2 ^ n))%R.
Proof.
  intros Hn. rewrite <- bpow_nonneg_IZR by trivial.
  apply Rmult_eq_reg_r with (bpow n); [|pose proof (bpow_pos n); lra].
  rewrite <- bpow_add. replace (- n + n) with 0 by lia. rewrite bpow_0.
  pose proof (bpow_pos n). field. lra.
Qed.

Lemma bpow_Zneg_IZR (p : positive) : bpow (Zneg p) = (/ IZR (2 ^ Zpos p))%R.
Proof. change (Zneg p) with (- Zpos p). apply bpow_neg_IZR. lia. Qed.

(** Turns the powers of two with literal exponents into constants. *)
Ltac bpow_const :=
  repeat match goal with
  | |- context [bpow (Zpos ?p)] =>
      rewrite (bpow_nonneg_IZR (Zpos p)) by lia;
      let v := eval vm_compute in (2 ^ Zpos p) in change (2 ^ Zpos p) with v
  | |- context [bpow (Zneg ?p)] =>
      rewrite (bpow_Zneg_IZR p);
      let v := eval vm_compute in (2 ^ Zpos p) in change (2 ^ Zpos p) with v
  | |- context [bpow 0] => rewrite bpow_0
  | H : context [bpow (Zpos ?p)] |- _ =>
      rewrite (bpow_nonneg_IZR (Zpos p)) in H by lia;
      let v := eval vm_compute in (2 ^ Zpos p) in change (2 ^ Zpos p) with v in H
  | H : context [bpow (Zneg ?p)] |- _ =>
      rewrite (bpow_Zneg_IZR p) in H;
      let v := eval vm_compute in (2 ^ Zpos p) in change (2 ^ Zpos p) with v in H
  | H : context [bpow 0] |- _ => rewrite bpow_0 in H
  end.

(** The value of a literal float as a constant. *)
Ltac B2R_const := cbn [B2R cond_Zopp] in *; unfold F2R in *; bpow_const.

(** *** The constants of generate_tick *)

Lemma lit_5_10 : F32.lit 5 10 = S754_finite false 8388608 (-24).
Proof. vm_compute. reflexivity. Qed.

Lemma of_Z_2 : F32.of_Z 2 = S754_finite false 8388608 (-22).
Proof. vm_compute. reflexivity. Qed.

Lemma of_Z_3 : F32.of_Z 3 = S754_finite false 12582912 (-22).
Proof. vm_compute. reflexivity. Qed.

Lemma of_Z_500 : F32.of_Z 500 = S754_finite false 16384000 (-15).
Proof. vm_compute. reflexivity. Qed.

Lemma of_Z_10000 : F32.of_Z 10000 = S754_finite false 10240000 (-10).
Proof. vm_compute. reflexivity. Qed.

Lemma of_Z_2p24 : F32.of_Z 16777216 = S754_finite false 8388608 1.
Proof. vm_compute. reflexivity. Qed.

Lemma spread_width :
  F32.sub (F32.of_Z 3) (F32.lit 5 10) = S754_finite false 10485760 (-22).
Proof. vm_compute. reflexivity. Qed.

(** *** The normalised draw *)

Lemma low_bits_range (r : Z) : 0 <= Z.land r 16777215 <= 16777215.
Proof.
  change 16777215 with (Z.ones 24) at 1 2. rewrite Z.land_ones by lia.
  pose proof (Z.mod_pos_bound r (2 ^ 24) ltac:(lia)). change (2 ^ 24) with 16777216 in *.
  lia.
Qed.

(** [normalized] is a valid number in [0, kmax / 2^24] when the low bits
    are at most [kmax]. *)
Lemma normalized_range (k : Z) :
  0 <= k <= 16777214 ->
  let n := F32.div (F32.of_Z k) (F32.of_Z 16777216) in
  nonneg_finite n /\ (B2R n <= 16777214 / 16777216)%R.
Proof.
  intros Hk. cbn zeta. rewrite of_Z_2p24.
  pose proof (of_Z_rounds k ltac:(lia)) as Ha.
  assert (Hk0 : (0 <= IZR k)%R) by (apply IZR_le; lia).
  assert (Hk1 : (IZR k <= 16777214)%R) by (apply IZR_le; lia).
  destruct (rounds_upper (IZR k) (F32.of_Z k) (S754_finite false 16777214 0) Ha)
    as [Hfin Hle]; [reflexivity|B2R_const; lra|].
  assert (Hq : (B2R (F32.of_Z k) = 0 \/
                bpow (-125) <= B2R (F32.of_Z k) / B2R (S754_finite false 8388608 1))%R).
  { destruct (Z.eq_dec k 0) as [->|Hne]; [left; reflexivity|right].
    assert (H1 : (1 <= B2R (F32.of_Z k))%R).
    { replace 1%R with (B2R (S754_finite false 8388608 (-23))) by (B2R_const; lra).
      apply (rounds_lower (IZR k)); trivial; [reflexivity|].
      B2R_const. assert (1 <= k) by lia. apply IZR_le in H. lra. }
    assert (Hp : (bpow (-125) <= bpow (-24))%R) by (apply bpow_le; lia).
    B2R_const. lra. }
  pose proof (div_rounds (F32.of_Z k) (S754_finite false 8388608 1) Hfin
                ltac:(reflexivity) Hq) as Hn.
  destruct (rounds_upper _ _ (S754_finite false 16777214 (-24)) Hn) as [Hnf Hnle];
    [reflexivity|B2R_const; lra|].
  split; [exact Hnf|]. B2R_const. lra.
Qed.


Lemma normalized_valid (r : Z) :
  nonneg_finite (F32.div (F32.of_Z (Z.land r 16777215)) (F32.of_Z 16777216)).
Proof.
  pose proof (low_bits_range r) as Hk.
  destruct (Z.eq_dec (Z.land r 16777215) 16777215) as [->|Hne].
  - vm_compute. reflexivity.
  - apply normalized_range. lia.
Qed.

(** *** The spread draw *)

Lemma spread_top :
  F32.add (S754_finite false 8388608 (-24))
    (F32.mul (F32.div (F32.of_Z 16777215) (F32.of_Z 16777216))
       (S754_finite false 10485760 (-22)))
  = S754_finite false 12582911 (-22).
Proof. vm_compute. reflexivity. Qed.

(** Every draw of [fast_random_float(0.5f, 3.0f)] is a valid number in
    [0.5, 3.0). *)
Lemma drawn_spread_range (r : Z) :
  let s := Obs.uniform_float r (F32.lit 5 10) (F32.of_Z 3) in
  pos_finite s /\ (1 / 2 <= B2R s < 3)%R.
Proof.
  cbn zeta. unfold Obs.uniform_float. rewrite spread_width, lit_5_10.
  pose proof (low_bits_range r) as Hk.
  destruct (Z.eq_dec (Z.land r 16777215) 16777215) as [->|Hne].
  - rewrite spread_top. split; [reflexivity|]. B2R_const. lra.
  - destruct (normalized_range (Z.land r 16777215) ltac:(lia)) as [Hn Hnle].
    set (n := F32.div _ _) in *.
    pose proof (nonneg_finite_B2R n Hn) as Hn0.
    pose proof (mul_rounds n (S754_finite false 10485760 (-22)) Hn ltac:(reflexivity)) as Ht.
    destruct (rounds_upper _ _ (S754_finite false 10485759 (-22)) Ht) as [Htf Htle];
      [reflexivity|B2R_const; lra|].
    set (t := F32.mul n _) in *.
    pose proof (nonneg_finite_B2R t Htf) as Ht0.
    pose proof (add_rounds (S754_finite false 8388608 (-24)) t ltac:(reflexivity) Htf) as Hs.
    destruct (rounds_between _ _ (S754_finite false 8388608 (-24))
                (S754_finite false 12582911 (-22)) Hs) as [Hsp Hsb];
      [reflexivity|reflexivity|B2R_const; lra|].
    split; [exact Hsp|]. B2R_const. lra.
Qed.

(** *** Scaling and predecessor of a normal number *)

Lemma pos_finite_normal (x : f32) :
  pos_finite x -> (bpow (-7) <= B2R x)%R ->
  exists (mx : positive) (ex : Z),
    x = S754_finite false mx ex /\ Zpos (digits2_pos mx) = 24 /\ -30 <= ex <= 104.
Proof.
  intros Hx Hge.
  destruct x as [[|]|[|]| |[|] mx ex]; cbn in Hx; try contradiction.
  exists mx, ex. split; [reflexivity|].
  apply bounded_canonical in Hx. destruct Hx as [Hc He].
  apply canonical_eq in Hc. rewrite fexp32_eq in Hc.
  cbn [B2R cond_Zopp] in Hge. pose proof (F2R_digits mx ex) as [_ Hlt].
  assert (-7 < Zpos (digits2_pos mx) + ex) by (apply bpow_lt_inv; lra).
  lia.
Qed.

Lemma scale2_spec (mx : positive) (ex j : Z) :
  Zpos (digits2_pos mx) = 24 -> -149 <= ex + j <= 104 ->
  pos_finite (scale2 (S754_finite false mx ex) j) /\
  B2R (scale2 (S754_finite false mx ex) j) = (F2R (Zpos mx) ex * bpow j)%R.
Proof.
  intros Hd He. cbn [scale2 pos_finite B2R cond_Zopp]. split.
  - apply bounded_canonical. split; [|lia]. apply canonical_eq.
    rewrite Hd, fexp32_eq. lia.
  - unfold F2R. rewrite bpow_add. ring.
Qed.

Lemma pred_pos_spec (mx : positive) (ex : Z) :
  Zpos (digits2_pos mx) = 24 -> -148 <= ex <= 104 ->
  pos_finite (pred_pos (S754_finite false mx ex)) /\
  (F2R (Zpos mx) ex - bpow ex <= B2R (pred_pos (S754_finite false mx ex))
   < F2R (Zpos mx) ex)%R.
Proof.
  intros Hd He. pose proof (digits2_pos_bounds mx) as Hb. rewrite Hd in Hb.
  change (2 ^ (24 - 1)) with 8388608 in Hb. change (2 ^ 24) with 16777216 in Hb.
  cbn [pred_pos]. destruct (Pos.eqb_spec mx 8388608) as [->|Hne].
  - cbn [pos_finite B2R cond_Zopp]. split.
    + apply bounded_canonical. split; [|lia]. apply canonical_eq.
      change (Zpos (digits2_pos 16777215)) with 24. rewrite fexp32_eq. lia.
    + unfold F2R.
      assert (E : bpow ex = (2 * bpow (ex - 1))%R).
      { rewrite <- bpow_succ. f_equal. lia. }
      rewrite E. pose proof (bpow_pos (ex - 1)). lra.
  - assert (Hp : Zpos (Pos.pred mx) = Zpos mx - 1) by lia.
    assert (Hd' : Zpos (digits2_pos (Pos.pred mx)) = 24).
    { apply digits2_pos_unique. change (2 ^ (24 - 1)) with 8388608.
      change (2 ^ 24) with 16777216. lia. }
    cbn [pos_finite B2R cond_Zopp]. split.
    + apply bounded_canonical. split; [|lia]. apply canonical_eq.
      rewrite Hd', fexp32_eq. lia.
    + unfold F2R. rewrite Hp, minus_IZR. pose proof (bpow_pos ex). lra.
Qed.


(** *** Bid and ask around a price *)

Lemma pos_finite_gtb_zero (x : f32) : pos_finite x -> F32.gtb x F32.zero = true.
Proof. destruct x as [[|]|[|]| |[|] m e]; cbn; trivial; contradiction. Qed.

Lemma ltb_finite_result (a b : f32) :
  pos_finite a -> nonneg_result b ->
  (match b with S754_infinity _ => True | _ => (B2R a < B2R b)%R end) ->
  F32.ltb a b = true.
Proof.
  intros Ha Hb Hlt.
  destruct b as [[|]|[|]| |[|] mb eb] eqn:Eb; cbn in Hb; try contradiction.
  - pose proof (pos_finite_B2R a Ha). cbn [B2R] in Hlt. lra.
  - destruct a as [[|]|[|]| |[|] ma ea]; cbn in Ha; try contradiction. reflexivity.
  - apply ltb_pos_finite; trivial.
Qed.

(** For a valid price [x] of at least 2^-7 and a valid spread of 0.5 to 6
    basis points, the bid is a positive valid number strictly below [x] and
    the ask is at least [x] (possibly [+inf]). *)
Lemma quote_bounds (x s : f32) :
  pos_finite x -> (bpow (-7) <= B2R x)%R ->
  pos_finite s -> (1 / 2 <= B2R s <= 6)%R ->
  let spread_dollars := F32.mul (F32.div s (F32.of_Z 10000)) x in
  let bid := F32.sub x (F32.mul spread_dollars (F32.lit 5 10)) in
  let ask := F32.add x (F32.mul spread_dollars (F32.lit 5 10)) in
  pos_finite bid /\ (B2R bid < B2R x)%R /\
  F32.gtb bid F32.zero = true /\ F32.ltb bid ask = true.
Proof.
  intros Hx Hx7 Hs Hsb. cbn zeta. rewrite of_Z_10000, lit_5_10.
  destruct (pos_finite_normal x Hx Hx7) as (mx & ex & -> & Hd & He).
  cbn [B2R cond_Zopp] in *. set (X := F2R (Zpos mx) ex) in *.
  set (x := S754_finite false mx ex) in *.
  assert (HX : (0 < X)%R) by (pose proof (bpow_pos (-7)); lra).
  assert (Hulp : (8388608 * bpow ex <= X)%R).
  { pose proof (digits2_pos_bounds mx) as [Hb _]. rewrite Hd in Hb.
    change (2 ^ (24 - 1)) with 8388608 in Hb. apply IZR_le in Hb.
    subst X. unfold F2R. pose proof (bpow_pos ex). nra. }
  (* spread_bps / 10000 *)
  assert (Hq : (B2R s = 0 \/ bpow (-125) <= B2R s / B2R (S754_finite false 10240000 (-10)))%R).
  { right. assert (Hp : (bpow (-125) <= bpow (-15))%R) by (apply bpow_le; lia).
    B2R_const. lra. }
  pose proof (div_rounds s (S754_finite false 10240000 (-10)) (pos_finite_nonneg s Hs)
                ltac:(reflexivity) Hq) as Hd1.
  destruct (rounds_between _ _ (S754_finite false 8388608 (-38))
              (S754_finite false 8388608 (-33)) Hd1) as [Hd1p Hd1b];
    [reflexivity|reflexivity|B2R_const; lra|].
  set (d1 := F32.div s _) in *.
  (* times the price *)
  destruct (scale2_spec mx ex (-15) Hd ltac:(lia)) as [Hlo2 Elo2].
  destruct (scale2_spec mx ex (-10) Hd ltac:(lia)) as [Hhi2 Ehi2].
  fold x in Hlo2, Elo2, Hhi2, Ehi2. fold X in Elo2, Ehi2.
  pose proof (mul_rounds d1 x (pos_finite_nonneg d1 Hd1p) (pos_finite_nonneg x Hx)) as Hd2.
  destruct (rounds_between _ _ (scale2 x (-15)) (scale2 x (-10)) Hd2) as [Hd2p Hd2b];
    [exact Hlo2|exact (pos_finite_nonneg _ Hhi2)|
     rewrite Elo2, Ehi2; change (B2R x) with X; B2R_const; nra|].
  rewrite Elo2, Ehi2 in Hd2b.
  set (d2 := F32.mul d1 x) in *.
  (* halved *)
  destruct (scale2_spec mx ex (-16) Hd ltac:(lia)) as [Hlo3 Elo3].
  destruct (scale2_spec mx ex (-11) Hd ltac:(lia)) as [Hhi3 Ehi3].
  fold x in Hlo3, Elo3, Hhi3, Ehi3. fold X in Elo3, Ehi3.
  pose proof (mul_rounds d2 (S754_finite false 8388608 (-24)) (pos_finite_nonneg d2 Hd2p)
                ltac:(reflexivity)) as Hh.
  destruct (rounds_between _ _ (scale2 x (-16)) (scale2 x (-11)) Hh) as [Hhp Hhb];
    [exact Hlo3|exact (pos_finite_nonneg _ Hhi3)|
     rewrite Elo3, Ehi3; B2R_const; lra|].
  rewrite Elo3, Ehi3 in Hhb.
  set (h := F32.mul d2 _) in *.
  assert (Hh1 : (bpow ex <= B2R h)%R) by (B2R_const; lra).
  assert (Hh2 : (B2R h <= X / 2048)%R) by (B2R_const; lra).
  (* the bid *)
  destruct (scale2_spec mx ex (-1) Hd ltac:(lia)) as [Hlo4 Elo4].
  destruct (pred_pos_spec mx ex Hd ltac:(lia)) as [Hhi4 Ehi4].
  fold x in Hlo4, Elo4, Hhi4, Ehi4. fold X in Elo4, Ehi4.
  pose proof (sub_rounds x h Hx Hhp ltac:(change (B2R x) with X; lra)) as Hbid.
  destruct (rounds_between _ _ (scale2 x (-1)) (pred_pos x) Hbid) as [Hbp Hbb];
    [exact Hlo4|exact (pos_finite_nonneg _ Hhi4)|
     rewrite Elo4; change (B2R x) with X; B2R_const; lra|].
  set (bid := F32.sub x h) in *.
  assert (Hbx : (B2R bid < X)%R) by lra.
  split; [exact Hbp|]. split; [exact Hbx|]. split; [now apply pos_finite_gtb_zero|].
  (* the ask *)
  pose proof (add_rounds x h (pos_finite_nonneg x Hx) (pos_finite_nonneg h Hhp)) as Hask.
  apply ltb_finite_result; [exact Hbp|apply Hask|].
  pose proof (pos_finite_B2R h Hhp) as Hh0.
  destruct Hask as (Hres & Hlow & _). specialize (Hlow x (pos_finite_nonneg x Hx)).
  change (B2R x) with X in Hlow.
  destruct (F32.add x h) as [[|]|[|]| |[|] ma ea]; trivial;
    specialize (Hlow ltac:(lra)); lra.
Qed.

End Bounds.

(** ** The spread of a tick *)

(** C2, as stated, fails: for the one-symbol registry priced 501 the new
    price is below 500 and the spread is doubled all the same, because the
    test reads the symbol's price before the update. *)
Lemma spread_doubling_reads_old_price :
  let t := fst (Gen.generate_tick sample_clock crossing_generator) in
  F32.gtb (last_price t) (F32.of_Z 500) = false /\
  spread_bps t = F32.mul (Obs.drawn_spread crossing_generator) (F32.of_Z 2) /\
  spread_bps t <> spec_spread_bps (Obs.drawn_spread crossing_generator) (last_price t).
Proof.
  vm_compute. repeat split; try reflexivity. discriminate.
Qed.

(** C2, amended. The spread in basis points is drawn by
    [fast_random_float(0.5f, 3.0f)], a value in [0.5, 3.0), and is doubled
    exactly when the selected symbol's current price, as stored before this
    call commits the new one, exceeds 500; the dollar spread is
    (spread_bps / 10000) * new_price, and the bid and the ask are the new
    price minus and plus the dollar spread times 0.5. *)
Theorem generate_tick_spread (clk : ClockReads) (g : Generator) :
  let t := fst (Gen.generate_tick clk g) in
  let drawn := Obs.drawn_spread g in
  let old_price := current_price (symbols_ g !!! Obs.selected_symbol g) in
  let spread_dollars :=
    F32.mul (F32.div (spread_bps t) (F32.of_Z 10000)) (last_price t) in
  drawn = Obs.uniform_float (Obs.draw g 3) (F32.lit 5 10) (F32.of_Z 3) /\
  F32.leb (F32.lit 5 10) drawn = true /\
  F32.ltb drawn (F32.of_Z 3) = true /\
  spread_bps t = (if F32.gtb old_price (F32.of_Z 500)
                  then F32.mul drawn (F32.of_Z 2) else drawn) /\
  bid_price t = F32.sub (last_price t) (F32.mul spread_dollars (F32.lit 5 10)) /\
  ask_price t = F32.add (last_price t) (F32.mul spread_dollars (F32.lit 5 10)).
Proof.
  cbn zeta. rewrite generate_tick_run. cbn [fst Obs.tick spread_bps last_price bid_price ask_price].
  destruct (Bounds.drawn_spread_range (Obs.draw g 3)) as [Hp [Hlo Hhi]].
  unfold Obs.bid_price, Obs.ask_price, Obs.spread_dollars, Obs.spread_bps,
    Obs.symbol, Obs.drawn_spread.
  set (drawn := Obs.uniform_float (Obs.draw g 3) (F32.lit 5 10) (F32.of_Z 3)) in *.
  split; [reflexivity|]. split; [|split]; [| |repeat split].
  - rewrite Bounds.lit_5_10. apply FloatOps.leb_pos_finite; [reflexivity|exact Hp|].
    Bounds.B2R_const. lra.
  - rewrite Bounds.of_Z_3. apply FloatOps.ltb_pos_finite; [exact Hp|reflexivity|].
    Bounds.B2R_const. lra.
Qed.

(** ** The invariants of a generated tick *)

Lemma select_scan_range (syms : list SymbolState) (i0 : nat) (c r : Z) (i : nat) :
  Gen.select_scan syms i0 c r = Some i -> (i0 <= i < i0 + length syms)%nat.
Proof.
  revert i0 c. induction syms as [|s syms IH]; intros i0 c H; cbn in H; [discriminate|].
  destruct (r <? UInt.wrap32 (c + tick_multiplier s)).
  - injection H as <-. cbn [length]. lia.
  - apply IH in H. cbn [length]. lia.
Qed.

Lemma well_typed_capacity (g : Generator) :
  Spec.well_typed g = true ->
  length (symbols_ g) = Z.to_nat MAX_SYMBOLS /\
  0 <= num_symbols_ g <= MAX_SYMBOLS /\ 0 <= num_venues_ g <= MAX_VENUES.
Proof.
  unfold Spec.well_typed. rewrite !andb_true_iff. intros H.
  destruct H as [[[[[[[[[[H1 _] H2] H3] H4] H5] _] _] _] _] _].
  apply Nat.eqb_eq in H1. lia.
Qed.

Lemma selected_symbol_in_use (g : Generator) :
  Spec.well_typed g = true -> 1 <= num_symbols_ g ->
  (Obs.selected_symbol g < length (symbols_ g))%nat /\
  Z.of_nat (Obs.selected_symbol g) < num_symbols_ g.
Proof.
  intros Hwt Hn. destruct (well_typed_capacity g Hwt) as (Hlen & Hns & _).
  unfold MAX_SYMBOLS in *.
  assert (Hact : length (Gen.active_symbols g) = Z.to_nat (num_symbols_ g)).
  { unfold Gen.active_symbols. rewrite length_take. lia. }
  unfold Obs.selected_symbol.
  destruct (Gen.select_scan (Gen.active_symbols g) 0 0 (Obs.random_weight g)) as [i|] eqn:Hs;
    cbn [default from_option Datatypes.id].
  - apply select_scan_range in Hs. split; lia.
  - split; lia.
Qed.

Lemma venue_idx_range (g : Generator) :
  Spec.well_typed g = true -> 1 <= num_venues_ g ->
  0 <= UInt.wrap8 (Obs.venue_idx g) < num_venues_ g.
Proof.
  intros Hwt Hn. destruct (well_typed_capacity g Hwt) as (_ & _ & Hnv).
  unfold MAX_VENUES in *. unfold Obs.venue_idx, Obs.uniform_u32.
  rewrite (wrap64_small (num_venues_ g - 1)) by lia.
  rewrite (wrap32_small (num_venues_ g - 1)) by lia.
  replace (num_venues_ g - 1 - 0 + 1) with (num_venues_ g) by lia.
  rewrite (wrap32_small (num_venues_ g)) by lia.
  pose proof (Z.mod_pos_bound (Obs.draw g 5) (num_venues_ g) ltac:(lia)) as Hm.
  rewrite wrap64_small by lia. rewrite wrap32_small by lia.
  unfold UInt.wrap8. rewrite Z.mod_small; [lia|]. change (2 ^ 8) with 256. lia.
Qed.

Lemma uniform_float_valid (r : Z) (min max : f32) :
  F32.valid min = true -> F32.valid max = true ->
  F32.valid (Obs.uniform_float r min max) = true.
Proof.
  intros Hmin Hmax. unfold Obs.uniform_float.
  apply FloatValid.valid_add; [exact Hmin|].
  apply FloatValid.valid_mul; [|now apply FloatValid.valid_sub].
  pose proof (Bounds.normalized_valid r) as Hn.
  destruct (F32.div _ _) as [[|]|[|]| |[|] m e]; cbn in Hn; try contradiction; trivial.
Qed.

Lemma new_price_valid (g : Generator) :
  Spec.well_typed g = true -> valid_floats g = true -> 1 <= num_symbols_ g ->
  F32.valid (Obs.new_price g) = true.
Proof.
  intros Hwt Hvf Hn. destruct (selected_symbol_in_use g Hwt Hn) as [Hsel _].
  destruct (lookup_lt_is_Some_2 _ _ Hsel) as [s Hs].
  assert (Hv : F32.valid (current_price s) = true /\ F32.valid (volatility s) = true /\
               F32.valid (price_trend s) = true).
  { unfold valid_floats in Hvf. rewrite forallb_forall in Hvf.
    apply list_elem_of_lookup_2, list_elem_of_In, Hvf in Hs.
    rewrite !andb_true_iff in Hs. tauto. }
  destruct Hv as (Hc & Hvol & Htr).
  unfold Obs.new_price, Obs.price_change, Obs.symbol, Gen.next_price.
  rewrite (list_lookup_total_correct _ _ _ Hs).
  unfold F32.max. destruct (F32.ltb _ _); [reflexivity|].
  apply FloatValid.valid_mul; [exact Hc|].
  apply FloatValid.valid_add; [reflexivity|].
  apply FloatValid.valid_add.
  - apply uniform_float_valid.
    + apply FloatValid.valid_mul; [now apply FloatValid.valid_neg|reflexivity].
    + apply FloatValid.valid_mul; [exact Hvol|reflexivity].
  - apply FloatValid.valid_mul; [exact Htr|reflexivity].
Qed.

(** A finite new price is a valid positive number of at least 2^-7. *)
Lemma new_price_pos_finite (g : Generator) :
  Spec.well_typed g = true -> valid_floats g = true -> 1 <= num_symbols_ g ->
  F32.is_finite (Obs.new_price g) = true ->
  FloatSpec.pos_finite (Obs.new_price g) /\
  (FloatSpec.bpow (-7) <= FloatSpec.B2R (Obs.new_price g))%R.
Proof.
  intros Hwt Hvf Hn Hfin. pose proof (new_price_valid g Hwt Hvf Hn) as Hval.
  unfold Obs.new_price, Gen.next_price in *. rewrite lit_1_100 in *.
  set (p := F32.mul _ _) in *.
  assert (Hp : F32.is_nan p = false).
  { destruct p as [sp|sp| |sp mp ep] eqn:Ep; trivial. discriminate Hfin. }
  destruct (max_floor p 10737418 (-30) Hp) as [Hle Hgt].
  set (x := F32.max p _) in *.
  assert (Hx : FloatSpec.pos_finite x).
  { destruct x as [[|]|[|]| |[|] m e]; cbn in Hfin, Hgt, Hval |- *; try discriminate.
    exact Hval. }
  split; [exact Hx|].
  apply FloatOps.leb_pos_finite in Hle; [|reflexivity|exact Hx].
  assert (Hc : (FloatSpec.bpow (-7) <= FloatSpec.B2R (S754_finite false 10737418 (-30)))%R)
    by (Bounds.B2R_const; lra).
  lra.
Qed.

(** The spread in basis points is a valid number in [0.5, 6]. *)
Lemma spread_bps_range (g : Generator) :
  FloatSpec.pos_finite (Obs.spread_bps g) /\
  (1 / 2 <= FloatSpec.B2R (Obs.spread_bps g) <= 6)%R.
Proof.
  unfold Obs.spread_bps, Obs.drawn_spread.
  destruct (Bounds.drawn_spread_range (Obs.draw g 3)) as [Hp [Hlo Hhi]].
  cbn zeta in Hp, Hlo, Hhi.
  set (drawn := Obs.uniform_float (Obs.draw g 3) (F32.lit 5 10) (F32.of_Z 3)) in *.
  destruct (F32.gtb _ _); [|split; [exact Hp|lra]].
  rewrite Bounds.of_Z_2.
  pose proof (FloatOps.mul_rounds drawn (S754_finite false 8388608 (-22))
                (FloatOps.pos_finite_nonneg _ Hp) ltac:(reflexivity)) as Hm.
  destruct (FloatOps.rounds_between _ _ (S754_finite false 8388608 (-24))
              (S754_finite false 12582912 (-21)) Hm) as [Hmp Hmb];
    [reflexivity|reflexivity|Bounds.B2R_const; lra|].
  split; [exact Hmp|]. Bounds.B2R_const. lra.
Qed.



(** ** The hypotheses are invariants of the generator

    [Spec.well_typed], [valid_floats] and the weights of the symbols in use
    hold after the constructor and are kept by every generate_tick. *)

Module Invariant.

Lemma lxor_range (a b : Z) :
  0 <= a < 2 ^ 64 -> 0 <= b < 2 ^ 64 -> 0 <= Z.lxor a b < 2 ^ 64.
Proof.
  intros Ha Hb.
  assert (H0 : 0 <= Z.lxor a b) by (apply Z.lxor_nonneg; lia).
  split; [exact H0|].
  destruct (Z.eq_dec (Z.lxor a b) 0) as [->|Hne]; [lia|].
  apply Z.log2_lt_pow2; [lia|].
  pose proof (Z.log2_lxor a b ltac:(lia) ltac:(lia)) as Hl.
  assert (Hla : Z.log2 a < 64).
  { destruct (Z.eq_dec a 0) as [->|]; [cbn; lia|]. apply Z.log2_lt_pow2; lia. }
  assert (Hlb : Z.log2 b < 64).
  { destruct (Z.eq_dec b 0) as [->|]; [cbn; lia|]. apply Z.log2_lt_pow2; lia. }
  lia.
Qed.

Lemma xorshift64_step_range (x : Z) :
  0 <= x < 2 ^ 64 -> 0 <= Gen.xorshift64_step x < 2 ^ 64.
Proof.
  intros Hx. unfold Gen.xorshift64_step. cbv zeta.
  assert (H1 : 0 <= Z.lxor x (UInt.wrap64 (Z.shiftl x 13)) < 2 ^ 64).
  { apply lxor_range; [exact Hx|apply wrap64_range]. }
  set (x1 := Z.lxor x _) in *.
  assert (H2 : 0 <= Z.lxor x1 (Z.shiftr x1 7) < 2 ^ 64).
  { apply lxor_range; [exact H1|].
    rewrite Z.shiftr_div_pow2 by lia. split.
    - apply Z.div_pos; lia.
    - apply Z.le_lt_trans with x1; [|lia]. apply Z.div_le_upper_bound; lia. }
  set (x2 := Z.lxor x1 _) in *.
  apply lxor_range; [exact H2|apply wrap64_range].
Qed.

Lemma rng_range (x : Z) (k : nat) :
  0 <= x < 2 ^ 64 -> 0 <= Obs.rng x k < 2 ^ 64.
Proof.
  intros Hx. induction k as [|k IH]; cbn [Obs.rng]; [exact Hx|].
  now apply xorshift64_step_range.
Qed.

Lemma forallb_insert {A} (P : A -> bool) (l : list A) (i : nat) (x : A) :
  forallb P l = true -> P x = true -> forallb P (<[i := x]> l) = true.
Proof.
  revert i. induction l as [|y l IH]; intros i Hl Hx; [exact Hl|].
  cbn in Hl. apply andb_true_iff in Hl as [Hy Hl].
  destruct i as [|i]; cbn; apply andb_true_iff; split; auto.
Qed.

Lemma forallb_lookup {A} (P : A -> bool) (l : list A) (i : nat) (x : A) :
  forallb P l = true -> l !! i = Some x -> P x = true.
Proof.
  intros Hl Hx. rewrite forallb_forall in Hl. apply Hl.
  apply list_elem_of_In. eapply list_elem_of_lookup_2, Hx.
Qed.

(** The weights of the symbols in use do not change. *)
Lemma generate_tick_weights (clk : ClockReads) (g : Generator) :
  Spec.weights (snd (Gen.generate_tick clk g)) = Spec.weights g.
Proof.
  rewrite generate_tick_snd. unfold Spec.weights, Gen.active_symbols, Obs.final.
  cbn [symbols_ num_symbols_].
  set (sel := Obs.selected_symbol g). set (n := Z.to_nat (num_symbols_ g)).
  destruct (symbols_ g !! sel) as [s|] eqn:Hs.
  - unfold Obs.symbol. fold sel. rewrite (list_lookup_total_correct _ _ _ Hs).
    change (map tick_multiplier ?l) with (tick_multiplier <$> l).
    rewrite !fmap_take, list_fmap_insert. cbn [commit_price tick_multiplier].
    rewrite list_insert_id; [reflexivity|].
    now rewrite list_lookup_fmap, Hs.
  - rewrite list_insert_ge; [reflexivity|]. now apply lookup_ge_None.
Qed.

(** generate_tick keeps the registry well typed and its floats binary32. *)
Lemma generate_tick_preserves (clk : ClockReads) (g : Generator) :
  Spec.well_typed g = true -> valid_floats g = true -> 1 <= num_symbols_ g ->
  let g' := snd (Gen.generate_tick clk g) in
  Spec.well_typed g' = true /\ valid_floats g' = true /\
  num_symbols_ g' = num_symbols_ g /\ num_venues_ g' = num_venues_ g.
Proof.
  intros Hwt Hvf Hn. cbv zeta. rewrite generate_tick_snd.
  pose proof (new_price_valid g Hwt Hvf Hn) as Hnp.
  destruct (selected_symbol_in_use g Hwt Hn) as [Hsel _].
  destruct (lookup_lt_is_Some_2 _ _ Hsel) as [s Hs].
  assert (Hsym : Obs.symbol g = s).
  { unfold Obs.symbol. now apply list_lookup_total_correct. }
  unfold Obs.final. split; [|split; [|split; reflexivity]].
  - revert Hwt. unfold Spec.well_typed.
    cbn [symbols_ venues_ num_symbols_ num_venues_ rng_state_ target_tick_interval_ns_].
    rewrite !andb_true_iff. intros H.
    destruct H as [[[[[[[[[[H1 H2] H3] H4] H5] H6] H7] H8] H9] H10] H11].
    pose proof (rng_range (rng_state_ g) 7 ltac:(lia)) as Hr.
    repeat split; trivial.
    + now rewrite length_insert.
    + apply forallb_insert; [exact H7|]. rewrite Hsym. cbn [commit_price tick_multiplier].
      exact (forallb_lookup _ _ _ _ H7 Hs).
    + unfold Obs.draw. lia.
    + unfold Obs.draw. lia.
  - unfold valid_floats in *. cbn [symbols_].
    apply forallb_insert; [exact Hvf|]. rewrite Hsym.
    cbn [commit_price current_price volatility price_trend].
    pose proof (forallb_lookup _ _ _ _ Hvf Hs) as Hv. cbn beta in Hv.
    rewrite !andb_true_iff in Hv. rewrite Hnp. rewrite !andb_true_iff. tauto.
Qed.


(** *** The constructor and initialize_symbols *)

Lemma init_symbol_run (i : nat) (nm : string) (g : Generator) :
  snd (Gen.init_symbol i nm g) =
  mkGenerator (<[i := initial_symbol (rng_state_ g) i nm]> (symbols_ g)) (venues_ g)
    (Obs.rng (rng_state_ g) 3) (total_ticks_generated_ g) (generation_time_ns_ g)
    (num_symbols_ g) (num_venues_ g) (target_tick_interval_ns_ g).
Proof.
  destruct g as [syms vens x nt gt ns nv iv].
  unfold initial_symbol. unfold_obs. unfold Gen.init_symbol. run_monad.
  reflexivity.
Qed.

Lemma base_price_valid (i : nat) :
  F32.valid (default (F32.of_Z 100) (Gen.BASE_PRICES !! i)) = true.
Proof.
  assert (H : forallb F32.valid Gen.BASE_PRICES = true) by (vm_compute; reflexivity).
  destruct (Gen.BASE_PRICES !! i) as [p|] eqn:Hp; cbn [default from_option Datatypes.id].
  - exact (forallb_lookup _ _ _ _ H Hp).
  - vm_compute; reflexivity.
Qed.

Lemma tick_multiplier_table (i : nat) :
  1 <= default 3 (Gen.TICK_MULTIPLIERS !! i) <= 8.
Proof.
  assert (H : forallb (fun w => (1 <=? w) && (w <=? 8)) Gen.TICK_MULTIPLIERS = true)
    by (vm_compute; reflexivity).
  destruct (Gen.TICK_MULTIPLIERS !! i) as [w|] eqn:Hw; cbn [default from_option Datatypes.id].
  - pose proof (forallb_lookup _ _ _ _ H Hw) as Hb. cbn beta in Hb. lia.
  - lia.
Qed.

Lemma initial_symbol_initialized (x : Z) (i : nat) (nm : string) :
  initialized i (initial_symbol x i nm).
Proof.
  unfold initialized, initial_symbol.
  cbn [tick_multiplier current_price volatility price_trend].
  split; [reflexivity|]. split; [apply base_price_valid|].
  split; apply uniform_float_valid; vm_compute; reflexivity.
Qed.

Lemma init_symbols_loop_spec (names : list string) (i : nat) (g : Generator) :
  let g' := snd (Gen.init_symbols_loop i names g) in
  length (symbols_ g') = length (symbols_ g) /\
  venues_ g' = venues_ g /\
  num_symbols_ g' = num_symbols_ g /\ num_venues_ g' = num_venues_ g /\
  target_tick_interval_ns_ g' = target_tick_interval_ns_ g /\
  (0 <= rng_state_ g < 2 ^ 64 -> 0 <= rng_state_ g' < 2 ^ 64) /\
  forall (j : nat) (s : SymbolState), symbols_ g' !! j = Some s ->
    (symbols_ g !! j = Some s /\ ~ (i <= j < i + length names)%nat) \/
    ((i <= j < i + length names)%nat /\ initialized j s).
Proof.
  revert i g. induction names as [|nm rest IH]; intros i g; cbv zeta.
  - cbn [Gen.init_symbols_loop length]. unfold ret. cbn [snd].
    do 6 (split; [trivial|]). intros j s Hs. left. split; [exact Hs|lia].
  - cbn [Gen.init_symbols_loop length]. unfold bind.
    destruct (Gen.init_symbol i nm g) as [u g1] eqn:Hrun.
    assert (Hg1 : g1 = snd (Gen.init_symbol i nm g)) by now rewrite Hrun.
    rewrite init_symbol_run in Hg1.
    destruct (IH (S i) g1) as (Hlen & Hven & Hns & Hnv & Hiv & Hrng & Hsym). clear IH.
    set (g' := snd (Gen.init_symbols_loop (S i) rest g1)) in *. clearbody g'.
    clear Hrun. subst g1.
    cbn [symbols_ venues_ num_symbols_ num_venues_ target_tick_interval_ns_ rng_state_]
      in Hlen, Hven, Hns, Hnv, Hiv, Hrng, Hsym.
    rewrite length_insert in Hlen.
    split; [exact Hlen|]. split; [exact Hven|]. split; [exact Hns|].
    split; [exact Hnv|]. split; [exact Hiv|].
    split; [intros Hx; apply Hrng, (rng_range _ 3 Hx)|].
    intros j s Hs. destruct (Hsym j s Hs) as [[Hold Hout]|[Hin Hinit]].
    + destruct (Nat.eq_dec i j) as [<-|Hne].
      * right. split; [lia|].
        assert (Hi : (i < length (symbols_ g))%nat).
        { apply lookup_lt_Some in Hold. now rewrite length_insert in Hold. }
        rewrite list_lookup_insert_eq in Hold by exact Hi. injection Hold as <-.
        apply initial_symbol_initialized.
      * left. rewrite list_lookup_insert_ne in Hold by exact Hne.
        split; [exact Hold|lia].
    + right. split; [lia|exact Hinit].
Qed.

Lemma init_venues_loop_length (vs : list VenueInfo) (i : nat) (arr : list VenueInfo) :
  length (Gen.init_venues_loop i vs arr) = length arr.
Proof.
  revert i arr. induction vs as [|v vs IH]; intros i arr; cbn [Gen.init_venues_loop].
  - reflexivity.
  - now rewrite IH, length_insert.
Qed.

Lemma initialize_symbols_run (names : list string) (venues : list VenueInfo)
    (g : Generator) :
  let ns := Z.min (Z.of_nat (length names)) MAX_SYMBOLS in
  let nv := Z.min (Z.of_nat (length venues)) MAX_VENUES in
  let g1 := snd (Gen.init_symbols_loop 0 (take (Z.to_nat ns) names)
                   (Gen.set_counts g ns nv)) in
  snd (Gen.initialize_symbols names venues g) =
  Gen.set_venues g1 (Gen.init_venues_loop 0 (take (Z.to_nat nv) venues) (venues_ g1)).
Proof.
  cbv zeta. unfold Gen.initialize_symbols, bind, modify. cbv zeta.
  destruct (Gen.init_symbols_loop _ _ _) as [u g1]. reflexivity.
Qed.

(** From any well-typed state with binary32 floats, initialize_symbols
    leaves a well-typed registry whose symbols in use all have a weight
    between 1 and 8. *)
Lemma initialize_symbols_spec (names : list string) (venues : list VenueInfo)
    (g : Generator) :
  Spec.well_typed g = true -> valid_floats g = true ->
  let g' := snd (Gen.initialize_symbols names venues g) in
  Spec.well_typed g' = true /\ valid_floats g' = true /\
  num_symbols_ g' = Z.min (Z.of_nat (length names)) MAX_SYMBOLS /\
  num_venues_ g' = Z.min (Z.of_nat (length venues)) MAX_VENUES /\
  Forall (fun w => 1 <= w <= 8) (Spec.weights g').
Proof.
  intros Hwt Hvf. cbv zeta. rewrite initialize_symbols_run. cbv zeta.
  set (ns := Z.min (Z.of_nat (length names)) MAX_SYMBOLS).
  set (nv := Z.min (Z.of_nat (length venues)) MAX_VENUES).
  assert (Hnsr : 0 <= ns <= MAX_SYMBOLS) by (unfold ns, MAX_SYMBOLS; lia).
  assert (Hnvr : 0 <= nv <= MAX_VENUES) by (unfold nv, MAX_VENUES; lia).
  pose proof (init_symbols_loop_spec (take (Z.to_nat ns) names) 0
                (Gen.set_counts g ns nv)) as Hloop.
  cbv zeta in Hloop.
  set (g1 := snd (Gen.init_symbols_loop 0 _ _)) in *. clearbody g1.
  destruct Hloop as (Hlen & Hven & Hns & Hnv & Hiv & Hrng & Hsym).
  cbn [Gen.set_counts symbols_ venues_ num_symbols_ num_venues_
       target_tick_interval_ns_ rng_state_] in Hlen, Hven, Hns, Hnv, Hiv, Hrng, Hsym.
  assert (Htake : length (take (Z.to_nat ns) names) = Z.to_nat ns).
  { rewrite length_take. unfold ns. lia. }
  rewrite Htake in Hsym.
  revert Hwt. unfold Spec.well_typed. rewrite !andb_true_iff. intros H.
  destruct H as [[[[[[[[[[H1 H2] H3] H4] H5] H6] H7] H8] H9] H10] H11].
  apply Nat.eqb_eq in H1, H2.
  unfold Gen.set_venues.
  cbn [symbols_ venues_ num_symbols_ num_venues_ target_tick_interval_ns_ rng_state_].
  rewrite Hns, Hnv, Hiv, init_venues_loop_length, Hven, Hlen, H1, H2, !Nat.eqb_refl.
  specialize (Hrng ltac:(lia)).
  split; [|split; [|split; [reflexivity|split; [reflexivity|]]]].
  - repeat split; trivial; try lia.
    apply forallb_forall. intros s Hs.
    apply list_elem_of_In, list_elem_of_lookup_1 in Hs as [j Hj].
    destruct (Hsym j s Hj) as [[Hold _]|[_ (Hm & _)]].
    + exact (forallb_lookup _ _ _ _ H7 Hold).
    + rewrite Hm. pose proof (tick_multiplier_table j). lia.
  - unfold valid_floats in *.
    cbn [symbols_].
    apply forallb_forall. intros s Hs.
    apply list_elem_of_In, list_elem_of_lookup_1 in Hs as [j Hj].
    destruct (Hsym j s Hj) as [[Hold _]|[_ (_ & Hc & Hv & Ht)]].
    + exact (forallb_lookup _ _ _ _ Hvf Hold).
    + now rewrite Hc, Hv, Ht.
  - unfold Spec.weights, Gen.active_symbols.
    cbn [symbols_ num_symbols_].
    apply Forall_forall. intros w Hw.
    apply list_elem_of_In, in_map_iff in Hw. destruct Hw as (s & <- & Hs).
    apply list_elem_of_In, elem_of_take in Hs. destruct Hs as (j & Hj & Hlt).
    destruct (Hsym j s Hj) as [[_ Hout]|[_ (Hm & _)]]; [lia|].
    rewrite Hm. apply tick_multiplier_table.
Qed.

Lemma Zsum_bounds (lo hi : Z) (l : list Z) :
  Forall (fun w => lo <= w <= hi) l ->
  lo * Z.of_nat (length l) <= Spec.Zsum l <= hi * Z.of_nat (length l).
Proof.
  unfold Spec.Zsum. induction 1 as [|w l Hw _ IH]; cbn [foldr length]; [lia|].
  rewrite Nat2Z.inj_succ. lia.
Qed.

Lemma weights_length (g : Generator) :
  Spec.well_typed g = true ->
  length (Spec.weights g) = Z.to_nat (num_symbols_ g).
Proof.
  intros Hwt. destruct (well_typed_capacity g Hwt) as (Hlen & Hns & _).
  unfold Spec.weights, Gen.active_symbols. rewrite length_map, length_take.
  unfold MAX_SYMBOLS in *. lia.
Qed.

(** The constructor: for every seed and every requested frequency the
    registry is well typed, its floats are binary32 values, 27 symbols and
    5 venues are in use and the total weight is between 27 and 216. *)
Lemma construct_spec (seed tps : Z) :
  let g := Gen.construct seed tps in
  Spec.well_typed g = true /\ valid_floats g = true /\
  num_symbols_ g = 27 /\ num_venues_ g = 5 /\
  27 <= Spec.Zsum (Spec.weights g) <= 216.
Proof.
  cbv zeta. unfold Gen.construct, bind, Gen.set_target_frequency, modify. cbv zeta.
  set (g0 := Gen.set_interval _ _).
  assert (Hiv : 0 <= target_tick_interval_ns_ g0 <= 1000000000).
  { unfold g0. cbn [Gen.set_interval target_tick_interval_ns_].
    destruct (0 <? tps) eqn:Ht; [|lia].
    apply Z.ltb_lt in Ht. split.
    - apply Z.div_pos; lia.
    - apply Z.div_le_upper_bound; nia. }
  assert (Hwt0 : Spec.well_typed g0 = true).
  { unfold Spec.well_typed.
    pose proof (wrap64_range seed) as Hs.
    unfold g0 at 1 2 3 4 5 6 7 8 9.
    cbn [Gen.set_interval symbols_ venues_ num_symbols_ num_venues_ rng_state_].
    rewrite !andb_true_iff. repeat split; try lia; try (vm_compute; reflexivity). }
  assert (Hvf0 : valid_floats g0 = true) by (vm_compute; reflexivity).
  destruct (initialize_symbols_spec Gen.DEFAULT_SYMBOLS Gen.DEFAULT_VENUES g0 Hwt0 Hvf0)
    as (Hwt & Hvf & Hns & Hnv & Hw).
  change (Z.min (Z.of_nat (length Gen.DEFAULT_SYMBOLS)) MAX_SYMBOLS) with 27 in Hns.
  change (Z.min (Z.of_nat (length Gen.DEFAULT_VENUES)) MAX_VENUES) with 5 in Hnv.
  split; [exact Hwt|]. split; [exact Hvf|]. split; [exact Hns|]. split; [exact Hnv|].
  pose proof (Zsum_bounds 1 8 _ Hw) as Hb.
  rewrite (weights_length _ Hwt), Hns in Hb. lia.
Qed.

End Invariant.

(** * Further properties

    ** The pseudo-random core *)

Module Xorshift.

Lemma testbit_above (x i : Z) : 0 <= x < 2 ^ 64 -> 64 <= i -> Z.testbit x i = false.
Proof.
  intros Hx Hi. rewrite <- (Z.mod_small x (2 ^ 64)) by lia.
  apply Z.mod_pow2_bits_high. lia.
Qed.

(** Bit [i] of [x ^ (x << k)] on 64 bits. *)
Lemma left_step_bit (x k i : Z) :
  0 <= k -> 0 <= i < 64 ->
  Z.testbit (Z.lxor x (UInt.wrap64 (Z.shiftl x k))) i
  = xorb (Z.testbit x i) (Z.testbit x (i - k)).
Proof.
  intros Hk Hi. rewrite Z.lxor_spec. unfold UInt.wrap64.
  rewrite Z.mod_pow2_bits_low by lia. now rewrite Z.shiftl_spec by lia.
Qed.

Lemma right_step_bit (x k i : Z) :
  0 <= i ->
  Z.testbit (Z.lxor x (Z.shiftr x k)) i = xorb (Z.testbit x i) (Z.testbit x (i + k)).
Proof. intros Hi. now rewrite Z.lxor_spec, Z.shiftr_spec by lia. Qed.

Lemma left_step_injective (k x y : Z) :
  0 < k -> 0 <= x < 2 ^ 64 -> 0 <= y < 2 ^ 64 ->
  Z.lxor x (UInt.wrap64 (Z.shiftl x k)) = Z.lxor y (UInt.wrap64 (Z.shiftl y k)) ->
  x = y.
Proof.
  intros Hk Hx Hy Heq.
  assert (H : forall (n : nat) (i : Z), 0 <= i < Z.of_nat n ->
                Z.testbit x i = Z.testbit y i).
  { induction n as [|n IH]; intros i Hi; [lia|].
    destruct (Z_lt_le_dec i 64) as [Hlt|Hge].
    - pose proof (f_equal (fun z => Z.testbit z i) Heq) as Hb. cbv beta in Hb.
      rewrite !left_step_bit in Hb by lia.
      assert (Hprev : Z.testbit x (i - k) = Z.testbit y (i - k)).
      { destruct (Z_lt_le_dec (i - k) 0) as [Hneg|Hpos].
        - now rewrite !Z.testbit_neg_r by lia.
        - apply IH. lia. }
      rewrite Hprev in Hb.
      destruct (Z.testbit x i), (Z.testbit y i), (Z.testbit y (i - k));
        cbn in Hb; congruence.
    - now rewrite !testbit_above by lia. }
  apply Z.bits_inj'. intros i Hi. apply (H (S (Z.to_nat i))). lia.
Qed.

Lemma right_step_injective (k x y : Z) :
  0 < k -> 0 <= x < 2 ^ 64 -> 0 <= y < 2 ^ 64 ->
  Z.lxor x (Z.shiftr x k) = Z.lxor y (Z.shiftr y k) -> x = y.
Proof.
  intros Hk Hx Hy Heq.
  assert (H : forall (n : nat) (i : Z), 0 <= i -> 64 <= i + Z.of_nat n ->
                Z.testbit x i = Z.testbit y i).
  { induction n as [|n IH]; intros i Hi Hn.
    - now rewrite !testbit_above by lia.
    - pose proof (f_equal (fun z => Z.testbit z i) Heq) as Hb. cbv beta in Hb.
      rewrite !right_step_bit in Hb by lia.
      assert (Hnext : Z.testbit x (i + k) = Z.testbit y (i + k)) by (apply IH; lia).
      rewrite Hnext in Hb.
      destruct (Z.testbit x i), (Z.testbit y i), (Z.testbit y (i + k));
        cbn in Hb; congruence. }
  apply Z.bits_inj'. intros i Hi. apply (H 64%nat); lia.
Qed.

Lemma shiftr_range (z : Z) : 0 <= z < 2 ^ 64 -> 0 <= Z.shiftr z 7 < 2 ^ 64.
Proof.
  intros Hz. rewrite Z.shiftr_div_pow2 by lia. split.
  - apply Z.div_pos; lia.
  - apply Z.le_lt_trans with z; [|lia]. apply Z.div_le_upper_bound; lia.
Qed.

Lemma step_injective (x y : Z) :
  0 <= x < 2 ^ 64 -> 0 <= y < 2 ^ 64 ->
  Gen.xorshift64_step x = Gen.xorshift64_step y -> x = y.
Proof.
  intros Hx Hy. unfold Gen.xorshift64_step. cbv zeta. intros Heq.
  assert (Hx1 : 0 <= Z.lxor x (UInt.wrap64 (Z.shiftl x 13)) < 2 ^ 64).
  { apply Invariant.lxor_range; [exact Hx|apply wrap64_range]. }
  assert (Hy1 : 0 <= Z.lxor y (UInt.wrap64 (Z.shiftl y 13)) < 2 ^ 64).
  { apply Invariant.lxor_range; [exact Hy|apply wrap64_range]. }
  set (x1 := Z.lxor x _) in *. set (y1 := Z.lxor y _) in *.
  assert (Hx2 : 0 <= Z.lxor x1 (Z.shiftr x1 7) < 2 ^ 64).
  { apply Invariant.lxor_range; [exact Hx1|now apply shiftr_range]. }
  assert (Hy2 : 0 <= Z.lxor y1 (Z.shiftr y1 7) < 2 ^ 64).
  { apply Invariant.lxor_range; [exact Hy1|now apply shiftr_range]. }
  apply left_step_injective in Heq; [|lia|exact Hx2|exact Hy2].
  apply right_step_injective in Heq; [|lia|exact Hx1|exact Hy1].
  subst x1 y1. apply left_step_injective in Heq; [exact Heq|lia|exact Hx|exact Hy].
Qed.

Lemma step_zero : Gen.xorshift64_step 0 = 0.
Proof. reflexivity. Qed.

Lemma step_nonzero (x : Z) : 0 < x < 2 ^ 64 -> 0 < Gen.xorshift64_step x < 2 ^ 64.
Proof.
  intros Hx. pose proof (Invariant.xorshift64_step_range x ltac:(lia)) as Hr.
  destruct (Z.eq_dec (Gen.xorshift64_step x) 0) as [Hz|Hnz]; [|lia].
  rewrite <- step_zero in Hz. apply step_injective in Hz; lia.
Qed.

Lemma rng_nonzero (x : Z) (k : nat) : 0 < x < 2 ^ 64 -> 0 < Obs.rng x k < 2 ^ 64.
Proof.
  intros Hx. induction k as [|k IH]; cbn [Obs.rng]; [exact Hx|].
  now apply step_nonzero.
Qed.

Lemma rng_zero (k : nat) : Obs.rng 0 k = 0.
Proof. induction k as [|k IH]; cbn [Obs.rng]; [reflexivity|]. now rewrite IH. Qed.

Lemma rng_add (x : Z) (a b : nat) : Obs.rng (Obs.rng x a) b = Obs.rng x (a + b).
Proof.
  induction b as [|b IH]; cbn [Obs.rng].
  - now rewrite Nat.add_0_r.
  - rewrite IH. now rewrite Nat.add_succ_r.
Qed.

End Xorshift.

(** X1. xorshift64 is a permutation of the 64-bit states that fixes zero:
    the draw is the new state, it is zero only from the zero state, and two
    generators that draw the same value were in the same state. *)
Theorem xorshift64_injective (g h : Generator) :
  0 <= rng_state_ g < 2 ^ 64 -> 0 <= rng_state_ h < 2 ^ 64 ->
  let r := fst (Gen.xorshift64 g) in
  rng_state_ (snd (Gen.xorshift64 g)) = r /\
  0 <= r < 2 ^ 64 /\
  (r = 0 <-> rng_state_ g = 0) /\
  (fst (Gen.xorshift64 h) = r -> rng_state_ h = rng_state_ g).
Proof.
  intros Hg Hh. cbv zeta. unfold Gen.xorshift64.
  cbn [fst snd Gen.set_rng_state rng_state_].
  split; [reflexivity|]. split; [now apply Invariant.xorshift64_step_range|].
  split.
  - split.
    + intros Hz. destruct (Z.eq_dec (rng_state_ g) 0) as [|Hne]; [assumption|].
      pose proof (Xorshift.step_nonzero (rng_state_ g) ltac:(lia)). lia.
    + intros ->. apply Xorshift.step_zero.
  - intros Heq. now apply Xorshift.step_injective.
Qed.

Lemma xorshift64_injective_witness :
  let r := fst (Gen.xorshift64 sample_generator) in
  rng_state_ (snd (Gen.xorshift64 sample_generator)) = r /\
  0 <= r < 2 ^ 64 /\
  (r = 0 <-> rng_state_ sample_generator = 0) /\
  (fst (Gen.xorshift64 sample_generator) = r ->
   rng_state_ sample_generator = rng_state_ sample_generator).
Proof.
  apply (xorshift64_injective sample_generator sample_generator);
    vm_compute; split; congruence.
Defined.

(** X2. fast_random_uint32(min, max) with [min <= max] and a range that does
    not cover all of [uint32_t] returns a value in [min, max]; it advances
    the generator state by one xorshift64 step and changes nothing else. *)
Theorem fast_random_uint32_in_range (min max : Z) (g : Generator) :
  0 <= min <= max -> max < 2 ^ 32 -> max - min < 2 ^ 32 - 1 ->
  let r := fst (Gen.fast_random_uint32 min max g) in
  let g' := snd (Gen.fast_random_uint32 min max g) in
  min <= r <= max /\
  (min = max -> r = min) /\
  g' = Gen.set_rng_state g (Gen.xorshift64_step (rng_state_ g)).
Proof.
  intros Hmin Hmax Hspan. cbv zeta.
  unfold Gen.fast_random_uint32, Gen.xorshift64, bind, ret. cbn [fst snd].
  rewrite (wrap32_small (max - min + 1)) by lia.
  pose proof (Z.mod_pos_bound (Gen.xorshift64_step (rng_state_ g)) (max - min + 1)
                ltac:(lia)) as Hm.
  rewrite wrap64_small by lia. rewrite wrap32_small by lia.
  split; [lia|]. split; [lia|reflexivity].
Qed.

Lemma fast_random_uint32_in_range_witness :
  let r := fst (Gen.fast_random_uint32 100 10000 sample_generator) in
  let g' := snd (Gen.fast_random_uint32 100 10000 sample_generator) in
  100 <= r <= 10000 /\
  (100 = 10000 -> r = 100) /\
  g' = Gen.set_rng_state sample_generator
         (Gen.xorshift64_step (rng_state_ sample_generator)).
Proof. apply (fast_random_uint32_in_range 100 10000 sample_generator); lia. Defined.

(** ** More about generate_tick *)

Lemma uniform_u32_range (r min max : Z) :
  0 <= min <= max -> max < 2 ^ 32 -> max - min < 2 ^ 32 - 1 ->
  min <= Obs.uniform_u32 r min max <= max.
Proof.
  intros Hmin Hmax Hspan. unfold Obs.uniform_u32.
  rewrite (wrap32_small (max - min + 1)) by lia.
  pose proof (Z.mod_pos_bound r (max - min + 1) ltac:(lia)) as Hm.
  rewrite wrap64_small by lia. rewrite wrap32_small by lia. lia.
Qed.

Lemma rng_iter (x : Z) (k : nat) : Obs.rng x k = Nat.iter k Gen.xorshift64_step x.
Proof.
  induction k as [|k IH]; [reflexivity|].
  cbn [Obs.rng]. rewrite IH. symmetry. apply Nat.iter_succ.
Qed.

(** X3. One call of generate_tick makes exactly seven draws: the generator
    state after the call is the seventh xorshift64 iterate of the state
    before, it stays a 64-bit value, and it is zero only if it was zero
    before the call. *)
Theorem generate_tick_rng_state (clk : ClockReads) (g : Generator) :
  0 <= rng_state_ g < 2 ^ 64 ->
  let g' := snd (Gen.generate_tick clk g) in
  rng_state_ g' = Nat.iter 7 Gen.xorshift64_step (rng_state_ g) /\
  0 <= rng_state_ g' < 2 ^ 64 /\
  (rng_state_ g' = 0 <-> rng_state_ g = 0).
Proof.
  intros Hx. cbv zeta. rewrite generate_tick_snd. unfold Obs.final, Obs.draw.
  cbn [rng_state_].
  split; [apply rng_iter|]. split; [now apply Invariant.rng_range|].
  split.
  - intros Hz. destruct (Z.eq_dec (rng_state_ g) 0) as [|Hne]; [assumption|].
    pose proof (Xorshift.rng_nonzero (rng_state_ g) 7 ltac:(lia)). lia.
  - intros ->. apply Xorshift.rng_zero.
Qed.

Lemma generate_tick_rng_state_witness :
  let g' := snd (Gen.generate_tick sample_clock sample_generator) in
  rng_state_ g' = Nat.iter 7 Gen.xorshift64_step (rng_state_ sample_generator) /\
  0 <= rng_state_ g' < 2 ^ 64 /\
  (rng_state_ g' = 0 <-> rng_state_ sample_generator = 0).
Proof.
  apply (generate_tick_rng_state sample_clock sample_generator).
  vm_compute. split; congruence.
Defined.

(** X4. Whatever the state of the generator, the sizes quoted by
    generate_tick are between 100 and 10000 shares on both sides. *)
Theorem generate_tick_sizes (clk : ClockReads) (g : Generator) :
  let t := fst (Gen.generate_tick clk g) in
  100 <= bid_size t <= 10000 /\ 100 <= ask_size t <= 10000.
Proof.
  cbv zeta. rewrite generate_tick_fst. unfold Obs.tick, Obs.bid_size, Obs.ask_size.
  cbn [bid_size ask_size]. split; apply uniform_u32_range; lia.
Qed.

(** X5. The tick names the registry entry it updated: the entry at
    [tick.symbol_id] after the call is the entry before the call with
    [current_price] set to the tick's [last_price] and [last_update_ns] set
    to the tick's [timestamp_ns]. *)
Theorem generate_tick_updates_named_symbol (clk : ClockReads) (g : Generator) :
  Spec.well_typed g = true -> 1 <= num_symbols_ g ->
  let t := fst (Gen.generate_tick clk g) in
  let g' := snd (Gen.generate_tick clk g) in
  let i := Z.to_nat (symbol_id t) in
  symbols_ g' !! i
  = Some (commit_price (symbols_ g !!! i) (last_price t) (timestamp_ns t)) /\
  timestamp_ns t = UInt.wrap64 (t_update clk).
Proof.
  intros Hwt Hn. cbv zeta. rewrite generate_tick_fst, generate_tick_snd.
  destruct (selected_symbol_in_use g Hwt Hn) as [Hsel Hlt].
  destruct (well_typed_capacity g Hwt) as (Hlen & Hns & _). unfold MAX_SYMBOLS in *.
  unfold Obs.tick, Obs.final. cbn [symbol_id last_price timestamp_ns symbols_].
  rewrite wrap32_small by lia. rewrite Nat2Z.id.
  split; [|reflexivity].
  now rewrite list_lookup_insert_eq by exact Hsel.
Qed.

Lemma generate_tick_updates_named_symbol_witness :
  let t := fst (Gen.generate_tick sample_clock sample_generator) in
  let g' := snd (Gen.generate_tick sample_clock sample_generator) in
  let i := Z.to_nat (symbol_id t) in
  symbols_ g' !! i
  = Some (commit_price (symbols_ sample_generator !!! i) (last_price t)
            (timestamp_ns t)) /\
  timestamp_ns t = UInt.wrap64 (t_update sample_clock).
Proof.
  apply (generate_tick_updates_named_symbol sample_clock sample_generator).
  - apply sample_generator_well_typed.
  - vm_compute. congruence.
Defined.
(** ** More about generate_tick_batch *)

Module Batch.

(** The state one iteration of the loop leaves: that of generate_tick, with
    one more draw when the timestamp is recomputed. *)
Lemma step_state (clk : ClockReads) (i : nat) (buf : list MarketTick) (g : Generator) :
  snd (Gen.batch_step clk i buf g)
  = if (0 <? i)%nat
    then Gen.set_rng_state (Obs.final g clk) (Gen.xorshift64_step (Obs.draw g 7))
    else Obs.final g clk.
Proof.
  unfold Gen.batch_step, bind. rewrite generate_tick_run.
  destruct (0 <? i)%nat; [|reflexivity].
  unfold get, Gen.fast_random_uint32, Gen.xorshift64, bind, ret.
  cbn [fst snd Obs.final rng_state_]. reflexivity.
Qed.

(** The buffer one iteration leaves: entry [i] is the generated tick, with
    another timestamp when [i > 0]. *)
Lemma step_buffer (clk : ClockReads) (i : nat) (buf : list MarketTick) (g : Generator) :
  (i < length buf)%nat ->
  exists ts : Z,
    fst (Gen.batch_step clk i buf g) = <[i := set_timestamp_ns (Obs.tick g clk) ts]> buf.
Proof.
  intros Hlt. unfold Gen.batch_step, bind. rewrite generate_tick_run.
  destruct (0 <? i)%nat.
  - unfold get, Gen.fast_random_uint32, Gen.xorshift64, bind, ret. cbn [fst snd].
    eexists.
    rewrite list_lookup_total_insert_eq by exact Hlt.
    rewrite list_insert_insert_eq. reflexivity.
  - exists (timestamp_ns (Obs.tick g clk)). unfold ret. cbn [fst].
    now destruct (Obs.tick g clk).
Qed.

Lemma wrap64_add_l (a b : Z) : UInt.wrap64 (UInt.wrap64 a + b) = UInt.wrap64 (a + b).
Proof. unfold UInt.wrap64. now rewrite Zplus_mod_idemp_l. Qed.

(** The iterations [i], ..., [i + todo - 1] write no other entry. *)
Lemma loop_frame (reads : nat -> ClockReads) (todo : nat) :
  forall (i : nat) (buf : list MarketTick) (g : Generator),
  (i + todo <= length buf)%nat ->
  let out := fst (Gen.batch_loop reads todo i buf g) in
  length out = length buf /\
  (forall k : nat, (k < i \/ i + todo <= k)%nat -> out !! k = buf !! k).
Proof.
  induction todo as [|todo IH]; intros i buf g Hlen; cbv zeta.
  - cbn [Gen.batch_loop]. unfold ret. cbn [fst]. split; trivial.
  - cbn [Gen.batch_loop]. unfold bind.
    destruct (step_buffer (reads i) i buf g ltac:(lia)) as [ts Hbuf].
    destruct (Gen.batch_step (reads i) i buf g) as [buf1 g1]. cbn [fst] in Hbuf.
    assert (Hlen1 : length buf1 = length buf) by (rewrite Hbuf; apply length_insert).
    pose proof (IH (S i) buf1 g1 ltac:(lia)) as Hrest. cbv zeta in Hrest.
    destruct Hrest as [Hlen2 Hframe2]. split; [lia|].
    intros k Hk. rewrite Hframe2 by lia. rewrite Hbuf.
    apply list_lookup_insert_ne. lia.
Qed.

Lemma step_fields (clk : ClockReads) (i : nat) (buf : list MarketTick) (g : Generator) :
  let g1 := snd (Gen.batch_step clk i buf g) in
  total_ticks_generated_ g1 = UInt.wrap64 (total_ticks_generated_ g + 1) /\
  rng_state_ g1 = Obs.rng (rng_state_ g) (if (0 <? i)%nat then 8 else 7) /\
  venues_ g1 = venues_ g /\ num_symbols_ g1 = num_symbols_ g /\
  num_venues_ g1 = num_venues_ g /\
  target_tick_interval_ns_ g1 = target_tick_interval_ns_ g /\
  length (symbols_ g1) = length (symbols_ g).
Proof.
  cbv zeta. rewrite step_state. unfold Obs.final, Obs.draw, Gen.set_rng_state.
  destruct (0 <? i)%nat;
    cbn [total_ticks_generated_ rng_state_ venues_ num_symbols_ num_venues_
         target_tick_interval_ns_ symbols_ Obs.rng];
    rewrite length_insert; repeat split; reflexivity.
Qed.

(** What the iterations [i], ..., [i + todo - 1] do to the tick counter, the
    generator state and the configuration. *)
Lemma loop_counters (reads : nat -> ClockReads) (todo : nat) :
  forall (i : nat) (buf : list MarketTick) (g : Generator),
  0 <= total_ticks_generated_ g < 2 ^ 64 ->
  let g' := snd (Gen.batch_loop reads todo i buf g) in
  total_ticks_generated_ g' = UInt.wrap64 (total_ticks_generated_ g + Z.of_nat todo) /\
  rng_state_ g'
  = Obs.rng (rng_state_ g) (7 * todo + (todo - (if (i =? 0)%nat then 1 else 0))) /\
  venues_ g' = venues_ g /\ num_symbols_ g' = num_symbols_ g /\
  num_venues_ g' = num_venues_ g /\
  target_tick_interval_ns_ g' = target_tick_interval_ns_ g /\
  length (symbols_ g') = length (symbols_ g).
Proof.
  induction todo as [|todo IH]; intros i buf g Htot; cbv zeta.
  - cbn [Gen.batch_loop]. unfold ret. cbn [fst snd].
    rewrite Z.add_0_r, wrap64_small by exact Htot.
    repeat split; trivial.
  - cbn [Gen.batch_loop]. unfold bind.
    pose proof (step_fields (reads i) i buf g) as Hf. cbv zeta in Hf.
    destruct (Gen.batch_step (reads i) i buf g) as [buf1 g1]. cbn [snd] in Hf.
    destruct Hf as (Ht1 & Hr1 & Hv1 & Hns1 & Hnv1 & Hiv1 & Hl1).
    assert (Htot1 : 0 <= total_ticks_generated_ g1 < 2 ^ 64)
      by (rewrite Ht1; apply wrap64_range).
    pose proof (IH (S i) buf1 g1 Htot1) as Hrest. cbv zeta in Hrest.
    destruct Hrest as (Ht2 & Hr2 & Hv2 & Hns2 & Hnv2 & Hiv2 & Hl2).
    split.
    { rewrite Ht2, Ht1, wrap64_add_l. f_equal. lia. }
    split.
    { rewrite Hr2, Hr1, Xorshift.rng_add. f_equal.
      destruct i as [|i]; cbn [Nat.ltb Nat.leb Nat.eqb]; lia. }
    repeat split; congruence.
Qed.

Lemma well_typed_rng (g : Generator) :
  Spec.well_typed g = true -> 0 <= rng_state_ g < 2 ^ 64.
Proof.
  unfold Spec.well_typed. rewrite !andb_true_iff. intros H.
  destruct H as [[[[_ H8] H9] _] _]. lia.
Qed.

Lemma well_typed_final (clk : ClockReads) (g : Generator) :
  Spec.well_typed g = true -> 1 <= num_symbols_ g ->
  Spec.well_typed (Obs.final g clk) = true.
Proof.
  intros Hwt Hn.
  destruct (selected_symbol_in_use g Hwt Hn) as [Hsel _].
  destruct (lookup_lt_is_Some_2 _ _ Hsel) as [s Hs].
  assert (Hsym : Obs.symbol g = s).
  { unfold Obs.symbol. now apply list_lookup_total_correct. }
  revert Hwt. unfold Spec.well_typed, Obs.final.
  cbn [symbols_ venues_ num_symbols_ num_venues_ rng_state_ target_tick_interval_ns_].
  rewrite !andb_true_iff. intros H.
  destruct H as [[[[[[[[[[H1 H2] H3] H4] H5] H6] H7] H8] H9] H10] H11].
  pose proof (Invariant.rng_range (rng_state_ g) 7 ltac:(lia)) as Hr.
  repeat split; trivial.
  - now rewrite length_insert.
  - apply Invariant.forallb_insert; [exact H7|]. rewrite Hsym.
    cbn [commit_price tick_multiplier].
    exact (Invariant.forallb_lookup _ _ _ _ H7 Hs).
  - unfold Obs.draw. lia.
  - unfold Obs.draw. lia.
Qed.

Lemma well_typed_set_rng_state (g : Generator) (x : Z) :
  Spec.well_typed g = true -> 0 <= x < 2 ^ 64 ->
  Spec.well_typed (Gen.set_rng_state g x) = true.
Proof.
  unfold Spec.well_typed, Gen.set_rng_state.
  cbn [symbols_ venues_ num_symbols_ num_venues_ rng_state_ target_tick_interval_ns_].
  rewrite !andb_true_iff. intros H Hx.
  destruct H as [[[[[[[[[[H1 H2] H3] H4] H5] H6] H7] H8] H9] H10] H11].
  repeat split; trivial; lia.
Qed.

Lemma well_typed_step (clk : ClockReads) (i : nat) (buf : list MarketTick)
    (g : Generator) :
  Spec.well_typed g = true -> 1 <= num_symbols_ g ->
  Spec.well_typed (snd (Gen.batch_step clk i buf g)) = true.
Proof.
  intros Hwt Hns. rewrite step_state.
  pose proof (well_typed_final clk g Hwt Hns) as Hwtf.
  destruct (0 <? i)%nat; [|exact Hwtf].
  apply well_typed_set_rng_state; [exact Hwtf|].
  apply Invariant.xorshift64_step_range. unfold Obs.draw.
  apply Invariant.rng_range. now apply well_typed_rng.
Qed.

(** A tick whose identifiers and sizes are within the configuration. *)
Lemma tick_in_range (clk : ClockReads) (g : Generator) (ts : Z) :
  Spec.well_typed g = true -> 1 <= num_symbols_ g -> 1 <= num_venues_ g ->
  let t := set_timestamp_ns (Obs.tick g clk) ts in
  0 <= symbol_id t < num_symbols_ g /\ 0 <= venue_id t < num_venues_ g /\
  100 <= bid_size t <= 10000 /\ 100 <= ask_size t <= 10000.
Proof.
  intros Hwt Hns Hnv. cbv zeta.
  destruct (selected_symbol_in_use g Hwt Hns) as [Hsel Hlt].
  destruct (well_typed_capacity g Hwt) as (Hlen & Hnsr & _). unfold MAX_SYMBOLS in *.
  unfold set_timestamp_ns, Obs.tick.
  cbn [symbol_id venue_id bid_size ask_size].
  rewrite wrap32_small by lia.
  split; [lia|]. split; [now apply venue_idx_range|].
  unfold Obs.bid_size, Obs.ask_size. split; apply uniform_u32_range; lia.
Qed.

Lemma loop_ticks (reads : nat -> ClockReads) (todo : nat) :
  forall (i : nat) (buf : list MarketTick) (g : Generator),
  (i + todo <= length buf)%nat ->
  Spec.well_typed g = true -> 1 <= num_symbols_ g -> 1 <= num_venues_ g ->
  let out := fst (Gen.batch_loop reads todo i buf g) in
  let g' := snd (Gen.batch_loop reads todo i buf g) in
  Spec.well_typed g' = true /\
  forall (k : nat) (t : MarketTick), (i <= k < i + todo)%nat -> out !! k = Some t ->
    0 <= symbol_id t < num_symbols_ g /\ 0 <= venue_id t < num_venues_ g /\
    100 <= bid_size t <= 10000 /\ 100 <= ask_size t <= 10000.
Proof.
  induction todo as [|todo IH]; intros i buf g Hlen Hwt Hns Hnv; cbv zeta.
  - cbn [Gen.batch_loop]. unfold ret. cbn [fst snd]. split; [exact Hwt|]. intros; lia.
  - cbn [Gen.batch_loop]. unfold bind.
    pose proof (well_typed_step (reads i) i buf g Hwt Hns) as Hwt1.
    pose proof (step_fields (reads i) i buf g) as Hf. cbv zeta in Hf.
    destruct (step_buffer (reads i) i buf g ltac:(lia)) as [ts Hbuf].
    destruct (Gen.batch_step (reads i) i buf g) as [buf1 g1].
    cbn [fst] in Hbuf. cbn [snd] in Hwt1, Hf.
    destruct Hf as (_ & _ & _ & Hns1 & Hnv1 & _ & _).
    assert (Hlen1 : length buf1 = length buf) by (rewrite Hbuf; apply length_insert).
    pose proof (IH (S i) buf1 g1 ltac:(lia) Hwt1 ltac:(lia) ltac:(lia)) as Hrest.
    pose proof (loop_frame reads todo (S i) buf1 g1 ltac:(lia)) as Hfr.
    cbv zeta in Hrest, Hfr.
    destruct Hrest as [Hwt2 Hticks]. destruct Hfr as [_ Hframe].
    split; [exact Hwt2|].
    intros k t Hk Hkt. destruct (Nat.eq_dec k i) as [->|Hne].
    + rewrite Hframe in Hkt by lia. rewrite Hbuf in Hkt.
      rewrite list_lookup_insert_eq in Hkt by lia. injection Hkt as <-.
      now apply tick_in_range.
    + rewrite <- Hns1, <- Hnv1. apply (Hticks k); [lia|exact Hkt].
Qed.

End Batch.

(** X6. generate_tick_batch writes the first [count] entries of the buffer
    and no other; it counts [count] ticks, makes eight draws per tick less
    the one the first tick does not need, and leaves the venues, the two
    counts and the target interval as they were.  With [count = 0] the
    buffer comes back unchanged and no number is drawn. *)
Theorem generate_tick_batch_frame (batch_clk : ClockReads)
    (reads : nat -> ClockReads) (buf : list MarketTick) (count : nat)
    (g : Generator) :
  (count <= length buf)%nat ->
  0 <= total_ticks_generated_ g < 2 ^ 64 ->
  let out := fst (Gen.generate_tick_batch batch_clk reads buf count g) in
  let g' := snd (Gen.generate_tick_batch batch_clk reads buf count g) in
  length out = length buf /\
  (forall k : nat, (count <= k)%nat -> out !! k = buf !! k) /\
  total_ticks_generated_ g' = UInt.wrap64 (total_ticks_generated_ g + Z.of_nat count) /\
  rng_state_ g' = Nat.iter (8 * count - 1) Gen.xorshift64_step (rng_state_ g) /\
  venues_ g' = venues_ g /\ num_symbols_ g' = num_symbols_ g /\
  num_venues_ g' = num_venues_ g /\
  target_tick_interval_ns_ g' = target_tick_interval_ns_ g /\
  (count = 0%nat -> out = buf /\ symbols_ g' = symbols_ g).
Proof.
  intros Hlen Htot. cbv zeta. unfold Gen.generate_tick_batch, bind, modify, ret.
  pose proof (Batch.loop_frame reads count 0 buf g ltac:(lia)) as Hfr.
  pose proof (Batch.loop_counters reads count 0 buf g Htot) as Hc.
  cbv zeta in Hfr, Hc.
  assert (H0 : count = 0%nat ->
            Gen.batch_loop reads count 0 buf g = (buf, g)) by (intros ->; reflexivity).
  destruct (Gen.batch_loop reads count 0 buf g) as [out g1].
  cbn [fst snd] in Hfr, Hc |- *.
  destruct Hfr as [Hl Hframe].
  destruct Hc as (Ht & Hr & Hv & Hns & Hnv & Hiv & _).
  unfold Gen.set_perf.
  cbn [total_ticks_generated_ rng_state_ venues_ num_symbols_ num_venues_
       target_tick_interval_ns_ symbols_].
  split; [exact Hl|]. split; [intros k Hk; apply Hframe; lia|].
  split; [exact Ht|]. split.
  { rewrite Hr, rng_iter. f_equal. cbn [Nat.eqb]. lia. }
  do 4 (split; [assumption|]).
  intros Hz. specialize (H0 Hz). injection H0 as -> ->. split; reflexivity.
Qed.

Lemma generate_tick_batch_frame_witness :
  let out := fst (Gen.generate_tick_batch sample_clock (fun _ => sample_clock)
                    (replicate 5 blank_tick) 3 sample_generator) in
  let g' := snd (Gen.generate_tick_batch sample_clock (fun _ => sample_clock)
                   (replicate 5 blank_tick) 3 sample_generator) in
  length out = length (replicate 5 blank_tick) /\
  (forall k : nat, (3 <= k)%nat -> out !! k = replicate 5 blank_tick !! k) /\
  total_ticks_generated_ g'
  = UInt.wrap64 (total_ticks_generated_ sample_generator + Z.of_nat 3) /\
  rng_state_ g'
  = Nat.iter (8 * 3 - 1) Gen.xorshift64_step (rng_state_ sample_generator) /\
  venues_ g' = venues_ sample_generator /\
  num_symbols_ g' = num_symbols_ sample_generator /\
  num_venues_ g' = num_venues_ sample_generator /\
  target_tick_interval_ns_ g' = target_tick_interval_ns_ sample_generator /\
  (3%nat = 0%nat -> out = replicate 5 blank_tick /\
                    symbols_ g' = symbols_ sample_generator).
Proof.
  apply (generate_tick_batch_frame sample_clock (fun _ => sample_clock)
           (replicate 5 blank_tick) 3 sample_generator).
  - cbn. lia.
  - vm_compute. split; congruence.
Defined.

(** X7. Every tick generate_tick_batch writes has its symbol and venue
    identifiers within the configured counts and sizes between 100 and
    10000, and the generator stays well typed. *)
Theorem generate_tick_batch_ticks_in_range (batch_clk : ClockReads)
    (reads : nat -> ClockReads) (buf : list MarketTick) (count : nat)
    (g : Generator) :
  (count <= length buf)%nat ->
  Spec.well_typed g = true -> 1 <= num_symbols_ g -> 1 <= num_venues_ g ->
  let out := fst (Gen.generate_tick_batch batch_clk reads buf count g) in
  let g' := snd (Gen.generate_tick_batch batch_clk reads buf count g) in
  Spec.well_typed g' = true /\
  forall k : nat, (k < count)%nat ->
    exists t : MarketTick,
      out !! k = Some t /\
      0 <= symbol_id t < num_symbols_ g /\ 0 <= venue_id t < num_venues_ g /\
      100 <= bid_size t <= 10000 /\ 100 <= ask_size t <= 10000.
Proof.
  intros Hlen Hwt Hns Hnv. cbv zeta.
  unfold Gen.generate_tick_batch, bind, modify, ret.
  pose proof (Batch.loop_frame reads count 0 buf g ltac:(lia)) as Hfr.
  pose proof (Batch.loop_ticks reads count 0 buf g ltac:(lia) Hwt Hns Hnv) as Hticks.
  cbv zeta in Hfr, Hticks.
  destruct (Gen.batch_loop reads count 0 buf g) as [out g1].
  cbn [fst snd] in Hfr, Hticks |- *.
  destruct Hfr as [Hl _]. destruct Hticks as [Hwt1 Hticks].
  split.
  - revert Hwt1. unfold Spec.well_typed, Gen.set_perf.
    cbn [symbols_ venues_ num_symbols_ num_venues_ rng_state_ target_tick_interval_ns_].
    trivial.
  - intros k Hk. destruct (lookup_lt_is_Some_2 out k ltac:(lia)) as [t Ht].
    exists t. split; [exact Ht|]. apply (Hticks k); [lia|exact Ht].
Qed.

Lemma generate_tick_batch_ticks_in_range_witness :
  let out := fst (Gen.generate_tick_batch sample_clock (fun _ => sample_clock)
                    (replicate 5 blank_tick) 3 sample_generator) in
  let g' := snd (Gen.generate_tick_batch sample_clock (fun _ => sample_clock)
                   (replicate 5 blank_tick) 3 sample_generator) in
  Spec.well_typed g' = true /\
  forall k : nat, (k < 3)%nat ->
    exists t : MarketTick,
      out !! k = Some t /\
      0 <= symbol_id t < num_symbols_ sample_generator /\
      0 <= venue_id t < num_venues_ sample_generator /\
      100 <= bid_size t <= 10000 /\ 100 <= ask_size t <= 10000.
Proof.
  apply (generate_tick_batch_ticks_in_range sample_clock (fun _ => sample_clock)
           (replicate 5 blank_tick) 3 sample_generator).
  - cbn. lia.
  - apply sample_generator_well_typed.
  - vm_compute. congruence.
  - vm_compute. congruence.
Defined.

(** ** The target frequency *)

(** X8. set_target_frequency changes the target interval only, and has
    three regimes: 0 ticks per second gives one millisecond; from 1 to 10^9
    it gives the whole number of nanoseconds per tick, at least 1; above
    10^9 the quotient is 0 and the interval vanishes. *)
Theorem set_target_frequency_regimes (ticks_per_second : Z) (g : Generator) :
  0 <= ticks_per_second < 2 ^ 32 ->
  let g' := snd (Gen.set_target_frequency ticks_per_second g) in
  let iv := target_tick_interval_ns_ g' in
  g' = Gen.set_interval g iv /\
  (ticks_per_second = 0 -> iv = 1000000) /\
  (1 <= ticks_per_second <= 1000000000 ->
     1 <= iv /\
     iv * ticks_per_second <= 1000000000 < (iv + 1) * ticks_per_second) /\
  (1000000000 < ticks_per_second -> iv = 0).
Proof.
  intros Hn. cbv zeta. unfold Gen.set_target_frequency, modify.
  cbn [snd Gen.set_interval target_tick_interval_ns_].
  split; [reflexivity|].
  destruct (Z.ltb_spec 0 ticks_per_second) as [Hpos|Hzero].
  - split; [lia|]. split.
    + intros Hr.
      pose proof (Z.mul_div_le 1000000000 ticks_per_second Hpos).
      pose proof (Z.mul_succ_div_gt 1000000000 ticks_per_second Hpos).
      assert (1 <= 1000000000 / ticks_per_second)
        by (apply Z.div_le_lower_bound; lia).
      lia.
    + intros Hr. apply Z.div_small. lia.
  - split; [reflexivity|]. split; intros; lia.
Qed.

Lemma set_target_frequency_regimes_witness :
  let g' := snd (Gen.set_target_frequency 180000 sample_generator) in
  let iv := target_tick_interval_ns_ g' in
  g' = Gen.set_interval sample_generator iv /\
  (180000 = 0 -> iv = 1000000) /\
  (1 <= 180000 <= 1000000000 ->
     1 <= iv /\ iv * 180000 <= 1000000000 < (iv + 1) * 180000) /\
  (1000000000 < 180000 -> iv = 0).
Proof. apply (set_target_frequency_regimes 180000 sample_generator). lia. Defined.

(** X9. After set_target_frequency with more than 10^9 ticks per second
    the batch loop spaces nothing: every tick of a batch carries the
    timestamp of the first one, the clock reading of the first call. *)
Theorem generate_tick_batch_zero_interval (ticks_per_second : Z)
    (batch_clk : ClockReads) (reads : nat -> ClockReads)
    (buf : list MarketTick) (count : nat) (g : Generator) :
  1000000000 < ticks_per_second < 2 ^ 32 ->
  (count <= length buf)%nat ->
  let g1 := snd (Gen.set_target_frequency ticks_per_second g) in
  let out := fst (Gen.generate_tick_batch batch_clk reads buf count g1) in
  target_tick_interval_ns_ g1 = 0 /\
  forall k : nat, (k < count)%nat ->
    timestamp_ns (out !!! k) = UInt.wrap64 (t_update (reads 0%nat)).
Proof.
  intros Htps Hlen. cbv zeta.
  set (g1 := snd (Gen.set_target_frequency ticks_per_second g)).
  assert (Hiv : target_tick_interval_ns_ g1 = 0).
  { unfold g1, Gen.set_target_frequency, modify.
    cbn [snd Gen.set_interval target_tick_interval_ns_].
    destruct (Z.ltb_spec 0 ticks_per_second); [|lia]. apply Z.div_small. lia. }
  split; [exact Hiv|].
  unfold Gen.generate_tick_batch, bind, modify, ret.
  pose proof (batch_loop_spec reads count 0 buf g1 ltac:(lia)) as Hloop.
  rewrite Hiv in Hloop. specialize (Hloop ltac:(change (0 / 10) with 0; lia) ltac:(lia)).
  cbv zeta in Hloop.
  destruct (Gen.batch_loop reads count 0 buf g1) as [out g2]. cbn [fst snd] in *.
  destruct Hloop as (_ & _ & _ & Hfirst & Hnext).
  intros k. induction k as [|k IH]; intros Hk.
  - apply Hfirst; [reflexivity|lia].
  - destruct (Hnext (S k) ltac:(lia) ltac:(lia)) as (jitter & Hj & Hts).
    change (0 / 10) with 0 in Hj. assert (jitter = 0) as -> by lia.
    rewrite Hts. replace (S k - 1)%nat with k by lia. rewrite IH by lia.
    rewrite Z.add_0_r. cbn [Z.add]. unfold UInt.wrap64. apply Z.mod_mod. lia.
Qed.

Lemma generate_tick_batch_zero_interval_witness :
  let g1 := snd (Gen.set_target_frequency 2000000000 sample_generator) in
  let out := fst (Gen.generate_tick_batch sample_clock (fun _ => sample_clock)
                    (replicate 5 blank_tick) 5 g1) in
  target_tick_interval_ns_ g1 = 0 /\
  forall k : nat, (k < 5)%nat ->
    timestamp_ns (out !!! k) = UInt.wrap64 (t_update sample_clock).
Proof.
  apply (generate_tick_batch_zero_interval 2000000000 sample_clock
           (fun _ => sample_clock) (replicate 5 blank_tick) 5 sample_generator).
  - lia.
  - cbn. lia.
Defined.
(** ** The registry after initialize_symbols *)

Module Init.

(** The symbol loop from index [i] on [names]: entry [i + k] is the one
    written from the [k]-th name with the state three draws per earlier
    name further, and no other entry changes. *)
Lemma symbols_loop (names : list string) :
  forall (i : nat) (g : Generator),
  (i + length names <= length (symbols_ g))%nat ->
  let g' := snd (Gen.init_symbols_loop i names g) in
  (forall (k : nat) (nm : string), names !! k = Some nm ->
     symbols_ g' !! (i + k)%nat
     = Some (initial_symbol (Obs.rng (rng_state_ g) (3 * k)) (i + k) nm)) /\
  (forall j : nat, (j < i \/ i + length names <= j)%nat ->
     symbols_ g' !! j = symbols_ g !! j) /\
  rng_state_ g' = Obs.rng (rng_state_ g) (3 * length names) /\
  venues_ g' = venues_ g /\
  total_ticks_generated_ g' = total_ticks_generated_ g /\
  generation_time_ns_ g' = generation_time_ns_ g /\
  num_symbols_ g' = num_symbols_ g /\ num_venues_ g' = num_venues_ g /\
  target_tick_interval_ns_ g' = target_tick_interval_ns_ g.
Proof.
  induction names as [|nm rest IH]; intros i g Hlen; cbv zeta.
  - cbn [Gen.init_symbols_loop length]. unfold ret. cbn [snd].
    split; [intros k nm' Hk; discriminate|]. repeat split; trivial.
  - cbn [Gen.init_symbols_loop length] in *. unfold bind.
    pose proof (Invariant.init_symbol_run i nm g) as Hrun.
    destruct (Gen.init_symbol i nm g) as [u g1]. cbn [snd] in Hrun.
    assert (Hlen1 : (S i + length rest <= length (symbols_ g1))%nat).
    { rewrite Hrun. cbn [symbols_]. rewrite length_insert. lia. }
    pose proof (IH (S i) g1 Hlen1) as Hrest. cbv zeta in Hrest.
    set (g' := snd (Gen.init_symbols_loop (S i) rest g1)) in *. clearbody g'.
    destruct Hrest as (Hent & Hframe & Hrng & Hv & Ht & Hgt & Hns & Hnv & Hiv).
    assert (E1 : symbols_ g1 = <[i := initial_symbol (rng_state_ g) i nm]> (symbols_ g))
      by (rewrite Hrun; reflexivity).
    assert (E2 : rng_state_ g1 = Obs.rng (rng_state_ g) 3) by (rewrite Hrun; reflexivity).
    assert (E3 : venues_ g1 = venues_ g) by (rewrite Hrun; reflexivity).
    assert (E4 : total_ticks_generated_ g1 = total_ticks_generated_ g)
      by (rewrite Hrun; reflexivity).
    assert (E5 : generation_time_ns_ g1 = generation_time_ns_ g)
      by (rewrite Hrun; reflexivity).
    assert (E6 : num_symbols_ g1 = num_symbols_ g) by (rewrite Hrun; reflexivity).
    assert (E7 : num_venues_ g1 = num_venues_ g) by (rewrite Hrun; reflexivity).
    assert (E8 : target_tick_interval_ns_ g1 = target_tick_interval_ns_ g)
      by (rewrite Hrun; reflexivity).
    clear Hrun.
    split.
    { intros k nm' Hk. destruct k as [|k].
      - cbn [lookup list_lookup] in Hk. injection Hk as <-. rewrite Nat.add_0_r.
        rewrite Hframe by lia. rewrite E1. rewrite list_lookup_insert_eq by lia.
        change (3 * 0)%nat with 0%nat. cbn [Obs.rng]. reflexivity.
      - cbn [lookup list_lookup] in Hk. specialize (Hent k nm' Hk).
        rewrite E2, Xorshift.rng_add in Hent.
        replace (i + S k)%nat with (S i + k)%nat by lia.
        replace (3 * S k)%nat with (3 + 3 * k)%nat by lia. exact Hent. }
    split.
    { intros j Hj. rewrite Hframe by lia. rewrite E1. apply list_lookup_insert_ne. lia. }
    split.
    { rewrite Hrng, E2, Xorshift.rng_add. f_equal. lia. }
    repeat split; congruence.
Qed.

Lemma venues_loop (vs : list VenueInfo) :
  forall (i : nat) (arr : list VenueInfo),
  (i + length vs <= length arr)%nat ->
  let arr' := Gen.init_venues_loop i vs arr in
  length arr' = length arr /\
  (forall k : nat, (k < length vs)%nat -> arr' !! (i + k)%nat = vs !! k) /\
  (forall j : nat, (j < i \/ i + length vs <= j)%nat -> arr' !! j = arr !! j).
Proof.
  induction vs as [|v vs IH]; intros i arr Hlen; cbv zeta.
  - cbn [Gen.init_venues_loop length]. split; [reflexivity|].
    split; [intros; lia|reflexivity].
  - cbn [Gen.init_venues_loop length] in *.
    destruct (IH (S i) (<[i := v]> arr)) as (Hl & Hent & Hframe).
    { rewrite length_insert. lia. }
    rewrite length_insert in Hl. split; [exact Hl|]. split.
    + intros k Hk. destruct k as [|k].
      * rewrite Nat.add_0_r. rewrite Hframe by lia.
        rewrite list_lookup_insert_eq by lia. reflexivity.
      * replace (i + S k)%nat with (S i + k)%nat by lia. cbn [lookup].
        rewrite Hent by lia. reflexivity.
    + intros j Hj. rewrite Hframe by lia. apply list_lookup_insert_ne. lia.
Qed.

Lemma initial_symbol_fields (x : Z) (i : nat) (nm : string) :
  let s := initial_symbol x i nm in
  symbol_name s = nm /\
  current_price s = default (F32.of_Z 100) (Gen.BASE_PRICES !! i) /\
  tick_multiplier s = default 3 (Gen.TICK_MULTIPLIERS !! i) /\
  last_update_ns s = 0 /\ 10000 <= avg_volume s <= 100000.
Proof.
  cbv zeta. unfold initial_symbol.
  cbn [symbol_name current_price tick_multiplier last_update_ns avg_volume].
  repeat split; try reflexivity; apply uniform_u32_range; lia.
Qed.

(** The registry initialize_symbols leaves, entry by entry. *)
Lemma entries (symbol_names : list string)
    (venue_configs : list VenueInfo) (g : Generator) :
  length (symbols_ g) = Z.to_nat MAX_SYMBOLS ->
  length (venues_ g) = Z.to_nat MAX_VENUES ->
  let g' := snd (Gen.initialize_symbols symbol_names venue_configs g) in
  let n := Nat.min (length symbol_names) 64 in
  let m := Nat.min (length venue_configs) 8 in
  num_symbols_ g' = Z.of_nat n /\ num_venues_ g' = Z.of_nat m /\
  (forall (i : nat) (nm : string), (i < n)%nat -> symbol_names !! i = Some nm ->
     exists s : SymbolState,
       symbols_ g' !! i = Some s /\
       symbol_name s = nm /\
       current_price s = default (F32.of_Z 100) (Gen.BASE_PRICES !! i) /\
       tick_multiplier s = default 3 (Gen.TICK_MULTIPLIERS !! i) /\
       last_update_ns s = 0 /\ 10000 <= avg_volume s <= 100000) /\
  (forall i : nat, (n <= i)%nat -> symbols_ g' !! i = symbols_ g !! i) /\
  (forall i : nat, (i < m)%nat -> venues_ g' !! i = venue_configs !! i) /\
  (forall i : nat, (m <= i)%nat -> venues_ g' !! i = venues_ g !! i) /\
  rng_state_ g' = Nat.iter (3 * n) Gen.xorshift64_step (rng_state_ g) /\
  total_ticks_generated_ g' = total_ticks_generated_ g /\
  generation_time_ns_ g' = generation_time_ns_ g /\
  target_tick_interval_ns_ g' = target_tick_interval_ns_ g.
Proof.
  intros Hls Hlv. cbv zeta. rewrite Invariant.initialize_symbols_run. cbv zeta.
  unfold MAX_SYMBOLS, MAX_VENUES in *.
  assert (Hn : Z.to_nat (Z.min (Z.of_nat (length symbol_names)) 64)
               = Nat.min (length symbol_names) 64) by lia.
  assert (Hm : Z.to_nat (Z.min (Z.of_nat (length venue_configs)) 8)
               = Nat.min (length venue_configs) 8) by lia.
  rewrite Hn, Hm.
  set (n := Nat.min (length symbol_names) 64).
  set (m := Nat.min (length venue_configs) 8).
  set (g0 := Gen.set_counts g _ _).
  assert (Hltn : length (take n symbol_names) = n) by (rewrite length_take; lia).
  assert (Hltm : length (take m venue_configs) = m) by (rewrite length_take; lia).
  pose proof (symbols_loop (take n symbol_names) 0 g0) as Hloop.
  rewrite Hltn in Hloop. specialize (Hloop ltac:(cbn [g0 Gen.set_counts symbols_]; lia)).
  cbv zeta in Hloop.
  set (g1 := snd (Gen.init_symbols_loop 0 (take n symbol_names) g0)) in *.
  clearbody g1.
  destruct Hloop as (Hent & Hframe & Hrng & Hv & Ht & Hgt & Hns & Hnv & Hiv).
  cbn [g0 Gen.set_counts symbols_ venues_ rng_state_ total_ticks_generated_
       generation_time_ns_ num_symbols_ num_venues_ target_tick_interval_ns_]
    in Hent, Hframe, Hrng, Hv, Ht, Hgt, Hns, Hnv, Hiv.
  destruct (venues_loop (take m venue_configs) 0 (venues_ g1))
    as (Hvl & Hvent & Hvframe).
  { rewrite Hltm, Hv. lia. }
  rewrite Hltm in Hvent, Hvframe.
  unfold Gen.set_venues.
  cbn [symbols_ venues_ rng_state_ total_ticks_generated_ generation_time_ns_
       num_symbols_ num_venues_ target_tick_interval_ns_].
  split; [lia|]. split; [lia|]. split.
  { intros i nm Hi Hnm.
    assert (Htk : take n symbol_names !! i = Some nm)
      by (rewrite lookup_take_lt by lia; exact Hnm).
    specialize (Hent i nm Htk). cbn [Nat.add] in Hent.
    eexists. split; [exact Hent|]. apply initial_symbol_fields. }
  split; [intros i Hi; apply Hframe; lia|]. split.
  { intros i Hi. specialize (Hvent i Hi). cbn [Nat.add] in Hvent.
    rewrite Hvent. apply lookup_take_lt. lia. }
  split; [intros i Hi; rewrite Hvframe by lia; now rewrite Hv|].
  split; [rewrite Hrng; apply rng_iter|].
  repeat split; assumption.
Qed.

Lemma map_take_eq {A B : Type} (f : A -> B) (l : list A) (ref : list B) (n : nat) :
  length ref = n -> (n <= length l)%nat ->
  (forall (i : nat) (x : B), ref !! i = Some x ->
     exists s : A, l !! i = Some s /\ f s = x) ->
  map f (take n l) = ref.
Proof.
  intros Hr Hl H. apply list_eq. intros i.
  change (map f (take n l)) with (f <$> take n l). rewrite list_lookup_fmap.
  destruct (ref !! i) as [x|] eqn:Hx.
  - destruct (H i x Hx) as (s & Hs & <-).
    apply lookup_lt_Some in Hx. rewrite lookup_take_lt by lia. now rewrite Hs.
  - apply lookup_ge_None in Hx. rewrite lookup_take_ge by lia. reflexivity.
Qed.

End Init.

(** X10. initialize_symbols registers the first 64 names and the first 8
    venues it is given.  Entry [i] of the registry gets the [i]-th name,
    [BASE_PRICES[i]] (100 past the end of that table),
    [TICK_MULTIPLIERS[i]] (3 past the end), a zero update time and an
    average volume between 10000 and 100000; the venues are copied in
    order; the entries past the two counts keep what they held; three
    numbers are drawn per symbol; the counters and the target interval are
    not touched. *)
Theorem initialize_symbols_entries (symbol_names : list string)
    (venue_configs : list VenueInfo) (g : Generator) :
  length (symbols_ g) = Z.to_nat MAX_SYMBOLS ->
  length (venues_ g) = Z.to_nat MAX_VENUES ->
  let g' := snd (Gen.initialize_symbols symbol_names venue_configs g) in
  let n := Nat.min (length symbol_names) 64 in
  let m := Nat.min (length venue_configs) 8 in
  num_symbols_ g' = Z.of_nat n /\ num_venues_ g' = Z.of_nat m /\
  (forall (i : nat) (nm : string), (i < n)%nat -> symbol_names !! i = Some nm ->
     exists s : SymbolState,
       symbols_ g' !! i = Some s /\
       symbol_name s = nm /\
       current_price s = default (F32.of_Z 100) (Gen.BASE_PRICES !! i) /\
       tick_multiplier s = default 3 (Gen.TICK_MULTIPLIERS !! i) /\
       last_update_ns s = 0 /\ 10000 <= avg_volume s <= 100000) /\
  (forall i : nat, (n <= i)%nat -> symbols_ g' !! i = symbols_ g !! i) /\
  (forall i : nat, (i < m)%nat -> venues_ g' !! i = venue_configs !! i) /\
  (forall i : nat, (m <= i)%nat -> venues_ g' !! i = venues_ g !! i) /\
  rng_state_ g' = Nat.iter (3 * n) Gen.xorshift64_step (rng_state_ g) /\
  total_ticks_generated_ g' = total_ticks_generated_ g /\
  generation_time_ns_ g' = generation_time_ns_ g /\
  target_tick_interval_ns_ g' = target_tick_interval_ns_ g.
Proof. exact (Init.entries symbol_names venue_configs g). Qed.

Lemma initialize_symbols_entries_witness :
  let g' := snd (Gen.initialize_symbols ["IBM"; "ORCL"]%string Gen.DEFAULT_VENUES
                   sample_generator) in
  let n := Nat.min (length ["IBM"; "ORCL"]%string) 64 in
  let m := Nat.min (length Gen.DEFAULT_VENUES) 8 in
  num_symbols_ g' = Z.of_nat n /\ num_venues_ g' = Z.of_nat m /\
  (forall (i : nat) (nm : string), (i < n)%nat ->
     ["IBM"; "ORCL"]%string !! i = Some nm ->
     exists s : SymbolState,
       symbols_ g' !! i = Some s /\
       symbol_name s = nm /\
       current_price s = default (F32.of_Z 100) (Gen.BASE_PRICES !! i) /\
       tick_multiplier s = default 3 (Gen.TICK_MULTIPLIERS !! i) /\
       last_update_ns s = 0 /\ 10000 <= avg_volume s <= 100000) /\
  (forall i : nat, (n <= i)%nat -> symbols_ g' !! i = symbols_ sample_generator !! i) /\
  (forall i : nat, (i < m)%nat -> venues_ g' !! i = Gen.DEFAULT_VENUES !! i) /\
  (forall i : nat, (m <= i)%nat -> venues_ g' !! i = venues_ sample_generator !! i) /\
  rng_state_ g'
  = Nat.iter (3 * n) Gen.xorshift64_step (rng_state_ sample_generator) /\
  total_ticks_generated_ g' = total_ticks_generated_ sample_generator /\
  generation_time_ns_ g' = generation_time_ns_ sample_generator /\
  target_tick_interval_ns_ g' = target_tick_interval_ns_ sample_generator.
Proof.
  apply (initialize_symbols_entries ["IBM"; "ORCL"]%string Gen.DEFAULT_VENUES
           sample_generator); vm_compute; reflexivity.
Defined.

(** ** The constructor *)

(** X11. The constructor, for every clock reading taken as seed and every
    requested frequency: the registry is well typed with binary32 floats;
    the 27 default symbols are registered in order with their base prices
    and their weights, 99 in total; the 5 default venues are copied; both
    counters are zero; 81 numbers have been drawn from the seed. *)
Theorem create_tick_generator_registry (seed ticks_per_second : Z) :
  let g := create_tick_generator seed ticks_per_second in
  Spec.well_typed g = true /\ valid_floats g = true /\
  num_symbols_ g = 27 /\ num_venues_ g = 5 /\
  map symbol_name (Gen.active_symbols g) = Gen.DEFAULT_SYMBOLS /\
  map current_price (Gen.active_symbols g) = Gen.BASE_PRICES /\
  Spec.weights g = Gen.TICK_MULTIPLIERS /\
  Spec.Zsum (Spec.weights g) = 99 /\
  take 5 (venues_ g) = Gen.DEFAULT_VENUES /\
  total_ticks_generated_ g = 0 /\ generation_time_ns_ g = 0 /\
  rng_state_ g = Nat.iter 81 Gen.xorshift64_step (UInt.wrap64 seed).
Proof.
  cbv zeta. unfold create_tick_generator.
  destruct (Invariant.construct_spec seed ticks_per_second) as (Hwt & Hvf & Hns & Hnv & _).
  split; [exact Hwt|]. split; [exact Hvf|]. split; [exact Hns|]. split; [exact Hnv|].
  pose proof (well_typed_capacity _ Hwt) as (Hlen & _ & _).
  revert Hlen Hns Hnv. clear Hwt Hvf.
  unfold Spec.weights, Gen.active_symbols.
  unfold Gen.construct, bind, Gen.set_target_frequency, modify. cbv zeta.
  set (g0 := Gen.set_interval _ _).
  pose proof (Init.entries Gen.DEFAULT_SYMBOLS Gen.DEFAULT_VENUES g0
                ltac:(reflexivity) ltac:(reflexivity)) as He.
  cbv zeta in He.
  change (Nat.min (length Gen.DEFAULT_SYMBOLS) 64) with 27%nat in He.
  change (Nat.min (length Gen.DEFAULT_VENUES) 8) with 5%nat in He.
  set (g := snd (Gen.initialize_symbols Gen.DEFAULT_SYMBOLS Gen.DEFAULT_VENUES g0))
    in *.
  clearbody g.
  destruct He as (_ & _ & Hent & _ & Hven & _ & Hrng & Ht & Hgt & _).
  intros Hlen Hns Hnv. rewrite Hns. change (Z.to_nat 27) with 27%nat.
  unfold MAX_SYMBOLS in Hlen.
  assert (Hnames : map symbol_name (take 27 (symbols_ g)) = Gen.DEFAULT_SYMBOLS).
  { apply Init.map_take_eq; [reflexivity|lia|].
    intros i nm Hi. pose proof (lookup_lt_Some _ _ _ Hi) as Hlt.
    change (length Gen.DEFAULT_SYMBOLS) with 27%nat in Hlt.
    destruct (Hent i nm Hlt Hi) as (s & Hs & Hn & _).
    exists s. split; assumption. }
  assert (Hprices : map current_price (take 27 (symbols_ g)) = Gen.BASE_PRICES).
  { apply Init.map_take_eq; [reflexivity|lia|].
    intros i p Hi. pose proof (lookup_lt_Some _ _ _ Hi) as Hlt.
    change (length Gen.BASE_PRICES) with 27%nat in Hlt.
    destruct (lookup_lt_is_Some_2 Gen.DEFAULT_SYMBOLS i) as [nm Hnm];
      [exact Hlt|].
    destruct (Hent i nm Hlt Hnm) as (s & Hs & _ & Hp & _). exists s.
    split; [exact Hs|]. rewrite Hp, Hi. reflexivity. }
  assert (Hweights : map tick_multiplier (take 27 (symbols_ g)) = Gen.TICK_MULTIPLIERS).
  { apply Init.map_take_eq; [reflexivity|lia|].
    intros i w Hi. pose proof (lookup_lt_Some _ _ _ Hi) as Hlt.
    change (length Gen.TICK_MULTIPLIERS) with 27%nat in Hlt.
    destruct (lookup_lt_is_Some_2 Gen.DEFAULT_SYMBOLS i) as [nm Hnm];
      [exact Hlt|].
    destruct (Hent i nm Hlt Hnm) as (s & Hs & _ & _ & Hw & _). exists s.
    split; [exact Hs|]. rewrite Hw, Hi. reflexivity. }
  split; [exact Hnames|]. split; [exact Hprices|]. split; [exact Hweights|].
  split; [rewrite Hweights; reflexivity|].
  split.
  { apply list_eq. intros i. destruct (Nat.lt_ge_cases i 5) as [Hi|Hi].
    - rewrite lookup_take_lt by lia. apply Hven. exact Hi.
    - rewrite lookup_take_ge by lia. symmetry. apply lookup_ge_None. cbn. lia. }
  split; [exact Ht|]. split; [exact Hgt|].
  rewrite Hrng. change (rng_state_ g0) with (UInt.wrap64 seed).
  change (3 * 27)%nat with 81%nat. reflexivity.
Qed.

(** ** The flat call initialize_symbols_c *)

(** X12. initialize_symbols_c returns 0 and changes nothing when either
    pointer is null.  Otherwise it returns 1 after registering the first
    [min(symbol_count, 64)] of the given names, in order, with the five
    default venues; the counters and the target interval are kept. *)
Theorem initialize_symbols_c_spec (gen : option Generator)
    (symbols : option (list string)) (symbol_count : nat) :
  (gen = None \/ symbols = None ->
   FlatCall.initialize_symbols_c gen symbols symbol_count = (0, gen)) /\
  (forall (g : Generator) (names : list string),
     gen = Some g -> symbols = Some names ->
     (symbol_count <= length names)%nat ->
     length (symbols_ g) = Z.to_nat MAX_SYMBOLS ->
     length (venues_ g) = Z.to_nat MAX_VENUES ->
     exists g' : Generator,
       FlatCall.initialize_symbols_c gen symbols symbol_count = (1, Some g') /\
       num_symbols_ g' = Z.of_nat (Nat.min symbol_count 64) /\
       num_venues_ g' = 5 /\
       (forall i : nat, (i < Nat.min symbol_count 64)%nat ->
          symbol_name <$> symbols_ g' !! i = names !! i) /\
       take 5 (venues_ g') = Gen.DEFAULT_VENUES /\
       total_ticks_generated_ g' = total_ticks_generated_ g /\
       generation_time_ns_ g' = generation_time_ns_ g /\
       target_tick_interval_ns_ g' = target_tick_interval_ns_ g).
Proof.
  split.
  - intros [-> | ->]; [reflexivity|]. now destruct gen.
  - intros g names -> -> Hc Hls Hlv. cbn [FlatCall.initialize_symbols_c].
    eexists. split; [reflexivity|].
    pose proof (Init.entries (take symbol_count names) Gen.DEFAULT_VENUES g Hls Hlv)
      as He.
    cbv zeta in He. rewrite length_take in He.
    replace (Nat.min symbol_count (length names)) with symbol_count in He by lia.
    change (Nat.min (length Gen.DEFAULT_VENUES) 8) with 5%nat in He.
    set (g' := snd (Gen.initialize_symbols (take symbol_count names)
                      Gen.DEFAULT_VENUES g)) in *.
    clearbody g'.
    destruct He as (Hns & Hnv & Hent & _ & Hven & _ & _ & Ht & Hgt & Hiv).
    split; [exact Hns|]. split; [exact Hnv|]. split.
    { intros i Hi.
      destruct (lookup_lt_is_Some_2 names i ltac:(lia)) as [nm Hnm].
      destruct (Hent i nm Hi) as (s & Hs & Hname & _).
      { rewrite lookup_take_lt by lia. exact Hnm. }
      rewrite Hs, Hnm. cbn. rewrite Hname. reflexivity. }
    split.
    { apply list_eq. intros i. destruct (Nat.lt_ge_cases i 5) as [Hi|Hi].
      - rewrite lookup_take_lt by lia. apply Hven. exact Hi.
      - rewrite lookup_take_ge by lia. symmetry. apply lookup_ge_None. cbn. lia. }
    repeat split; assumption.
Qed.

(** ** The statistics reports *)

Module Stats.

(** The efficiency formula of get_processor_stats at an average of [a]
    nanoseconds. *)
Lemma efficiency_full_table :
  forallb (fun a : nat =>
             match F64.min (F64.mul (F64.div (F64.of_Z 1000) (F64.of_Z (Z.of_nat a)))
                                    (F64.of_Z 100))
                           (F64.of_Z 100),
                   F64.of_Z 100 with
             | S754_finite s m e, S754_finite s' m' e' =>
                 Bool.eqb s s' && (m =? m')%positive && (e =? e')
             | _, _ => false
             end)
          (seq 1 1000) = true.
Proof. vm_compute. reflexivity. Qed.

Lemma efficiency_full (a : Z) :
  1 <= a <= 1000 ->
  F64.min (F64.mul (F64.div (F64.of_Z 1000) (F64.of_Z a)) (F64.of_Z 100))
          (F64.of_Z 100)
  = F64.of_Z 100.
Proof.
  intros Ha. pose proof efficiency_full_table as H.
  rewrite forallb_forall in H. specialize (H (Z.to_nat a)).
  rewrite Z2Nat.id in H by lia.
  assert (Hin : In (Z.to_nat a) (seq 1 1000)) by (apply in_seq; lia).
  specialize (H Hin).
  destruct (F64.min _ _) as [| | |s m e]; try discriminate.
  destruct (F64.of_Z 100) as [| | |s' m' e']; try discriminate.
  rewrite !andb_true_iff in H. destruct H as [[Hs Hm] He].
  apply Bool.eqb_prop in Hs. apply Pos.eqb_eq in Hm. apply Z.eqb_eq in He.
  now subst.
Qed.

End Stats.

(** X13. get_performance_stats divides by no zero: with no tick counted the
    average is 0, with no time accumulated the rate is 0, with a zero
    target interval the efficiency is 0.0.  Otherwise the average is the
    whole quotient of the time by the ticks, and the rate is the whole
    quotient of [ticks * 10^9] by the time as long as that product fits 64
    bits. *)
Theorem get_performance_stats_spec (g : Generator) :
  0 <= total_ticks_generated_ g < 2 ^ 64 ->
  0 <= generation_time_ns_ g < 2 ^ 64 ->
  let n := total_ticks_generated_ g in
  let t := generation_time_ns_ g in
  let s := get_performance_stats g in
  PerformanceStats.total_ticks s = n /\
  (n = 0 -> PerformanceStats.avg_generation_time_ns s = 0) /\
  (t = 0 -> PerformanceStats.ticks_per_second s = 0) /\
  (target_tick_interval_ns_ g = 0 ->
     PerformanceStats.cpu_efficiency_percent s = F64.zero) /\
  (0 < n ->
     let a := PerformanceStats.avg_generation_time_ns s in
     0 <= a /\ a * n <= t < (a + 1) * n) /\
  (0 < t -> n * 1000000000 < 2 ^ 64 ->
     let r := PerformanceStats.ticks_per_second s in
     0 <= r /\ r * t <= n * 1000000000 < (r + 1) * t).
Proof.
  intros Hn Ht. cbv zeta. unfold get_performance_stats.
  cbn [PerformanceStats.total_ticks PerformanceStats.avg_generation_time_ns
       PerformanceStats.ticks_per_second PerformanceStats.cpu_efficiency_percent].
  set (n := total_ticks_generated_ g) in *. set (t := generation_time_ns_ g) in *.
  split; [reflexivity|].
  split; [intros ->; reflexivity|].
  split; [intros ->; reflexivity|].
  split; [intros ->; reflexivity|].
  split.
  - intros Hpos. destruct (Z.ltb_spec 0 n) as [_|]; [|lia].
    pose proof (Z.mul_div_le t n Hpos). pose proof (Z.mul_succ_div_gt t n Hpos).
    assert (0 <= t / n) by (apply Z.div_pos; lia). lia.
  - intros Hpos Hfit. destruct (Z.ltb_spec 0 t) as [_|]; [|lia].
    rewrite wrap64_small by lia.
    pose proof (Z.mul_div_le (n * 1000000000) t Hpos).
    pose proof (Z.mul_succ_div_gt (n * 1000000000) t Hpos).
    assert (0 <= n * 1000000000 / t) by (apply Z.div_pos; lia). lia.
Qed.

Lemma get_performance_stats_spec_witness :
  let g := snd (Gen.generate_tick sample_clock sample_generator) in
  let n := total_ticks_generated_ g in
  let t := generation_time_ns_ g in
  let s := get_performance_stats g in
  PerformanceStats.total_ticks s = n /\
  (n = 0 -> PerformanceStats.avg_generation_time_ns s = 0) /\
  (t = 0 -> PerformanceStats.ticks_per_second s = 0) /\
  (target_tick_interval_ns_ g = 0 ->
     PerformanceStats.cpu_efficiency_percent s = F64.zero) /\
  (0 < n ->
     let a := PerformanceStats.avg_generation_time_ns s in
     0 <= a /\ a * n <= t < (a + 1) * n) /\
  (0 < t -> n * 1000000000 < 2 ^ 64 ->
     let r := PerformanceStats.ticks_per_second s in
     0 <= r /\ r * t <= n * 1000000000 < (r + 1) * t).
Proof.
  apply (get_performance_stats_spec
           (snd (Gen.generate_tick sample_clock sample_generator)));
    vm_compute; split; congruence.
Defined.

(** X14. reset_performance_counters zeroes the two counters and nothing
    else, and the report that follows shows no tick, a zero average and a
    zero rate; a batch of [count] ticks generated after a reset is reported
    as [count] ticks. *)
Theorem reset_then_report (batch_clk : ClockReads) (reads : nat -> ClockReads)
    (buf : list MarketTick) (count : nat) (g : Generator) :
  (count <= length buf)%nat -> Z.of_nat count < 2 ^ 64 ->
  let g0 := snd (Gen.reset_performance_counters g) in
  let g1 := snd (Gen.generate_tick_batch batch_clk reads buf count g0) in
  g0 = Gen.set_perf g 0 0 /\
  PerformanceStats.total_ticks (get_performance_stats g0) = 0 /\
  PerformanceStats.avg_generation_time_ns (get_performance_stats g0) = 0 /\
  PerformanceStats.ticks_per_second (get_performance_stats g0) = 0 /\
  PerformanceStats.total_ticks (get_performance_stats g1) = Z.of_nat count.
Proof.
  intros Hlen Hc. cbv zeta. unfold Gen.reset_performance_counters, modify.
  cbn [snd]. split; [reflexivity|]. split; [reflexivity|]. split; [reflexivity|].
  split; [reflexivity|].
  unfold get_performance_stats. cbn [PerformanceStats.total_ticks].
  unfold Gen.generate_tick_batch, bind, modify, ret.
  pose proof (Batch.loop_counters reads count 0 buf (Gen.set_perf g 0 0)) as Hcnt.
  cbv zeta in Hcnt.
  assert (H0 : 0 <= total_ticks_generated_ (Gen.set_perf g 0 0) < 2 ^ 64)
    by (cbn [Gen.set_perf total_ticks_generated_]; lia).
  specialize (Hcnt H0).
  destruct (Gen.batch_loop reads count 0 buf (Gen.set_perf g 0 0)) as [out g1].
  cbn [fst snd] in Hcnt |- *.
  destruct Hcnt as (Ht & _).
  cbn [Gen.set_perf total_ticks_generated_] in Ht |- *.
  rewrite Ht. apply wrap64_small. lia.
Qed.

Lemma reset_then_report_witness :
  let g0 := snd (Gen.reset_performance_counters sample_generator) in
  let g1 := snd (Gen.generate_tick_batch sample_clock (fun _ => sample_clock)
                   (replicate 5 blank_tick) 3 g0) in
  g0 = Gen.set_perf sample_generator 0 0 /\
  PerformanceStats.total_ticks (get_performance_stats g0) = 0 /\
  PerformanceStats.avg_generation_time_ns (get_performance_stats g0) = 0 /\
  PerformanceStats.ticks_per_second (get_performance_stats g0) = 0 /\
  PerformanceStats.total_ticks (get_performance_stats g1) = Z.of_nat 3.
Proof.
  apply (reset_then_report sample_clock (fun _ => sample_clock)
           (replicate 5 blank_tick) 3 sample_generator).
  - cbn [length replicate]. lia.
  - cbn. lia.
Defined.

(** X15. get_processor_stats on the counters of a processor: no tick
    processed gives a zero average and a zero efficiency, no time a zero
    rate; an average below one nanosecond (more ticks than nanoseconds)
    also reports a zero efficiency; an average from 1 to 1000 nanoseconds
    reports exactly 100.0. *)
Theorem get_processor_stats_spec (p : MarketDataProcessor) :
  0 <= ticks_processed (stats_ p) < 2 ^ 64 ->
  0 <= processing_time_ns (stats_ p) < 2 ^ 64 ->
  let n := ticks_processed (stats_ p) in
  let t := processing_time_ns (stats_ p) in
  let s := get_processor_stats p in
  (t = 0 -> ProcessorStats.ticks_per_second s = 0) /\
  (n = 0 -> ProcessorStats.avg_processing_time_ns s = 0) /\
  (0 < n ->
     let a := ProcessorStats.avg_processing_time_ns s in
     0 <= a /\ a * n <= t < (a + 1) * n) /\
  (n = 0 \/ t < n -> ProcessorStats.throughput_efficiency s = F64.zero) /\
  (0 < n -> n <= t < 1001 * n ->
     ProcessorStats.throughput_efficiency s = F64.of_Z 100).
Proof.
  intros Hn Ht. cbv zeta. unfold get_processor_stats.
  cbn [ProcessorStats.ticks_per_second ProcessorStats.avg_processing_time_ns
       ProcessorStats.throughput_efficiency].
  set (n := ticks_processed (stats_ p)) in *.
  set (t := processing_time_ns (stats_ p)) in *.
  split; [intros ->; reflexivity|].
  split; [intros ->; reflexivity|].
  split.
  { intros Hpos. destruct (Z.ltb_spec 0 n) as [_|]; [|lia].
    pose proof (Z.mul_div_le t n Hpos). pose proof (Z.mul_succ_div_gt t n Hpos).
    assert (0 <= t / n) by (apply Z.div_pos; lia). lia. }
  split.
  { intros [-> | Hlt]; [reflexivity|].
    destruct (Z.ltb_spec 0 n) as [Hpos|]; [|reflexivity].
    rewrite Z.div_small by lia. reflexivity. }
  intros Hpos Hr. destruct (Z.ltb_spec 0 n) as [_|]; [|lia].
  assert (Ha : 1 <= t / n <= 1000).
  { split; [apply Z.div_le_lower_bound; lia|].
    assert (t / n < 1001) by (apply Z.div_lt_upper_bound; lia). lia. }
  destruct (Z.ltb_spec 0 (t / n)) as [_|]; [|lia].
  apply Stats.efficiency_full. exact Ha.
Qed.

Lemma get_processor_stats_spec_witness :
  let p := mkMarketDataProcessor (mkProcessingStats 4 2000 28) in
  let n := ticks_processed (stats_ p) in
  let t := processing_time_ns (stats_ p) in
  let s := get_processor_stats p in
  (t = 0 -> ProcessorStats.ticks_per_second s = 0) /\
  (n = 0 -> ProcessorStats.avg_processing_time_ns s = 0) /\
  (0 < n ->
     let a := ProcessorStats.avg_processing_time_ns s in
     0 <= a /\ a * n <= t < (a + 1) * n) /\
  (n = 0 \/ t < n -> ProcessorStats.throughput_efficiency s = F64.zero) /\
  (0 < n -> n <= t < 1001 * n ->
     ProcessorStats.throughput_efficiency s = F64.of_Z 100).
Proof.
  apply (get_processor_stats_spec (mkMarketDataProcessor (mkProcessingStats 4 2000 28)));
    cbn; lia.
Defined.

(** ** More about process_tick *)

Module Features.

Lemma window_ext (h1 h2 : list MarketTick) (first n : nat) :
  (forall i : nat, (first <= i < first + n)%nat -> h1 !!! i = h2 !!! i) ->
  Proc.window h1 first n = Proc.window h2 first n.
Proof.
  intros H. unfold Proc.window. apply map_ext_in. intros i Hi.
  apply in_seq in Hi. apply H. lia.
Qed.

Lemma window_drop (h : list MarketTick) (k n : nat) :
  Proc.window (drop k h) 0 n = Proc.window h k n.
Proof.
  unfold Proc.window.
  replace (seq k n) with (map (Nat.add k) (seq 0 n)).
  - rewrite map_map. apply map_ext. intros i. apply lookup_total_drop.
  - change (map ?f ?l) with (f <$> l). rewrite fmap_add_seq. f_equal. lia.
Qed.

(** With a history of more than one entry the features are a function of
    the tick, of the window and of the entry five places from the end. *)
Lemma with_history (log_u32 : Z -> f32) (clk : ClockReads) (uninit : MLFeatures.t)
    (tick : MarketTick) (h1 h2 : list MarketTick) (n1 n2 : Z)
    (p1 p2 : MarketDataProcessor) :
  1 < n1 -> 1 < n2 -> Z.min n1 10 = Z.min n2 10 ->
  Proc.window h1 (Z.to_nat (n1 - Z.min n1 10)) (Z.to_nat (Z.min n1 10))
  = Proc.window h2 (Z.to_nat (n2 - Z.min n2 10)) (Z.to_nat (Z.min n2 10)) ->
  (5 <= Z.min n1 10 -> h1 !!! Z.to_nat (n1 - 5) = h2 !!! Z.to_nat (n2 - 5)) ->
  fst (Proc.process_tick log_u32 clk uninit tick (Some h1) n1 p1)
  = fst (Proc.process_tick log_u32 clk uninit tick (Some h2) n2 p2).
Proof.
  intros H1 H2 Hmin Hw H5.
  unfold Proc.process_tick, bind, ret, Proc.count_tick, modify. cbn [fst].
  destruct (Z.ltb_spec 1 n1) as [_|]; [|lia].
  destruct (Z.ltb_spec 1 n2) as [_|]; [|lia].
  rewrite <- Hw, <- Hmin.
  destruct (Z.leb_spec 5 (Z.min n1 10)) as [Hge|Hlt].
  - rewrite (H5 Hge). reflexivity.
  - reflexivity.
Qed.

End Features.

(** X16. process_tick reads the last [min(history_size, 10)] entries of the
    history and nothing else of it: two histories that agree on these
    entries give the same features, whatever the state of the processor;
    and with ten entries or more the features are those computed from the
    last ten entries alone. *)
Theorem process_tick_reads_window_only (log_u32 : Z -> f32) (clk : ClockReads)
    (uninit : MLFeatures.t) (tick : MarketTick) (p1 p2 : MarketDataProcessor) :
  (forall (h1 h2 : list MarketTick) (n : Z),
     1 < n ->
     (forall i : nat, n - Z.min n 10 <= Z.of_nat i < n -> h1 !!! i = h2 !!! i) ->
     fst (Proc.process_tick log_u32 clk uninit tick (Some h1) n p1)
     = fst (Proc.process_tick log_u32 clk uninit tick (Some h2) n p2)) /\
  (forall (h : list MarketTick) (n : Z),
     10 <= n ->
     fst (Proc.process_tick log_u32 clk uninit tick (Some h) n p1)
     = fst (Proc.process_tick log_u32 clk uninit tick
              (Some (drop (Z.to_nat (n - 10)) h)) 10 p2)).
Proof.
  split.
  - intros h1 h2 n Hn Hagree.
    apply Features.with_history; trivial.
    + apply Features.window_ext. intros i Hi. apply Hagree. lia.
    + intros _. apply Hagree. lia.
  - intros h n Hn.
    apply Features.with_history; try lia.
    + rewrite !Z.min_r by lia. change (10 - 10) with 0.
      change (Z.to_nat 0) with 0%nat. symmetry. apply Features.window_drop.
    + intros _. rewrite lookup_total_drop. f_equal. lia.
Qed.

(** X17. One process_tick on a new processor, then the report: the call
    counts one tick, seven feature calculations and its elapsed time,
    whatever the tick and the history; the report then gives the elapsed
    time as average, [10^9 / elapsed] ticks per second, and an efficiency
    of exactly 100.0 when the call took from 1 to 1000 nanoseconds and of
    0.0 when the two clock readings were equal. *)
Theorem process_tick_then_report (log_u32 : Z -> f32) (clk : ClockReads)
    (uninit : MLFeatures.t) (tick : MarketTick)
    (history_buffer : option (list MarketTick)) (history_size : Z) :
  let p := snd (Proc.process_tick log_u32 clk uninit tick history_buffer
                  history_size create_processor) in
  let d := elapsed_ns clk in
  let s := get_processor_stats p in
  stats_ p = mkProcessingStats 1 d 7 /\
  ProcessorStats.avg_processing_time_ns s = d /\
  ProcessorStats.ticks_per_second s = (if 0 <? d then 1000000000 / d else 0) /\
  (d = 0 -> ProcessorStats.throughput_efficiency s = F64.zero) /\
  (1 <= d <= 1000 -> ProcessorStats.throughput_efficiency s = F64.of_Z 100).
Proof.
  cbv zeta. unfold Proc.process_tick, bind, ret, Proc.count_tick, modify.
  cbn [snd create_processor stats_ ticks_processed processing_time_ns
       feature_calculations].
  pose proof (wrap64_range (t_end clk - t_start clk)) as Hd.
  fold (elapsed_ns clk) in Hd.
  change (UInt.wrap64 (0 + 1)) with 1. change (UInt.wrap64 (0 + 7)) with 7.
  rewrite Z.add_0_l. rewrite (wrap64_small (elapsed_ns clk)) by exact Hd.
  set (d := elapsed_ns clk) in *.
  split; [reflexivity|].
  unfold get_processor_stats.
  cbn [stats_ ticks_processed processing_time_ns ProcessorStats.ticks_per_second
       ProcessorStats.avg_processing_time_ns ProcessorStats.throughput_efficiency].
  change (0 <? 1) with true. cbv iota. rewrite Z.div_1_r.
  change (UInt.wrap64 (1 * 1000000000)) with 1000000000.
  split; [reflexivity|]. split; [reflexivity|]. split.
  - intros ->. reflexivity.
  - intros Hr. destruct (Z.ltb_spec 0 d) as [_|]; [|lia].
    now apply Stats.efficiency_full.
Qed.

(** ** Degenerate inputs of process_tick and calculate_risk_metrics *)

Module Degenerate.

Lemma fabs_neg (p : f32) : F32.fabs (F32.neg p) = F32.fabs p.
Proof. now destruct p as [[|]|[|]| |[|] m e]. Qed.

(** The divisor [recent_history] of the three averages. *)
Lemma recent_history_cases (n : Z) :
  1 < n ->
  exists (m : positive) (e : Z), F32.of_Z (Z.min n 10) = S754_finite false m e.
Proof.
  intros Hn.
  assert (H : Z.min n 10 = 2 \/ Z.min n 10 = 3 \/ Z.min n 10 = 4 \/ Z.min n 10 = 5 \/
              Z.min n 10 = 6 \/ Z.min n 10 = 7 \/ Z.min n 10 = 8 \/ Z.min n 10 = 9 \/
              Z.min n 10 = 10) by lia.
  destruct H as [-> | [-> | [-> | [-> | [-> | [-> | [-> | [-> | ->]]]]]]]];
    vm_compute; eauto.
Qed.

Lemma fold_add_zero (w : list MarketTick) (f : MarketTick -> f32) :
  (forall h : MarketTick, In h w -> f h = F32.zero) ->
  fold_left (fun acc h => F32.add acc (f h)) w F32.zero = F32.zero.
Proof.
  induction w as [|h w IH]; intros H; [reflexivity|].
  cbn [fold_left]. rewrite (H h) by (left; reflexivity).
  change (F32.add F32.zero F32.zero) with F32.zero.
  apply IH. intros h' Hh'. apply H. right. exact Hh'.
Qed.

Lemma window_in (h : list MarketTick) (first n : nat) (x : MarketTick) :
  In x (Proc.window h first n) ->
  exists i : nat, (first <= i < first + n)%nat /\ x = h !!! i.
Proof.
  unfold Proc.window. intros Hx. apply in_map_iff in Hx.
  destruct Hx as (i & <- & Hi). apply in_seq in Hi. exists i. split; [lia|reflexivity].
Qed.

End Degenerate.

(** X18. calculate_risk_metrics depends on the size of the position, not on
    its side: a position and its opposite get the same four results.  And
    features whose volatility and price change are both NaN are never
    flagged, whatever the position: the three comparisons are false. *)
Theorem calculate_risk_metrics_side (features : MLFeatures.t) (position_size : f32) :
  Proc.calculate_risk_metrics features (F32.neg position_size)
  = Proc.calculate_risk_metrics features position_size /\
  (MLFeatures.volatility_5min features = S754_nan ->
   MLFeatures.price_change features = S754_nan ->
   RiskMetrics.risk_limit_exceeded
     (Proc.calculate_risk_metrics features position_size) = false).
Proof.
  split.
  - unfold Proc.calculate_risk_metrics. now rewrite Degenerate.fabs_neg.
  - intros Hv Hp. unfold Proc.calculate_risk_metrics.
    cbn [RiskMetrics.risk_limit_exceeded]. rewrite Hv, Hp.
    destruct position_size as [[|]|[|]| |[|] m e]; reflexivity.
Qed.

(** X19. process_tick does not guard the division by the average price.
    Over a window of prices that are all +0.0, a tick with a positive
    finite price gets the price change +infinity, which the risk check
    flags; a tick whose own price is +0.0 gets the price change NaN and the
    volatility 0, and the risk check passes it for every position size. *)
Theorem process_tick_zero_prices (log_u32 : Z -> f32) (clk : ClockReads)
    (uninit : MLFeatures.t) (tick : MarketTick) (history : list MarketTick)
    (history_size : Z) (p : MarketDataProcessor) (position_size : f32) :
  1 < history_size ->
  (forall i : nat,
     history_size - Z.min history_size 10 <= Z.of_nat i < history_size ->
     last_price (history !!! i) = F32.zero) ->
  let f := fst (Proc.process_tick log_u32 clk uninit tick (Some history)
                  history_size p) in
  let risk := Proc.calculate_risk_metrics f position_size in
  MLFeatures.volatility_5min f = F32.zero /\
  (forall (m : positive) (e : Z), last_price tick = S754_finite false m e ->
     MLFeatures.price_change f = S754_infinity false /\
     RiskMetrics.risk_limit_exceeded risk = true) /\
  (last_price tick = F32.zero ->
     MLFeatures.price_change f = S754_nan /\
     RiskMetrics.risk_limit_exceeded risk = false).
Proof.
  intros Hn Hzero. cbv zeta.
  unfold Proc.process_tick, bind, ret, Proc.count_tick, modify. cbn [fst].
  destruct (Z.ltb_spec 1 history_size) as [_|]; [|lia].
  set (w := Proc.window history _ _).
  assert (Hw : forall h : MarketTick, In h w -> last_price h = F32.zero).
  { intros h Hh. apply Degenerate.window_in in Hh. destruct Hh as (i & Hi & ->).
    apply Hzero. lia. }
  rewrite (Degenerate.fold_add_zero w last_price Hw).
  destruct (Degenerate.recent_history_cases history_size Hn) as (mk & ek & Hk).
  rewrite Hk.
  change (F32.div F32.zero (S754_finite false mk ek)) with F32.zero.
  assert (Hvar : fold_left
                   (fun acc h =>
                      let diff := F32.sub (last_price h) F32.zero in
                      F32.add acc (F32.mul diff diff)) w F32.zero = F32.zero).
  { clear -Hw. induction w as [|h w IH]; [reflexivity|].
    cbn [fold_left]. cbv zeta. rewrite (Hw h) by (left; reflexivity).
    change (F32.add F32.zero (F32.mul (F32.sub F32.zero F32.zero)
                                (F32.sub F32.zero F32.zero))) with F32.zero.
    apply IH. intros h' Hh'. apply Hw. right. exact Hh'. }
  cbv zeta in Hvar. rewrite Hvar.
  change (F32.div F32.zero (S754_finite false mk ek)) with F32.zero.
  change (F32.sqrt F32.zero) with F32.zero.
  cbn [MLFeatures.volatility_5min MLFeatures.price_change].
  split; [reflexivity|]. split.
  - intros m e Hp. rewrite Hp. split; [reflexivity|].
    unfold Proc.calculate_risk_metrics.
    cbn [RiskMetrics.risk_limit_exceeded MLFeatures.price_change
         MLFeatures.volatility_5min].
    change (F32.div (F32.sub (S754_finite false m e) F32.zero) F32.zero)
      with (S754_infinity false).
    change (F32.gtb (F32.fabs (S754_infinity false)) (F32.lit 5 100)) with true.
    now rewrite orb_true_r.
  - intros Hp. rewrite Hp. split; [reflexivity|].
    unfold Proc.calculate_risk_metrics.
    cbn [RiskMetrics.risk_limit_exceeded MLFeatures.price_change
         MLFeatures.volatility_5min].
    destruct position_size as [[|]|[|]| |[|] m e]; reflexivity.
Qed.

Lemma process_tick_zero_prices_witness :
  let zero_tick := mkMarketTick 0 0 F32.zero F32.zero 0 0 F32.zero 0 0 F32.zero in
  let f := fst (Proc.process_tick (fun _ => F32.zero) sample_clock garbage_features
                  sample_tick (Some [zero_tick; zero_tick; zero_tick]) 3
                  fresh_processor) in
  let risk := Proc.calculate_risk_metrics f (F32.of_Z 100) in
  MLFeatures.volatility_5min f = F32.zero /\
  (forall (m : positive) (e : Z), last_price sample_tick = S754_finite false m e ->
     MLFeatures.price_change f = S754_infinity false /\
     RiskMetrics.risk_limit_exceeded risk = true) /\
  (last_price sample_tick = F32.zero ->
     MLFeatures.price_change f = S754_nan /\
     RiskMetrics.risk_limit_exceeded risk = false).
Proof.
  apply (process_tick_zero_prices (fun _ => F32.zero) sample_clock garbage_features
           sample_tick
           [mkMarketTick 0 0 F32.zero F32.zero 0 0 F32.zero 0 0 F32.zero;
            mkMarketTick 0 0 F32.zero F32.zero 0 0 F32.zero 0 0 F32.zero;
            mkMarketTick 0 0 F32.zero F32.zero 0 0 F32.zero 0 0 F32.zero]
           3 fresh_processor (F32.of_Z 100)).
  - lia.
  - intros i Hi. change (Z.min 3 10) with 3 in Hi.
    destruct i as [|[|[|i]]]; reflexivity.
Defined.

(** ** Mid price and spread of a valid tick *)

Module Quote.

Import FloatSpec FloatFacts FloatOps FloatValid.

(** A valid positive number is normal (24 digits) or sits on the lowest
    exponent. *)
Lemma pos_finite_shape (m : positive) (e : Z) :
  bounded F32.prec F32.emax m e = true ->
  -149 <= e <= 104 /\
  (Zpos (digits2_pos m) = 24 \/ (e = -149 /\ Zpos (digits2_pos m) < 24)).
Proof.
  intros Hb. apply bounded_canonical in Hb. destruct Hb as [Hc He].
  apply canonical_eq in Hc. rewrite fexp32_eq in Hc. lia.
Qed.

(** Twice a valid positive number below 2^127 is a valid number. *)
Lemma double_float (x : f32) :
  pos_finite x -> (B2R x < bpow 127)%R ->
  exists f : f32, pos_finite f /\ B2R f = (2 * B2R x)%R.
Proof.
  intros Hx Hlt.
  destruct x as [[|]|[|]| |[|] m e]; cbn [pos_finite] in Hx; try contradiction.
  destruct (pos_finite_shape m e Hx) as [He [Hd|[He' Hd]]].
  - cbn [B2R cond_Zopp] in Hlt. pose proof (F2R_digits m e) as [Hlo _].
    rewrite Hd in Hlo.
    assert (24 + e - 1 < 127) by (apply bpow_lt_inv; lra).
    exists (S754_finite false m (e + 1)). cbn [pos_finite B2R cond_Zopp]. split.
    + apply bounded_canonical. split; [|lia]. apply canonical_eq.
      rewrite Hd, fexp32_eq. lia.
    + unfold F2R. rewrite bpow_succ. ring.
  - subst e. exists (S754_finite false (xO m) (-149)).
    cbn [pos_finite B2R cond_Zopp]. split.
    + apply bounded_canonical. split; [|lia]. apply canonical_eq.
      cbn [digits2_pos]. rewrite Pos2Z.inj_succ, fexp32_eq. lia.
    + unfold F2R. rewrite (Pos2Z.inj_xO m), mult_IZR. ring.
Qed.

(** Valid positive numbers are whole multiples of 2^-149. *)
Lemma grid (x : f32) :
  pos_finite x -> exists k : Z, 0 < k /\ B2R x = (IZR k * bpow (-149))%R.
Proof.
  intros Hx.
  destruct x as [[|]|[|]| |[|] m e]; cbn [pos_finite] in Hx; try contradiction.
  destruct (pos_finite_shape m e Hx) as [He _].
  exists (Zpos m * 2 ^ (e + 149)). split; [lia|].
  cbn [B2R cond_Zopp]. unfold F2R. rewrite mult_IZR.
  rewrite <- (bpow_nonneg_IZR (e + 149)) by lia.
  rewrite Rmult_assoc, <- bpow_add. do 2 f_equal. lia.
Qed.

Lemma smallest_pos : pos_finite (S754_finite false 1 (-149)).
Proof. reflexivity. Qed.

(** The difference of two valid positive numbers [b < a] is a valid
    positive number, at most [a]. *)
Lemma sub_pos (a b : f32) :
  pos_finite a -> pos_finite b -> (B2R b < B2R a)%R ->
  pos_finite (F32.sub a b) /\ (B2R (F32.sub a b) <= B2R a)%R.
Proof.
  intros Ha Hb Hlt.
  pose proof (sub_rounds a b Ha Hb ltac:(lra)) as Hr.
  destruct (grid a Ha) as (ka & Hka & Ea). destruct (grid b Hb) as (kb & Hkb & Eb).
  pose proof (bpow_pos (-149)) as Hp.
  assert (Hk : kb < ka).
  { apply lt_IZR. rewrite Ea, Eb in Hlt. nra. }
  assert (Hk1 : (IZR kb + 1 <= IZR ka)%R).
  { rewrite <- plus_IZR. apply IZR_le. lia. }
  pose proof (pos_finite_B2R b Hb) as Hb0.
  destruct (rounds_between _ _ (S754_finite false 1 (-149)) a Hr smallest_pos
              (pos_finite_nonneg a Ha)) as [Hpos Hbd].
  { cbn [B2R cond_Zopp]. rewrite F2R_bpow. rewrite Ea, Eb. split; nra. }
  split; [exact Hpos|lra].
Qed.

(** What is_valid tells about the two quotes, for binary32 values. *)
Lemma is_valid_quotes (t : MarketTick) :
  is_valid t = true ->
  F32.valid (bid_price t) = true -> F32.valid (ask_price t) = true ->
  F32.is_finite (ask_price t) = true ->
  pos_finite (bid_price t) /\ pos_finite (ask_price t) /\
  (B2R (bid_price t) < B2R (ask_price t))%R.
Proof.
  unfold is_valid. rewrite andb_true_iff. intros [Hb Ha] Hvb Hva Hfa.
  unfold F32.gtb in Hb, Ha. fold (F32.ltb (bid_price t) (ask_price t)) in Ha.
  destruct (bid_price t) as [[|]|[|]| |[|] mb eb]; try discriminate;
    destruct (ask_price t) as [[|]|[|]| |[|] ma ea]; try discriminate.
  assert (Hpb : pos_finite (S754_finite false mb eb)) by exact Hvb.
  assert (Hpa : pos_finite (S754_finite false ma ea)) by exact Hva.
  split; [exact Hpb|]. split; [exact Hpa|].
  now apply ltb_pos_finite.
Qed.

Lemma half : F32.lit 5 10 = S754_finite false 8388608 (-24).
Proof. vm_compute. reflexivity. Qed.

Lemma mid_between (bid ask : f32) :
  pos_finite bid -> pos_finite ask -> (B2R bid < B2R ask)%R ->
  (B2R ask < bpow 127)%R ->
  let mid := F32.mul (F32.add bid ask) (F32.lit 5 10) in
  pos_finite mid /\ (B2R bid <= B2R mid <= B2R ask)%R.
Proof.
  intros Hb Ha Hlt Hmax. cbv zeta. rewrite half.
  destruct (double_float bid Hb ltac:(lra)) as (b2 & Hb2 & Eb2).
  destruct (double_float ask Ha Hmax) as (a2 & Ha2 & Ea2).
  pose proof (add_rounds bid ask (pos_finite_nonneg _ Hb) (pos_finite_nonneg _ Ha))
    as Hsum.
  destruct (rounds_between _ _ b2 a2 Hsum Hb2 (pos_finite_nonneg _ Ha2))
    as [Hsp Hsb]; [lra|].
  set (s := F32.add bid ask) in *.
  pose proof (mul_rounds s (S754_finite false 8388608 (-24)) (pos_finite_nonneg _ Hsp)
                ltac:(reflexivity)) as Hmid.
  assert (Ehalf : B2R (S754_finite false 8388608 (-24)) = (1 / 2)%R).
  { Bounds.B2R_const. lra. }
  rewrite Ehalf in Hmid.
  apply (rounds_between _ _ bid ask Hmid Hb (pos_finite_nonneg _ Ha)). lra.
Qed.

End Quote.

(** X20. For a tick that passes is_valid, with binary32 quotes and a finite
    ask below 2^127: mid_price() lies between the bid and the ask, and
    spread() is positive and at most the ask. *)
Theorem valid_tick_mid_and_spread (t : MarketTick) :
  is_valid t = true ->
  F32.valid (bid_price t) = true -> F32.valid (ask_price t) = true ->
  F32.is_finite (ask_price t) = true ->
  (FloatSpec.B2R (ask_price t) < FloatSpec.bpow 127)%R ->
  F32.leb (bid_price t) (mid_price t) = true /\
  F32.leb (mid_price t) (ask_price t) = true /\
  F32.gtb (spread t) F32.zero = true /\
  F32.leb (spread t) (ask_price t) = true.
Proof.
  intros Hv Hvb Hva Hfa Hmax.
  destruct (Quote.is_valid_quotes t Hv Hvb Hva Hfa) as (Hb & Ha & Hlt).
  destruct (Quote.mid_between _ _ Hb Ha Hlt Hmax) as [Hm Hmb]. cbv zeta in Hm, Hmb.
  destruct (Quote.sub_pos _ _ Ha Hb Hlt) as [Hs Hsb].
  unfold mid_price, spread.
  split; [apply FloatOps.leb_pos_finite; trivial; lra|].
  split; [apply FloatOps.leb_pos_finite; trivial; lra|].
  split; [now apply Bounds.pos_finite_gtb_zero|].
  apply FloatOps.leb_pos_finite; trivial.
Qed.

Lemma valid_tick_mid_and_spread_witness :
  F32.leb (bid_price sample_tick) (mid_price sample_tick) = true /\
  F32.leb (mid_price sample_tick) (ask_price sample_tick) = true /\
  F32.gtb (spread sample_tick) F32.zero = true /\
  F32.leb (spread sample_tick) (ask_price sample_tick) = true.
Proof.
  apply (valid_tick_mid_and_spread sample_tick); try reflexivity.
  change (ask_price sample_tick) with (F32.of_Z 101).
  replace (F32.of_Z 101) with (S754_finite false 13238272 (-17))
    by (vm_compute; reflexivity).
  pose proof (FloatFacts.bpow_lt 7 127 ltac:(lia)) as H.
  rewrite (FloatFacts.bpow_nonneg_IZR 7) in H by lia. change (2 ^ 7) with 128 in H.
  cbn [FloatSpec.B2R cond_Zopp]. unfold FloatSpec.F2R.
  rewrite (Bounds.bpow_Zneg_IZR 17). change (2 ^ 17) with 131072. lra.
Defined.

(** X21. Every tick generate_tick returns with a finite price passes
    is_valid: the bid is positive and the ask is above the bid. *)
Theorem generate_tick_is_valid (clk : ClockReads) (g : Generator) :
  Spec.well_typed g = true -> valid_floats g = true -> 1 <= num_symbols_ g ->
  let t := fst (Gen.generate_tick clk g) in
  F32.is_finite (last_price t) = true ->
  is_valid t = true.
Proof.
  intros Hwt Hvf Hns. cbv zeta. rewrite generate_tick_run.
  cbn [fst]. unfold is_valid, Obs.tick. cbn [last_price bid_price ask_price].
  intros Hfin.
  destruct (new_price_pos_finite g Hwt Hvf Hns Hfin) as [Hx Hx7].
  destruct (spread_bps_range g) as [Hs Hsb].
  destruct (Bounds.quote_bounds (Obs.new_price g) (Obs.spread_bps g) Hx Hx7 Hs Hsb)
    as (_ & _ & Hbid & Hask).
  cbv zeta in Hbid, Hask.
  unfold Obs.bid_price, Obs.ask_price, Obs.spread_dollars.
  rewrite Hbid. unfold F32.gtb at 1. unfold F32.ltb in Hask. rewrite Hask. reflexivity.
Qed.

Lemma generate_tick_is_valid_witness :
  is_valid (fst (Gen.generate_tick sample_clock sample_generator)) = true.
Proof.
  apply (generate_tick_is_valid sample_clock sample_generator).
  - apply sample_generator_well_typed.
  - vm_compute. reflexivity.
  - vm_compute. congruence.
  - vm_compute. reflexivity.
Defined.

(** ** Whole numbers in binary32, and the volume of a tick *)

Module FloatInt.

Import FloatSpec FloatFacts FloatOps FloatValid.

(** Every whole number below 2^24 is a binary32 value. *)
Lemma int_float (n : Z) :
  0 < n < 2 ^ 24 -> exists f : f32, pos_finite f /\ B2R f = IZR n.
Proof.
  intros Hn.
  pose proof (Z.log2_spec n ltac:(lia)) as Hd. pose proof (Z.log2_nonneg n) as Hd0.
  set (d := Z.log2 n) in *.
  assert (Hd24 : d < 24).
  { apply (Z.pow_lt_mono_r_iff 2); lia. }
  set (m := n * 2 ^ (23 - d)).
  assert (Hp : 0 < 2 ^ (23 - d)) by (apply Z.pow_pos_nonneg; lia).
  assert (Hm : 2 ^ 23 <= m < 2 ^ 24).
  { replace (2 ^ 23) with (2 ^ d * 2 ^ (23 - d))
      by (rewrite <- Z.pow_add_r by lia; f_equal; lia).
    replace (2 ^ 24) with (2 ^ Z.succ d * 2 ^ (23 - d))
      by (rewrite <- Z.pow_add_r by lia; f_equal; lia).
    subst m. split; [apply Z.mul_le_mono_nonneg_r; lia|].
    apply Z.mul_lt_mono_pos_r; lia. }
  assert (Hpos : 0 < m) by lia.
  destruct m as [|pm|pm] eqn:Em; try lia.
  assert (Hdig : Zpos (digits2_pos pm) = 24).
  { apply digits2_pos_unique. change (24 - 1) with 23. exact Hm. }
  exists (S754_finite false pm (d - 23)). cbn [pos_finite B2R cond_Zopp]. split.
  - apply bounded_canonical. split; [|lia]. apply canonical_eq.
    rewrite Hdig, fexp32_eq. lia.
  - rewrite <- Em. subst m. rewrite F2R_shift by lia.
    replace (d - 23 + (23 - d)) with 0 by lia. unfold F2R. rewrite bpow_0. ring.
Qed.

(** The conversion of a whole number below 2^24 is exact. *)
Lemma of_Z_exact (n : Z) :
  0 <= n < 2 ^ 24 -> nonneg_finite (F32.of_Z n) /\ B2R (F32.of_Z n) = IZR n.
Proof.
  intros Hn. destruct (Z.eq_dec n 0) as [->|Hne].
  - split; reflexivity.
  - destruct (int_float n ltac:(lia)) as (f & Hf & Ef).
    pose proof (of_Z_rounds n ltac:(lia)) as Hr.
    destruct (rounds_upper _ _ f Hr (pos_finite_nonneg f Hf) ltac:(lra)) as [Hfin Hle].
    pose proof (rounds_lower _ _ f Hr (pos_finite_nonneg f Hf) ltac:(lra) Hfin) as Hge.
    split; [exact Hfin|lra].
Qed.

(** Truncation of a valid non-negative number is the whole part. *)
Lemma trunc_floor (r : f32) :
  nonneg_finite r ->
  0 <= F32.trunc r /\ (IZR (F32.trunc r) <= B2R r < IZR (F32.trunc r) + 1)%R.
Proof.
  intros Hr.
  destruct r as [[|]|[|]| |[|] m e]; cbn [nonneg_finite] in Hr; try contradiction.
  - cbn [F32.trunc B2R]. split; [lia|lra].
  - cbn [F32.trunc B2R cond_Zopp]. unfold F2R. destruct e as [|p|p].
    + rewrite Z.shiftl_0_r, bpow_0. split; [lia|lra].
    + rewrite Z.shiftl_mul_pow2 by lia. rewrite (bpow_nonneg_IZR (Zpos p)) by lia.
      rewrite mult_IZR. split; [|lra].
      assert (0 < 2 ^ Zpos p) by (apply Z.pow_pos_nonneg; lia). lia.
    + rewrite Z.shiftr_div_pow2 by lia. rewrite (Bounds.bpow_Zneg_IZR p).
      assert (Hp : 0 < 2 ^ Zpos p) by (apply Z.pow_pos_nonneg; lia).
      pose proof (Z.mul_div_le (Zpos m) (2 ^ Zpos p) Hp) as H1.
      pose proof (Z.mul_succ_div_gt (Zpos m) (2 ^ Zpos p) Hp) as H2.
      set (q := Zpos m / 2 ^ Zpos p) in *.
      assert (Hq : 0 <= q) by (subst q; apply Z.div_pos; lia).
      apply IZR_le in H1. apply IZR_lt in H2.
      rewrite mult_IZR in H1, H2. unfold Z.succ in H2. rewrite plus_IZR in H2.
      assert (HP : (0 < IZR (2 ^ Zpos p))%R) by (apply IZR_lt; exact Hp).
      split; [exact Hq|]. split.
      * apply (Rmult_le_reg_r (IZR (2 ^ Zpos p))); [exact HP|].
        rewrite Rmult_assoc, Rinv_l by lra. lra.
      * apply (Rmult_lt_reg_r (IZR (2 ^ Zpos p))); [exact HP|].
        rewrite Rmult_assoc, Rinv_l by lra. lra.
Qed.

Lemma trunc_between (r : f32) (lo hi : Z) :
  nonneg_finite r -> (IZR lo <= B2R r <= IZR hi)%R -> lo <= F32.trunc r <= hi.
Proof.
  intros Hr [H1 H2]. destruct (trunc_floor r Hr) as [_ [Hf1 Hf2]].
  split.
  - assert (lo < F32.trunc r + 1); [|lia].
    apply lt_IZR. rewrite plus_IZR. lra.
  - apply le_IZR. lra.
Qed.

Lemma tenth : F32.lit 1 10 = S754_finite false 13421773 (-27).
Proof. vm_compute. reflexivity. Qed.

(** The two bounds of the volume draw, for an average volume [a]. *)
Lemma volume_bounds (a : Z) :
  0 <= a < 2 ^ 23 ->
  let lo := F32.to_u32 (F32.mul (F32.of_Z a) (F32.lit 1 10)) in
  let hi := F32.to_u32 (F32.mul (F32.of_Z a) (F32.of_Z 2)) in
  a / 10 <= lo <= a / 10 + 1 /\ hi = 2 * a /\ lo <= hi.
Proof.
  intros Ha. cbv zeta.
  destruct (Z.eq_dec a 0) as [->|Hne].
  { vm_compute. repeat split; congruence. }
  unfold F32.to_u32.
  destruct (of_Z_exact a ltac:(lia)) as [HA EA].
  set (A := F32.of_Z a) in *.
  assert (Ha0 : (0 <= IZR a)%R) by (apply IZR_le; lia).
  (* the upper bound *)
  assert (Hhi : F32.trunc (F32.mul A (F32.of_Z 2)) = 2 * a).
  { destruct (of_Z_exact 2 ltac:(lia)) as [H2 E2].
    destruct (of_Z_exact (2 * a) ltac:(lia)) as [Hf Ef].
    pose proof (mul_rounds A (F32.of_Z 2) HA H2) as Hr. rewrite EA, E2 in Hr.
    rewrite mult_IZR in Ef.
    destruct (rounds_upper _ _ _ Hr Hf ltac:(lra)) as [Hfin Hle].
    pose proof (rounds_lower _ _ _ Hr Hf ltac:(lra) Hfin) as Hge.
    pose proof (trunc_between _ (2 * a) (2 * a) Hfin) as Ht.
    rewrite mult_IZR in Ht. specialize (Ht ltac:(lra)). lia. }
  (* the lower bound *)
  assert (Hlo : a / 10 <= F32.trunc (F32.mul A (F32.lit 1 10)) <= a / 10 + 1).
  { rewrite tenth.
    pose proof (mul_rounds A (S754_finite false 13421773 (-27)) HA ltac:(reflexivity))
      as Hr.
    rewrite EA in Hr.
    assert (Ec : B2R (S754_finite false 13421773 (-27)) = (13421773 / 134217728)%R).
    { Bounds.B2R_const. lra. }
    rewrite Ec in Hr.
    pose proof (Z.mul_div_le a 10 ltac:(lia)) as Hq1.
    pose proof (Z.mul_succ_div_gt a 10 ltac:(lia)) as Hq2.
    set (q := a / 10) in *.
    assert (Hq0 : 0 <= q) by (subst q; apply Z.div_pos; lia).
    destruct (of_Z_exact q ltac:(lia)) as [Hfq Eq].
    destruct (of_Z_exact (q + 1) ltac:(lia)) as [Hfq1 Eq1].
    rewrite plus_IZR in Eq1.
    assert (H1 : (IZR q * 134217728 <= IZR a * 13421773)%R).
    { rewrite <- !mult_IZR. apply IZR_le. lia. }
    assert (H2 : (IZR a * 13421773 <= (IZR q + 1) * 134217728)%R).
    { rewrite <- (plus_IZR q 1), <- !mult_IZR. apply IZR_le. lia. }
    destruct (rounds_upper _ _ _ Hr Hfq1 ltac:(lra)) as [Hfin Hle].
    pose proof (rounds_lower _ _ _ Hr Hfq ltac:(lra) Hfin) as Hge.
    apply trunc_between; [exact Hfin|]. rewrite plus_IZR. lra. }
  pose proof (Z.mul_div_le a 10 ltac:(lia)) as Hq.
  assert (Hq0 : 0 <= a / 10) by (apply Z.div_pos; lia).
  rewrite Hhi. rewrite !wrap32_small by lia.
  split; [exact Hlo|]. split; [reflexivity|]. lia.
Qed.

End FloatInt.

(** X22. The volume of a tick is drawn around the average volume of its
    symbol: for an average below 2^23 it is at least a tenth of the
    average (rounded down) and at most twice the average. *)
Theorem generate_tick_volume (clk : ClockReads) (g : Generator) :
  Spec.well_typed g = true -> 1 <= num_symbols_ g ->
  let t := fst (Gen.generate_tick clk g) in
  let a := avg_volume (symbols_ g !!! Z.to_nat (symbol_id t)) in
  0 <= a < 2 ^ 23 ->
  a / 10 <= volume t <= 2 * a.
Proof.
  intros Hwt Hns. cbv zeta. rewrite generate_tick_fst.
  destruct (selected_symbol_in_use g Hwt Hns) as [Hsel Hlt].
  destruct (well_typed_capacity g Hwt) as (Hlen & Hnsr & _). unfold MAX_SYMBOLS in *.
  unfold Obs.tick. cbn [symbol_id volume].
  rewrite wrap32_small by lia. rewrite Nat2Z.id.
  fold (Obs.symbol g). intros Ha.
  destruct (FloatInt.volume_bounds _ Ha) as (Hlo & Hhi & Hle). cbv zeta in Hlo, Hhi, Hle.
  unfold Obs.volume.
  set (lo := F32.to_u32 (F32.mul _ (F32.lit 1 10))) in *.
  set (hi := F32.to_u32 (F32.mul _ (F32.of_Z 2))) in *.
  pose proof (uniform_u32_range (Obs.draw g 4) lo hi) as Hr.
  assert (0 <= avg_volume (Obs.symbol g) / 10) by (apply Z.div_pos; lia).
  specialize (Hr ltac:(lia) ltac:(lia) ltac:(lia)). lia.
Qed.

Lemma generate_tick_volume_witness :
  let t := fst (Gen.generate_tick sample_clock sample_generator) in
  let a := avg_volume (symbols_ sample_generator !!! Z.to_nat (symbol_id t)) in
  a / 10 <= volume t <= 2 * a.
Proof.
  apply (generate_tick_volume sample_clock sample_generator).
  - apply sample_generator_well_typed.
  - vm_compute. congruence.
  - vm_compute. split; congruence.
Defined.

(** ** The volume ratio of process_tick *)

Module VolumeRatio.

Import FloatSpec FloatFacts FloatOps FloatValid.

(** A whole number below 2^24 times a power of two, from 2^-100 to 2^100, is
    a binary32 value. *)
Lemma scaled_int_float (n j : Z) :
  0 < n < 2 ^ 24 -> -100 <= j <= 100 ->
  exists f : f32, pos_finite f /\ B2R f = (IZR n * bpow j)%R.
Proof.
  intros Hn Hj.
  pose proof (Z.log2_spec n ltac:(lia)) as Hd. pose proof (Z.log2_nonneg n) as Hd0.
  set (d := Z.log2 n) in *.
  assert (Hd24 : d < 24).
  { apply (Z.pow_lt_mono_r_iff 2); lia. }
  set (m := n * 2 ^ (23 - d)).
  assert (Hp : 0 < 2 ^ (23 - d)) by (apply Z.pow_pos_nonneg; lia).
  assert (Hm : 2 ^ 23 <= m < 2 ^ 24).
  { replace (2 ^ 23) with (2 ^ d * 2 ^ (23 - d))
      by (rewrite <- Z.pow_add_r by lia; f_equal; lia).
    replace (2 ^ 24) with (2 ^ Z.succ d * 2 ^ (23 - d))
      by (rewrite <- Z.pow_add_r by lia; f_equal; lia).
    subst m. split; [apply Z.mul_le_mono_nonneg_r; lia|].
    apply Z.mul_lt_mono_pos_r; lia. }
  assert (Hpos : 0 < m) by lia.
  destruct m as [|pm|pm] eqn:Em; try lia.
  assert (Hdig : Zpos (digits2_pos pm) = 24).
  { apply digits2_pos_unique. change (24 - 1) with 23. exact Hm. }
  exists (S754_finite false pm (d - 23 + j)). cbn [pos_finite B2R cond_Zopp]. split.
  - apply bounded_canonical. split; [|lia]. apply canonical_eq.
    rewrite Hdig, fexp32_eq. lia.
  - rewrite <- Em. subst m. rewrite F2R_shift by lia.
    replace (d - 23 + j + (23 - d)) with j by lia. reflexivity.
Qed.

Lemma one_float : pos_finite F32.one /\ B2R F32.one = 1%R.
Proof. rewrite one_eq. split; [reflexivity|]. Bounds.B2R_const. lra. Qed.

Lemma rounds_whole_like (x : R) (r hi : f32) :
  rounds x r -> nonneg_finite hi -> (x <= B2R hi)%R -> (x = 0 \/ 1 <= x)%R ->
  whole_like r /\ (B2R r <= B2R hi)%R.
Proof.
  intros Hr Hhi Hle Hx.
  destruct (rounds_upper _ _ _ Hr Hhi Hle) as [Hfin Hub].
  destruct one_float as [H1 E1].
  split; [|exact Hub]. split; [exact Hfin|].
  destruct Hx as [Hx|Hx].
  - left. pose proof (nonneg_finite_B2R r Hfin).
    destruct (rounds_upper _ _ (S754_zero false) Hr ltac:(exact I)
                ltac:(cbn [B2R]; lra)) as [_ H0].
    cbn [B2R] in H0. lra.
  - right. rewrite <- E1.
    apply (rounds_lower x r F32.one Hr (pos_finite_nonneg _ H1)); [lra|exact Hfin].
Qed.

(** The conversion of a [uint32_t]. *)
Lemma of_u32 (v : Z) :
  0 <= v < 2 ^ 32 ->
  whole_like (F32.of_Z v) /\ (B2R (F32.of_Z v) <= bpow 32)%R.
Proof.
  intros Hv.
  destruct (scaled_int_float 1 32 ltac:(lia) ltac:(lia)) as (f & Hf & Ef).
  rewrite Rmult_1_l in Ef. rewrite <- Ef.
  apply (rounds_whole_like (IZR v)).
  - apply of_Z_rounds. lia.
  - now apply pos_finite_nonneg.
  - rewrite Ef, (bpow_nonneg_IZR 32) by lia. apply IZR_le. lia.
  - destruct (Z.eq_dec v 0) as [->|Hne]; [left; reflexivity|right].
    apply IZR_le. lia.
Qed.

(** The sum of at most ten converted volumes, accumulated from [acc]. *)
Lemma volume_sum (w : list MarketTick) :
  forall (acc : f32) (k : Z),
  (forall h : MarketTick, In h w -> 0 <= volume h < 2 ^ 32) ->
  0 <= k -> k + Z.of_nat (length w) <= 10 ->
  whole_like acc -> (B2R acc <= IZR k * bpow 32)%R ->
  let s := fold_left (fun acc h => F32.add acc (F32.of_Z (volume h))) w acc in
  whole_like s /\ (B2R s <= 10 * bpow 32)%R.
Proof.
  induction w as [|h w IH]; intros acc k Hw Hk Hlen Hacc Hb; cbv zeta.
  - cbn [fold_left]. split; [exact Hacc|].
    pose proof (bpow_pos 32). assert (IZR k <= 10)%R by (apply IZR_le; cbn in Hlen; lia).
    nra.
  - cbn [fold_left length] in *.
    destruct (of_u32 (volume h) (Hw h ltac:(left; reflexivity))) as [[Hv Hv1] Hvb].
    destruct Hacc as [Ha Ha1].
    destruct (scaled_int_float (k + 1) 32 ltac:(lia) ltac:(lia)) as (f & Hf & Ef).
    rewrite plus_IZR in Ef.
    pose proof (add_rounds acc (F32.of_Z (volume h)) Ha Hv) as Hr.
    pose proof (nonneg_finite_B2R acc Ha) as Ha0.
    pose proof (nonneg_finite_B2R _ Hv) as Hv0.
    destruct (rounds_whole_like _ _ f Hr (pos_finite_nonneg f Hf)) as [Hs Hsb].
    { rewrite Ef. lra. }
    { destruct Ha1 as [Ha1|Ha1], Hv1 as [Hv1|Hv1]; [left|right|right|right]; lra. }
    apply (IH _ (k + 1)); trivial; try lia.
    + intros h' Hh'. apply Hw. right. exact Hh'.
    + rewrite plus_IZR. rewrite Ef in Hsb. exact Hsb.
Qed.

(** The divisor [std::max(avg_volume, 1.0f)] is at least one. *)
Lemma max_one (avg : f32) :
  nonneg_finite avg ->
  pos_finite (F32.max avg F32.one) /\
  (1 <= B2R (F32.max avg F32.one))%R /\
  (B2R (F32.max avg F32.one) <= Rmax (B2R avg) 1)%R.
Proof.
  intros Ha. destruct one_float as [H1 E1]. unfold F32.max.
  destruct (F32.ltb avg F32.one) eqn:Hlt.
  - rewrite E1. split; [exact H1|]. split; [lra|apply Rmax_r].
  - destruct avg as [[|]|[|]| |[|] m e]; cbn [nonneg_finite] in Ha; try contradiction.
    + rewrite one_eq in Hlt. discriminate.
    + assert (Hp : pos_finite (S754_finite false m e)) by exact Ha.
      pose proof (ltb_pos_finite _ _ Hp H1) as Hiff. rewrite E1 in Hiff.
      split; [exact Hp|]. split; [|apply Rmax_l].
      destruct (Rle_or_lt 1 (B2R (S754_finite false m e))) as [|Hc]; trivial.
      apply Hiff in Hc. congruence.
Qed.

Lemma ratio_bounds (V sum N : f32) (n : Z) :
  whole_like V -> (B2R V <= bpow 32)%R ->
  whole_like sum -> (B2R sum <= 10 * bpow 32)%R ->
  2 <= n <= 10 -> N = F32.of_Z n ->
  let ratio := F32.div V (F32.max (F32.div sum N) F32.one) in
  nonneg_finite ratio /\ (B2R ratio <= B2R V)%R.
Proof.
  intros [HV HV1] HVb [Hs Hs1] Hsb Hn ->. cbv zeta.
  destruct (FloatInt.of_Z_exact n ltac:(lia)) as [HN EN].
  assert (Hn2 : (2 <= IZR n)%R) by (apply IZR_le; lia).
  assert (HNp : pos_finite (F32.of_Z n)) by (apply nonneg_finite_pos; [exact HN|lra]).
  pose proof (nonneg_finite_B2R _ Hs) as Hs0.
  pose proof (nonneg_finite_B2R _ HV) as HV0.
  pose proof (bpow_ge_1 32 ltac:(lia)) as Hp32.
  assert (Hp125 : (bpow (-125) * (10 * bpow 32) <= 1 / 10)%R).
  { replace (10 * bpow 32)%R with (bpow 32 * 10)%R by ring.
    rewrite <- Rmult_assoc, <- bpow_add.
    assert (bpow (-125 + 32) <= bpow (-7))%R by (apply bpow_le; lia).
    assert (bpow (-7) = / 128)%R.
    { rewrite (Bounds.bpow_Zneg_IZR 7). reflexivity. }
    pose proof (bpow_pos (-125 + 32)). lra. }
  (* the average *)
  assert (Havg : nonneg_finite (F32.div sum (F32.of_Z n)) /\
                 (B2R (F32.div sum (F32.of_Z n)) <= B2R sum)%R).
  { assert (Hq : (B2R sum = 0 \/ bpow (-125) <= B2R sum / B2R (F32.of_Z n))%R).
    { destruct Hs1 as [Hz|Hge]; [left; exact Hz|right]. rewrite EN.
      assert (IZR n <= 10)%R by (apply IZR_le; lia).
      apply Rle_trans with (1 / 10)%R.
      - pose proof (bpow_pos (-125)). nra.
      - unfold Rdiv. apply Rle_trans with (1 * / IZR n)%R.
        + rewrite !Rmult_1_l. apply Rinv_le_contravar; lra.
        + apply Rmult_le_compat_r; [|lra].
          apply Rlt_le, Rinv_0_lt_compat. lra. }
    pose proof (div_rounds sum (F32.of_Z n) Hs HNp Hq) as Hr. rewrite EN in Hr.
    apply (rounds_upper _ _ sum Hr Hs).
    apply Rle_trans with (B2R sum / 1)%R; [|lra].
    unfold Rdiv. apply Rmult_le_compat_l; [lra|].
    apply Rinv_le_contravar; lra. }
  destruct Havg as [Ha Hab].
  destruct (max_one _ Ha) as (Hd & Hd1 & Hdb).
  set (d := F32.max _ F32.one) in *.
  assert (HdB : (B2R d <= 10 * bpow 32)%R).
  { apply Rle_trans with (1 := Hdb). apply Rmax_lub; lra. }
  assert (Hinv : (0 < / B2R d <= 1)%R).
  { split; [apply Rinv_0_lt_compat; lra|].
    rewrite <- Rinv_1. apply Rinv_le_contravar; lra. }
  assert (Hq : (B2R V = 0 \/ bpow (-125) <= B2R V / B2R d)%R).
  { destruct HV1 as [Hz|Hge]; [left; exact Hz|right].
    apply Rle_trans with (/ B2R d)%R.
    - apply (Rmult_le_reg_r (B2R d)); [lra|]. rewrite Rinv_l by lra.
      pose proof (bpow_pos (-125)). nra.
    - unfold Rdiv. rewrite <- (Rmult_1_l (/ B2R d)) at 1.
      apply Rmult_le_compat_r; lra. }
  pose proof (div_rounds V d HV Hd Hq) as Hr.
  apply (rounds_upper _ _ V Hr HV).
  unfold Rdiv. rewrite <- (Rmult_1_r (B2R V)) at 2.
  apply Rmult_le_compat_l; lra.
Qed.

Lemma nonneg_finite_flags (r v : f32) :
  nonneg_finite r -> nonneg_finite v -> (B2R r <= B2R v)%R ->
  F32.is_finite r = true /\ F32.leb F32.zero r = true /\ F32.leb r v = true.
Proof.
  intros Hr Hv Hle.
  destruct r as [[|]|[|]| |[|] mr er]; cbn [nonneg_finite] in Hr; try contradiction.
  - split; [reflexivity|]. split; [reflexivity|].
    destruct v as [[|]|[|]| |[|] mv ev]; cbn [nonneg_finite] in Hv; try contradiction;
      reflexivity.
  - split; [reflexivity|]. split; [reflexivity|].
    assert (Hrp : pos_finite (S754_finite false mr er)) by exact Hr.
    pose proof (pos_finite_B2R _ Hrp) as Hr0.
    apply leb_pos_finite; trivial. apply nonneg_finite_pos; [exact Hv|lra].
Qed.

End VolumeRatio.

(** X23. With a history of more than one entry, the volume ratio
    process_tick returns is a finite number between 0 and the volume of the
    tick: the divisor [max(avg_volume, 1.0f)] is never below one. *)
Theorem process_tick_volume_ratio (log_u32 : Z -> f32) (clk : ClockReads)
    (uninit : MLFeatures.t) (tick : MarketTick) (history : list MarketTick)
    (history_size : Z) (p : MarketDataProcessor) :
  1 < history_size ->
  0 <= volume tick < 2 ^ 32 ->
  (forall i : nat,
     history_size - Z.min history_size 10 <= Z.of_nat i < history_size ->
     0 <= volume (history !!! i) < 2 ^ 32) ->
  let f := fst (Proc.process_tick log_u32 clk uninit tick (Some history)
                  history_size p) in
  F32.is_finite (MLFeatures.volume_ratio f) = true /\
  F32.leb F32.zero (MLFeatures.volume_ratio f) = true /\
  F32.leb (MLFeatures.volume_ratio f) (F32.of_Z (volume tick)) = true.
Proof.
  intros Hn Hv Hvol. cbv zeta.
  unfold Proc.process_tick, bind, ret, Proc.count_tick, modify. cbn [fst].
  destruct (Z.ltb_spec 1 history_size) as [_|]; [|lia].
  cbn [MLFeatures.volume_ratio].
  set (w := Proc.window history _ _).
  assert (Hw : forall h : MarketTick, In h w -> 0 <= volume h < 2 ^ 32).
  { intros h Hh. apply Degenerate.window_in in Hh. destruct Hh as (i & Hi & ->).
    apply Hvol. lia. }
  assert (Hlen : Z.of_nat (length w) <= 10).
  { unfold w, Proc.window. rewrite length_map, length_seq. lia. }
  destruct (VolumeRatio.volume_sum w F32.zero 0 Hw ltac:(lia) ltac:(lia))
    as [Hs Hsb].
  { split; [exact I|left; reflexivity]. }
  { unfold F32.zero. cbn [FloatSpec.B2R]. lra. }
  cbv zeta in Hs, Hsb.
  destruct (VolumeRatio.of_u32 (volume tick) Hv) as [HV HVb].
  destruct (VolumeRatio.ratio_bounds _ _ (F32.of_Z (Z.min history_size 10))
              (Z.min history_size 10) HV HVb Hs Hsb ltac:(lia) eq_refl)
    as [Hr Hrb].
  cbv zeta in Hr, Hrb.
  apply VolumeRatio.nonneg_finite_flags; trivial. apply HV.
Qed.

Lemma process_tick_volume_ratio_witness :
  let f := fst (Proc.process_tick (fun _ => F32.zero) sample_clock garbage_features
                  sample_tick (Some short_history) 3 fresh_processor) in
  F32.is_finite (MLFeatures.volume_ratio f) = true /\
  F32.leb F32.zero (MLFeatures.volume_ratio f) = true /\
  F32.leb (MLFeatures.volume_ratio f) (F32.of_Z (volume sample_tick)) = true.
Proof.
  apply (process_tick_volume_ratio (fun _ => F32.zero) sample_clock garbage_features
           sample_tick short_history 3 fresh_processor).
  - lia.
  - vm_compute. split; congruence.
  - intros i Hi. destruct i as [|[|[|i]]]; vm_compute; split; congruence.
Defined.

(** ** The weighted choice of the symbol *)

Module Choice.

Lemma Zsum_app (a b : list Z) : Spec.Zsum (a ++ b) = Spec.Zsum a + Spec.Zsum b.
Proof. unfold Spec.Zsum. induction a as [|x a IH]; cbn [foldr app]; lia. Qed.

(** With non-negative weights the cumulative sums grow. *)
Lemma Zsum_take_mono (ws : list Z) (i j : nat) :
  Forall (fun w => 0 <= w) ws -> (i <= j)%nat ->
  Spec.Zsum (take i ws) <= Spec.Zsum (take j ws).
Proof.
  intros Hpos Hij.
  replace j with (i + (j - i))%nat by lia. rewrite <- take_take_drop.
  rewrite Zsum_app.
  assert (0 <= Spec.Zsum (take (j - i) (drop i ws))); [|lia].
  apply Zsum_nonneg. apply Forall_take, Forall_drop, Hpos.
Qed.

Lemma Zsum_take_S (ws : list Z) (i : nat) (w : Z) :
  ws !! i = Some w -> Spec.Zsum (take (S i) ws) = Spec.Zsum (take i ws) + w.
Proof.
  intros Hw. rewrite (take_S_r _ _ _ Hw), Zsum_app. unfold Spec.Zsum. cbn. lia.
Qed.

Lemma Zsum_take_le (ws : list Z) (i : nat) :
  Forall (fun w => 0 <= w) ws -> Spec.Zsum (take i ws) <= Spec.Zsum ws.
Proof.
  intros Hpos. destruct (Nat.le_gt_cases i (length ws)) as [Hle|Hgt].
  - rewrite <- (take_ge ws (length ws)) at 2 by lia. now apply Zsum_take_mono.
  - rewrite take_ge by lia. lia.
Qed.

(** The scan returns [i] exactly for the draws of the [i]-th slice. *)
Lemma scan_slice (g : Generator) (r : Z) (i : nat) :
  Spec.well_typed g = true -> Spec.Zsum (Spec.weights g) < 2 ^ 32 ->
  0 <= r < Spec.Zsum (Spec.weights g) ->
  (Gen.select_scan (Gen.active_symbols g) 0 0 r = Some i <->
   (i < length (Spec.weights g))%nat /\
   Spec.Zsum (take i (Spec.weights g)) <= r < Spec.Zsum (take (S i) (Spec.weights g))).
Proof.
  intros Hwt Hsum Hr.
  pose proof (well_typed_weights g Hwt) as Hpos.
  destruct (select_scan_first (Gen.active_symbols g) 0 0 r) as (i' & Hi' & Hlen & Hex & Hbefore);
    trivial; try (unfold Spec.weights in *; lia).
  fold (Spec.weights g) in Hex, Hbefore. unfold Spec.cumulative in Hex, Hbefore.
  cbn [Nat.add] in Hi'. rewrite Z.add_0_l in Hex.
  assert (Hl : length (Gen.active_symbols g) = length (Spec.weights g)).
  { unfold Spec.weights. now rewrite length_map. }
  assert (Hlow : Spec.Zsum (take i' (Spec.weights g)) <= r).
  { destruct i' as [|k]; [rewrite take_0; unfold Spec.Zsum; cbn; lia|].
    specialize (Hbefore k ltac:(lia)). lia. }
  split.
  - intros Hi. rewrite Hi' in Hi. injection Hi as <-. split; [lia|]. split; assumption.
  - intros (Hilen & Hilo & Hihi). rewrite Hi'. f_equal.
    destruct (Nat.lt_trichotomy i' i) as [Hlt|[->|Hgt]]; [|reflexivity|].
    + pose proof (Zsum_take_mono (Spec.weights g) (S i') i Hpos ltac:(lia)). lia.
    + specialize (Hbefore i Hgt). lia.
Qed.

End Choice.

(** X24. The choice of the symbol is weighted by tick_multiplier: among the
    draws [0, ..., total_weight - 1], symbol [i] is chosen for exactly the
    [tick_multiplier] consecutive draws that start at the sum of the
    weights before it; a symbol of weight 0 is never chosen. *)
Theorem select_scan_weighted (g : Generator) (i : nat) (w : Z) :
  Spec.well_typed g = true -> Spec.Zsum (Spec.weights g) < 2 ^ 32 ->
  Spec.weights g !! i = Some w ->
  let before := Spec.Zsum (take i (Spec.weights g)) in
  0 <= before /\ before + w <= Spec.Zsum (Spec.weights g) /\
  (forall r : Z, 0 <= r < Spec.Zsum (Spec.weights g) ->
     (Gen.select_scan (Gen.active_symbols g) 0 0 r = Some i <->
      before <= r < before + w)) /\
  (w = 0 ->
   forall r : Z, 0 <= r < Spec.Zsum (Spec.weights g) ->
     Gen.select_scan (Gen.active_symbols g) 0 0 r <> Some i).
Proof.
  intros Hwt Hsum Hw. cbv zeta.
  pose proof (well_typed_weights g Hwt) as Hpos.
  pose proof (Choice.Zsum_take_S _ _ _ Hw) as HS.
  pose proof (Choice.Zsum_take_le (Spec.weights g) (S i) Hpos) as Hle.
  assert (H0 : 0 <= Spec.Zsum (take i (Spec.weights g))).
  { apply Zsum_nonneg. apply Forall_take, Hpos. }
  assert (Hslice : forall r : Z, 0 <= r < Spec.Zsum (Spec.weights g) ->
            (Gen.select_scan (Gen.active_symbols g) 0 0 r = Some i <->
             Spec.Zsum (take i (Spec.weights g)) <= r
             < Spec.Zsum (take i (Spec.weights g)) + w)).
  { intros r Hr. rewrite (Choice.scan_slice g r i Hwt Hsum Hr), HS.
    pose proof (lookup_lt_Some _ _ _ Hw). tauto. }
  split; [exact H0|]. split; [lia|]. split; [exact Hslice|].
  intros -> r Hr Hsel. apply (Hslice r Hr) in Hsel. lia.
Qed.

Lemma select_scan_weighted_witness :
  let before := Spec.Zsum (take 2 (Spec.weights sample_generator)) in
  0 <= before /\ before + 4 <= Spec.Zsum (Spec.weights sample_generator) /\
  (forall r : Z, 0 <= r < Spec.Zsum (Spec.weights sample_generator) ->
     (Gen.select_scan (Gen.active_symbols sample_generator) 0 0 r = Some 2%nat <->
      before <= r < before + 4)) /\
  (4 = 0 ->
   forall r : Z, 0 <= r < Spec.Zsum (Spec.weights sample_generator) ->
     Gen.select_scan (Gen.active_symbols sample_generator) 0 0 r <> Some 2%nat).
Proof.
  apply (select_scan_weighted sample_generator 2 4).
  - apply sample_generator_well_typed.
  - rewrite sample_generator_total. lia.
  - vm_compute. reflexivity.
Defined.

(** ** The volatility feature *)

Lemma sqrt_not_negative (x : f32) : F32.ltb (F32.sqrt x) F32.zero = false.
Proof.
  unfold F32.sqrt, SFsqrt. destruct x as [[|]|[|]| |[|] m e]; try reflexivity.
  destruct (SFsqrt_core_binary F32.prec F32.emax (Zpos m) e) as [[mz ez] lz].
  unfold binary_round_aux.
  destruct (shr_fexp F32.prec F32.emax mz ez lz) as [mrs' e'].
  destruct (shr_fexp F32.prec F32.emax _ e' loc_Exact) as [mrs'' e''].
  destruct (shr_m mrs'') as [|p|p]; try reflexivity.
  destruct (e'' <=? F32.emax - F32.prec); reflexivity.
Qed.

(** X25. The volatility feature is never negative, whatever the tick, the
    history and its size: it is the square root of a quotient, or the
    constant 0.02 (it may be NaN or infinite when the prices are not
    finite numbers). *)
Theorem process_tick_volatility_sign (log_u32 : Z -> f32) (clk : ClockReads)
    (uninit : MLFeatures.t) (tick : MarketTick)
    (history_buffer : option (list MarketTick)) (history_size : Z)
    (p : MarketDataProcessor) :
  let f := fst (Proc.process_tick log_u32 clk uninit tick history_buffer
                  history_size p) in
  F32.ltb (MLFeatures.volatility_5min f) F32.zero = false.
Proof.
  cbv zeta. unfold Proc.process_tick, bind, ret, Proc.count_tick, modify. cbn [fst].
  destruct history_buffer as [h|].
  - destruct (Z.ltb_spec 1 history_size) as [Hlt|Hge].
    + cbn [MLFeatures.volatility_5min]. apply sqrt_not_negative.
    + cbn [MLFeatures.volatility_5min]. vm_compute. reflexivity.
  - cbn [MLFeatures.volatility_5min]. vm_compute. reflexivity.
Qed.

(** ** The unit draw of fast_random_float *)

Module UnitDraw.

Import FloatSpec FloatFacts FloatOps FloatValid.

(** [normalized] is exactly the low 24 bits of the draw over 2^24. *)
Lemma normalized_exact (k : Z) :
  0 <= k < 2 ^ 24 ->
  let n := F32.div (F32.of_Z k) (F32.of_Z 16777216) in
  nonneg_finite n /\ B2R n = (IZR k / 16777216)%R.
Proof.
  intros Hk. cbv zeta. rewrite Bounds.of_Z_2p24.
  destruct (Z.eq_dec k 0) as [->|Hne].
  { split; [reflexivity|]. cbn [F32.div]. vm_compute. lra. }
  destruct (FloatInt.of_Z_exact k Hk) as [HK EK].
  assert (Hk1 : (1 <= IZR k)%R) by (apply IZR_le; lia).
  assert (Eb : B2R (S754_finite false 8388608 1) = 16777216%R).
  { Bounds.B2R_const. lra. }
  assert (Hq : (B2R (F32.of_Z k) = 0 \/
                bpow (-125) <= B2R (F32.of_Z k) / B2R (S754_finite false 8388608 1))%R).
  { right. rewrite EK, Eb.
    assert (Hp : (bpow (-125) <= bpow (-24))%R) by (apply bpow_le; lia).
    rewrite (Bounds.bpow_Zneg_IZR 24) in Hp. change (2 ^ 24) with 16777216 in Hp.
    apply Rle_trans with (1 := Hp). unfold Rdiv.
    rewrite <- (Rmult_1_l (/ 16777216)) at 1.
    apply Rmult_le_compat_r; lra. }
  pose proof (div_rounds (F32.of_Z k) (S754_finite false 8388608 1) HK
                ltac:(reflexivity) Hq) as Hr.
  rewrite EK, Eb in Hr.
  destruct (VolumeRatio.scaled_int_float k (-24) ltac:(lia) ltac:(lia)) as (f & Hf & Ef).
  rewrite (Bounds.bpow_Zneg_IZR 24) in Ef. change (2 ^ 24) with 16777216 in Ef.
  fold (Rdiv (IZR k) 16777216) in Ef.
  destruct (rounds_upper _ _ f Hr (pos_finite_nonneg f Hf) ltac:(lra)) as [Hfin Hle].
  pose proof (rounds_lower _ _ f Hr (pos_finite_nonneg f Hf) ltac:(lra) Hfin) as Hge.
  split; [exact Hfin|lra].
Qed.

(** Multiplying a valid non-negative number by one, and adding it to zero,
    change nothing of its value. *)
Lemma zero_plus_times_one (n : f32) :
  nonneg_finite n ->
  let r := F32.add F32.zero (F32.mul n (F32.sub F32.one F32.zero)) in
  nonneg_finite r /\ B2R r = B2R n.
Proof.
  intros Hn. cbv zeta. rewrite one_eq.
  change (F32.sub (S754_finite false 8388608 (-23)) F32.zero)
    with (S754_finite false 8388608 (-23)).
  pose proof (mul_rounds n (S754_finite false 8388608 (-23)) Hn ltac:(reflexivity))
    as Hr.
  assert (E1 : B2R (S754_finite false 8388608 (-23)) = 1%R).
  { Bounds.B2R_const. lra. }
  rewrite E1, Rmult_1_r in Hr.
  destruct (rounds_upper _ _ n Hr Hn ltac:(lra)) as [Hfin Hle].
  pose proof (rounds_lower _ _ n Hr Hn ltac:(lra) Hfin) as Hge.
  set (m := F32.mul n _) in *.
  assert (Hadd : F32.add F32.zero m = m).
  { destruct m as [[|]|[|]| |[|] mm em]; cbn [nonneg_finite] in Hfin;
      try contradiction; reflexivity. }
  rewrite Hadd. split; [exact Hfin|lra].
Qed.

End UnitDraw.

(** X26. fast_random_float(0.0f, 1.0f) returns exactly the low 24 bits of
    the draw divided by 2^24: a multiple of 2^-24 in [0, 1), never 1; the
    generator state advances by one xorshift64 step. *)
Theorem fast_random_float_unit (g : Generator) :
  let r := fst (Gen.fast_random_float F32.zero F32.one g) in
  let g' := snd (Gen.fast_random_float F32.zero F32.one g) in
  let k := Z.land (Gen.xorshift64_step (rng_state_ g)) 16777215 in
  0 <= k < 2 ^ 24 /\
  F32.is_finite r = true /\
  FloatSpec.B2R r = (IZR k / 16777216)%R /\
  (0 <= FloatSpec.B2R r < 1)%R /\
  g' = Gen.set_rng_state g (Gen.xorshift64_step (rng_state_ g)).
Proof.
  cbv zeta. unfold Gen.fast_random_float, Gen.xorshift64, bind, ret. cbn [fst snd].
  set (k := Z.land _ 16777215).
  pose proof (Bounds.low_bits_range (Gen.xorshift64_step (rng_state_ g))) as Hk.
  fold k in Hk.
  destruct (UnitDraw.normalized_exact k ltac:(lia)) as [Hn En]. cbv zeta in Hn, En.
  destruct (UnitDraw.zero_plus_times_one _ Hn) as [Hr Er]. cbv zeta in Hr, Er.
  set (r := F32.add F32.zero _) in *.
  split; [lia|]. split.
  { destruct r as [[|]|[|]| |[|] mr er]; cbn [FloatSpec.nonneg_finite] in Hr;
      try contradiction; reflexivity. }
  split; [rewrite Er; exact En|]. split; [|reflexivity].
  rewrite Er, En.
  assert (H0 : (0 <= IZR k)%R) by (apply IZR_le; lia).
  assert (H1 : (IZR k <= 16777215)%R) by (apply IZR_le; lia).
  lra.
Qed.

(** ** A generator whose state is zero *)

(** X27. A generator whose state is 0 stays there, and every number it
    draws is the lowest of its range: each tick quotes 100 shares on both
    sides at venue 0, with the smallest volume and the smallest spread
    (0.5 basis points, doubled above a price of 500). *)
Theorem generate_tick_zero_state (clk : ClockReads) (g : Generator) :
  rng_state_ g = 0 ->
  let t := fst (Gen.generate_tick clk g) in
  let g' := snd (Gen.generate_tick clk g) in
  let symbol := symbols_ g !!! Obs.selected_symbol g in
  rng_state_ g' = 0 /\
  bid_size t = 100 /\ ask_size t = 100 /\ venue_id t = 0 /\
  volume t = F32.to_u32 (F32.mul (F32.of_Z (avg_volume symbol)) (F32.lit 1 10)) /\
  spread_bps t = (if F32.gtb (current_price symbol) (F32.of_Z 500)
                  then F32.of_Z 1 else F32.lit 5 10).
Proof.
  intros Hz. cbv zeta. rewrite generate_tick_run. cbn [fst snd].
  unfold Obs.final, Obs.tick.
  cbn [rng_state_ bid_size ask_size venue_id volume spread_bps].
  assert (Hd : forall k : nat, Obs.draw g k = 0).
  { intros k. unfold Obs.draw. rewrite Hz. apply Xorshift.rng_zero. }
  assert (Hu : forall lo hi : Z, Obs.uniform_u32 0 lo hi = UInt.wrap32 (UInt.wrap64 lo)).
  { intros lo hi. unfold Obs.uniform_u32. now rewrite Zmod_0_l, Z.add_0_r. }
  unfold Obs.bid_size, Obs.ask_size, Obs.venue_idx, Obs.volume, Obs.spread_bps,
    Obs.drawn_spread.
  rewrite !Hd, !Hu. fold (Obs.symbol g).
  split; [reflexivity|]. split; [reflexivity|]. split; [reflexivity|].
  split; [reflexivity|]. split.
  - unfold F32.to_u32. rewrite (wrap64_small (UInt.wrap32 _)).
    + unfold UInt.wrap32. apply Z.mod_mod. lia.
    + pose proof (wrap32_range (F32.trunc (F32.mul (F32.of_Z (avg_volume (Obs.symbol g)))
                                              (F32.lit 1 10)))). lia.
  - replace (Obs.uniform_float 0 (F32.lit 5 10) (F32.of_Z 3)) with (F32.lit 5 10)
      by (vm_compute; reflexivity).
    replace (F32.mul (F32.lit 5 10) (F32.of_Z 2)) with (F32.of_Z 1)
      by (vm_compute; reflexivity).
    reflexivity.
Qed.

Lemma generate_tick_zero_state_witness :
  let g := Gen.set_rng_state sample_generator 0 in
  let t := fst (Gen.generate_tick sample_clock g) in
  let g' := snd (Gen.generate_tick sample_clock g) in
  let symbol := symbols_ g !!! Obs.selected_symbol g in
  rng_state_ g' = 0 /\
  bid_size t = 100 /\ ask_size t = 100 /\ venue_id t = 0 /\
  volume t = F32.to_u32 (F32.mul (F32.of_Z (avg_volume symbol)) (F32.lit 1 10)) /\
  spread_bps t = (if F32.gtb (current_price symbol) (F32.of_Z 500)
                  then F32.of_Z 1 else F32.lit 5 10).
Proof.
  apply (generate_tick_zero_state sample_clock (Gen.set_rng_state sample_generator 0)).
  reflexivity.
Defined.

(** ** The generation time of a batch *)

Module BatchTime.

Lemma wrap64_add_r (a b : Z) : UInt.wrap64 (a + UInt.wrap64 b) = UInt.wrap64 (a + b).
Proof. unfold UInt.wrap64. now rewrite Zplus_mod_idemp_r. Qed.

Lemma step_time (clk : ClockReads) (i : nat) (buf : list MarketTick) (g : Generator) :
  generation_time_ns_ (snd (Gen.batch_step clk i buf g))
  = UInt.wrap64 (generation_time_ns_ g + elapsed_ns clk).
Proof.
  rewrite Batch.step_state. unfold Obs.final, Gen.set_rng_state.
  destruct (0 <? i)%nat; reflexivity.
Qed.

Lemma loop_time (reads : nat -> ClockReads) (todo : nat) :
  forall (i : nat) (buf : list MarketTick) (g : Generator),
  0 <= generation_time_ns_ g < 2 ^ 64 ->
  generation_time_ns_ (snd (Gen.batch_loop reads todo i buf g))
  = UInt.wrap64 (generation_time_ns_ g
                 + Spec.Zsum (map (fun k => elapsed_ns (reads k)) (seq i todo))).
Proof.
  induction todo as [|todo IH]; intros i buf g Hg.
  - cbn [Gen.batch_loop seq map]. unfold ret, Spec.Zsum. cbn [snd foldr].
    rewrite Z.add_0_r. symmetry. now apply wrap64_small.
  - cbn [Gen.batch_loop seq map]. unfold bind.
    pose proof (step_time (reads i) i buf g) as Hst.
    destruct (Gen.batch_step (reads i) i buf g) as [buf1 g1]. cbn [snd] in Hst.
    rewrite IH by (rewrite Hst; apply wrap64_range).
    rewrite Hst, Batch.wrap64_add_l. f_equal.
    unfold Spec.Zsum. cbn [foldr]. lia.
Qed.

End BatchTime.

(** X28. generate_tick_batch counts the generation time twice: every tick
    of the batch adds its own elapsed time to [generation_time_ns_], and
    the batch then adds the time of the whole loop on top. *)
Theorem generate_tick_batch_time (batch_clk : ClockReads)
    (reads : nat -> ClockReads) (buf : list MarketTick) (count : nat)
    (g : Generator) :
  0 <= generation_time_ns_ g < 2 ^ 64 ->
  let g' := snd (Gen.generate_tick_batch batch_clk reads buf count g) in
  let per_tick := Spec.Zsum (map (fun k => elapsed_ns (reads k)) (seq 0 count)) in
  generation_time_ns_ g'
  = UInt.wrap64 (generation_time_ns_ g + per_tick + elapsed_ns batch_clk) /\
  (generation_time_ns_ g + per_tick + elapsed_ns batch_clk < 2 ^ 64 ->
   generation_time_ns_ g' - generation_time_ns_ g = per_tick + elapsed_ns batch_clk).
Proof.
  intros Hg. cbv zeta. unfold Gen.generate_tick_batch, bind, modify, ret.
  pose proof (BatchTime.loop_time reads count 0 buf g Hg) as Hl.
  destruct (Gen.batch_loop reads count 0 buf g) as [out g1]. cbn [fst snd] in Hl |- *.
  unfold Gen.set_perf. cbn [generation_time_ns_].
  rewrite Hl, Batch.wrap64_add_l.
  split; [reflexivity|].
  intros Hfit.
  assert (Hs : 0 <= Spec.Zsum (map (fun k => elapsed_ns (reads k)) (seq 0 count))).
  { apply Zsum_nonneg. apply Forall_forall. intros x Hx.
    apply list_elem_of_In, in_map_iff in Hx. destruct Hx as (k & <- & _).
    apply wrap64_range. }
  pose proof (wrap64_range (t_end batch_clk - t_start batch_clk)) as He.
  fold (elapsed_ns batch_clk) in He.
  rewrite wrap64_small by lia. lia.
Qed.

Lemma generate_tick_batch_time_witness :
  let g' := snd (Gen.generate_tick_batch sample_clock (fun _ => sample_clock)
                   (replicate 5 blank_tick) 3 sample_generator) in
  let per_tick :=
    Spec.Zsum (map (fun k => elapsed_ns ((fun _ => sample_clock) k)) (seq 0 3)) in
  generation_time_ns_ g'
  = UInt.wrap64 (generation_time_ns_ sample_generator + per_tick
                 + elapsed_ns sample_clock) /\
  (generation_time_ns_ sample_generator + per_tick + elapsed_ns sample_clock < 2 ^ 64 ->
   generation_time_ns_ g' - generation_time_ns_ sample_generator
   = per_tick + elapsed_ns sample_clock).
Proof.
  apply (generate_tick_batch_time sample_clock (fun _ => sample_clock)
           (replicate 5 blank_tick) 3 sample_generator).
  vm_compute. split; congruence.
Defined.

(** ** The quotes of a tick around its price *)

Module QuoteBand.

Import FloatSpec FloatFacts FloatOps FloatValid.

(** A whole number below 2^24 times a power of two in range is a binary32
    value. *)
Lemma scaled_float (n j : Z) :
  0 < n < 2 ^ 24 -> -126 <= j <= 104 ->
  exists f : f32, pos_finite f /\ B2R f = (IZR n * bpow j)%R.
Proof.
  intros Hn Hj.
  pose proof (Z.log2_spec n ltac:(lia)) as Hd. pose proof (Z.log2_nonneg n) as Hd0.
  set (d := Z.log2 n) in *.
  assert (Hd24 : d < 24).
  { apply (Z.pow_lt_mono_r_iff 2); lia. }
  set (m := n * 2 ^ (23 - d)).
  assert (Hp : 0 < 2 ^ (23 - d)) by (apply Z.pow_pos_nonneg; lia).
  assert (Hm : 2 ^ 23 <= m < 2 ^ 24).
  { replace (2 ^ 23) with (2 ^ d * 2 ^ (23 - d))
      by (rewrite <- Z.pow_add_r by lia; f_equal; lia).
    replace (2 ^ 24) with (2 ^ Z.succ d * 2 ^ (23 - d))
      by (rewrite <- Z.pow_add_r by lia; f_equal; lia).
    subst m. split; [apply Z.mul_le_mono_nonneg_r; lia|].
    apply Z.mul_lt_mono_pos_r; lia. }
  assert (Hpos : 0 < m) by lia.
  destruct m as [|pm|pm] eqn:Em; try lia.
  assert (Hdig : Zpos (digits2_pos pm) = 24).
  { apply digits2_pos_unique. change (24 - 1) with 23. exact Hm. }
  exists (S754_finite false pm (d - 23 + j)). cbn [pos_finite B2R cond_Zopp]. split.
  - apply bounded_canonical. split; [|lia]. apply canonical_eq.
    rewrite Hdig, fexp32_eq. lia.
  - rewrite <- Em. subst m. rewrite F2R_shift by lia.
    replace (d - 23 + j + (23 - d)) with j by lia. reflexivity.
Qed.

(** Half the spread in dollars is positive and at most the 2048th part of
    the price. *)
Lemma half_spread (x s : f32) :
  pos_finite x -> (bpow (-7) <= B2R x)%R ->
  pos_finite s -> (1 / 2 <= B2R s <= 6)%R ->
  let h := F32.mul (F32.mul (F32.div s (F32.of_Z 10000)) x) (F32.lit 5 10) in
  pos_finite h /\ (B2R h <= B2R x / 2048)%R.
Proof.
  intros Hx Hx7 Hs Hsb. cbn zeta. rewrite Bounds.of_Z_10000, Bounds.lit_5_10.
  destruct (Bounds.pos_finite_normal x Hx Hx7) as (mx & ex & -> & Hd & He).
  cbn [B2R cond_Zopp] in *. set (X := F2R (Zpos mx) ex) in *.
  set (x := S754_finite false mx ex) in *.
  assert (HX : (0 < X)%R) by (pose proof (bpow_pos (-7)); lra).
  assert (Hq : (B2R s = 0
                \/ bpow (-125) <= B2R s / B2R (S754_finite false 10240000 (-10)))%R).
  { right. assert (Hp : (bpow (-125) <= bpow (-15))%R) by (apply bpow_le; lia).
    Bounds.B2R_const. lra. }
  pose proof (div_rounds s (S754_finite false 10240000 (-10)) (pos_finite_nonneg s Hs)
                ltac:(reflexivity) Hq) as Hd1.
  destruct (rounds_between _ _ (S754_finite false 8388608 (-38))
              (S754_finite false 8388608 (-33)) Hd1) as [Hd1p Hd1b];
    [reflexivity|reflexivity|Bounds.B2R_const; lra|].
  set (d1 := F32.div s _) in *.
  destruct (Bounds.scale2_spec mx ex (-15) Hd ltac:(lia)) as [Hlo2 Elo2].
  destruct (Bounds.scale2_spec mx ex (-10) Hd ltac:(lia)) as [Hhi2 Ehi2].
  fold x in Hlo2, Elo2, Hhi2, Ehi2. fold X in Elo2, Ehi2.
  pose proof (mul_rounds d1 x (pos_finite_nonneg d1 Hd1p) (pos_finite_nonneg x Hx)) as Hd2.
  destruct (rounds_between _ _ (scale2 x (-15)) (scale2 x (-10)) Hd2) as [Hd2p Hd2b];
    [exact Hlo2|exact (pos_finite_nonneg _ Hhi2)|
     rewrite Elo2, Ehi2; change (B2R x) with X; Bounds.B2R_const; nra|].
  rewrite Elo2, Ehi2 in Hd2b.
  set (d2 := F32.mul d1 x) in *.
  destruct (Bounds.scale2_spec mx ex (-16) Hd ltac:(lia)) as [Hlo3 Elo3].
  destruct (Bounds.scale2_spec mx ex (-11) Hd ltac:(lia)) as [Hhi3 Ehi3].
  fold x in Hlo3, Elo3, Hhi3, Ehi3. fold X in Elo3, Ehi3.
  pose proof (mul_rounds d2 (S754_finite false 8388608 (-24)) (pos_finite_nonneg d2 Hd2p)
                ltac:(reflexivity)) as Hh.
  destruct (rounds_between _ _ (scale2 x (-16)) (scale2 x (-11)) Hh) as [Hhp Hhb];
    [exact Hlo3|exact (pos_finite_nonneg _ Hhi3)|
     rewrite Elo3, Ehi3; Bounds.B2R_const; lra|].
  rewrite Elo3, Ehi3 in Hhb.
  split; [exact Hhp|]. change (B2R x) with X. Bounds.B2R_const. lra.
Qed.

(** Both quotes are within a thousandth of a price below 2^127. *)
Lemma band (x s : f32) :
  pos_finite x -> (bpow (-7) <= B2R x)%R -> (B2R x < bpow 127)%R ->
  pos_finite s -> (1 / 2 <= B2R s <= 6)%R ->
  let h := F32.mul (F32.mul (F32.div s (F32.of_Z 10000)) x) (F32.lit 5 10) in
  let bid := F32.sub x h in
  let ask := F32.add x h in
  pos_finite bid /\ pos_finite ask /\
  (B2R x * (1 - 1 / 1000) <= B2R bid < B2R x)%R /\
  (B2R x <= B2R ask <= B2R x * (1 + 1 / 1000))%R.
Proof.
  intros Hx Hx7 Hmax Hs Hsb.
  destruct (half_spread x s Hx Hx7 Hs Hsb) as [Hhp Hhb].
  destruct (Bounds.quote_bounds x s Hx Hx7 Hs Hsb) as (Hbp & Hbx & _ & _).
  cbv zeta in *.
  set (h := F32.mul (F32.mul _ x) _) in *.
  pose proof (pos_finite_B2R h Hhp) as Hh0.
  destruct (Bounds.pos_finite_normal x Hx Hx7) as (mx & ex & Ex & Hd & He).
  pose proof (digits2_pos_bounds mx) as Hm. rewrite Hd in Hm.
  change (2 ^ (24 - 1)) with 8388608 in Hm. change (2 ^ 24) with 16777216 in Hm.
  assert (EX : B2R x = (IZR (Zpos mx) * bpow ex)%R) by (rewrite Ex; reflexivity).
  assert (He' : ex <= 103).
  { pose proof (F2R_digits mx ex) as [Hlo _]. rewrite Hd in Hlo.
    assert (24 + ex - 1 < 127); [|lia].
    apply bpow_lt_inv. rewrite Ex in Hmax. cbn [B2R cond_Zopp] in Hmax. lra. }
  pose proof (bpow_pos ex) as HE.
  assert (Hm1 : (8388608 <= IZR (Zpos mx))%R) by (apply IZR_le; lia).
  assert (Hm2 : (IZR (Zpos mx) < 16777216)%R) by (apply IZR_lt; lia).
  (* the bid *)
  destruct (scaled_float (Zpos mx - 8192) ex ltac:(lia) ltac:(lia)) as (fl & Hfl & Efl).
  rewrite minus_IZR in Efl.
  pose proof (sub_rounds x h Hx Hhp ltac:(lra)) as Hbid.
  pose proof (rounds_lower _ _ fl Hbid (pos_finite_nonneg _ Hfl) ltac:(nra)
                (pos_finite_nonneg _ Hbp)) as Hbl.
  (* the ask *)
  set (q := (Zpos mx + 8193) / 2).
  assert (Hq : Zpos mx + 8192 <= 2 * q <= Zpos mx + 8193).
  { pose proof (Z.mul_div_le (Zpos mx + 8193) 2 ltac:(lia)).
    pose proof (Z.mul_succ_div_gt (Zpos mx + 8193) 2 ltac:(lia)). subst q. lia. }
  destruct (scaled_float q (ex + 1) ltac:(lia) ltac:(lia)) as (fu & Hfu & Efu).
  rewrite bpow_succ in Efu.
  assert (Hq1 : (IZR (Zpos mx) + 8192 <= 2 * IZR q)%R).
  { rewrite <- (plus_IZR _ 8192), <- (mult_IZR 2). apply IZR_le. lia. }
  assert (Hq2 : (2 * IZR q <= IZR (Zpos mx) + 8193)%R).
  { rewrite <- (plus_IZR _ 8193), <- (mult_IZR 2). apply IZR_le. lia. }
  pose proof (add_rounds x h (pos_finite_nonneg x Hx) (pos_finite_nonneg h Hhp)) as Hask.
  destruct (rounds_between _ _ x fu Hask Hx (pos_finite_nonneg _ Hfu)) as [Hap Hab];
    [nra|].
  split; [exact Hbp|]. split; [exact Hap|]. split; [|split]; nra.
Qed.

(** A valid positive number whose digits end below bit 127 is below
    2^127. *)
Lemma below_2_127 (m : positive) (e : Z) :
  Zpos (digits2_pos m) + e <= 127 ->
  (B2R (S754_finite false m e) < bpow 127)%R.
Proof.
  intros H. cbn [B2R cond_Zopp]. pose proof (F2R_digits m e) as [_ Hhi].
  apply (bpow_le _ 127) in H. lra.
Qed.

Lemma pos_is_finite (x : f32) : pos_finite x -> F32.is_finite x = true.
Proof. destruct x as [[|]|[|]| |[|] m e]; cbn; trivial; contradiction. Qed.

End QuoteBand.

(** X29. Both quotes of a generated tick stay within a thousandth of its
    last price, which lies between them: for a finite price below 2^127
    the bid and the ask are finite, bid < last_price <= ask,
    last_price * 0.999 <= bid and ask <= last_price * 1.001; the spread in
    basis points is between 0.5 and 6. *)
Theorem generate_tick_quote_band (clk : ClockReads) (g : Generator) :
  Spec.well_typed g = true -> valid_floats g = true -> 1 <= num_symbols_ g ->
  let t := fst (Gen.generate_tick clk g) in
  F32.is_finite (last_price t) = true ->
  (FloatSpec.B2R (last_price t) < FloatSpec.bpow 127)%R ->
  F32.is_finite (bid_price t) = true /\ F32.is_finite (ask_price t) = true /\
  F32.ltb (bid_price t) (last_price t) = true /\
  F32.leb (last_price t) (ask_price t) = true /\
  (FloatSpec.B2R (last_price t) * (1 - 1 / 1000) <= FloatSpec.B2R (bid_price t))%R /\
  (FloatSpec.B2R (ask_price t) <= FloatSpec.B2R (last_price t) * (1 + 1 / 1000))%R /\
  (1 / 2 <= FloatSpec.B2R (spread_bps t) <= 6)%R.
Proof.
  intros Hwt Hvf Hns. cbv zeta. rewrite generate_tick_run.
  cbn [fst]. unfold Obs.tick. cbn [last_price bid_price ask_price spread_bps].
  intros Hfin Hmax.
  destruct (new_price_pos_finite g Hwt Hvf Hns Hfin) as [Hx Hx7].
  destruct (spread_bps_range g) as [Hs Hsb].
  destruct (QuoteBand.band (Obs.new_price g) (Obs.spread_bps g) Hx Hx7 Hmax Hs Hsb)
    as (Hbp & Hap & [Hb1 Hb2] & [Ha1 Ha2]).
  cbv zeta in Hbp, Hap, Hb1, Hb2, Ha1, Ha2.
  unfold Obs.bid_price, Obs.ask_price, Obs.spread_dollars.
  split; [apply QuoteBand.pos_is_finite; exact Hbp|].
  split; [apply QuoteBand.pos_is_finite; exact Hap|].
  split; [apply FloatOps.ltb_pos_finite; trivial|].
  split; [apply FloatOps.leb_pos_finite; trivial|].
  split; [exact Hb1|]. split; [exact Ha2|]. exact Hsb.
Qed.

Lemma generate_tick_quote_band_witness :
  let t := fst (Gen.generate_tick sample_clock sample_generator) in
  F32.is_finite (bid_price t) = true /\ F32.is_finite (ask_price t) = true /\
  F32.ltb (bid_price t) (last_price t) = true /\
  F32.leb (last_price t) (ask_price t) = true /\
  (FloatSpec.B2R (last_price t) * (1 - 1 / 1000) <= FloatSpec.B2R (bid_price t))%R /\
  (FloatSpec.B2R (ask_price t) <= FloatSpec.B2R (last_price t) * (1 + 1 / 1000))%R /\
  (1 / 2 <= FloatSpec.B2R (spread_bps t) <= 6)%R.
Proof.
  apply (generate_tick_quote_band sample_clock sample_generator).
  - apply sample_generator_well_typed.
  - vm_compute. reflexivity.
  - vm_compute. congruence.
  - vm_compute. reflexivity.
  - remember (last_price (fst (Gen.generate_tick sample_clock sample_generator)))
      as p eqn:Ep.
    vm_compute in Ep. subst p. apply QuoteBand.below_2_127. vm_compute. congruence.
Defined.

(** ** The volumes of a configured generator *)

Module Volumes.

Lemma configured_iff (g : Generator) :
  volumes_configured g = true <->
  forall (i : nat) (s : SymbolState),
    (i < Z.to_nat (num_symbols_ g))%nat -> symbols_ g !! i = Some s ->
    10000 <= avg_volume s <= 100000.
Proof.
  unfold volumes_configured, Gen.active_symbols. rewrite forallb_forall. split.
  - intros H i s Hi Hs.
    assert (Hin : In s (take (Z.to_nat (num_symbols_ g)) (symbols_ g))).
    { apply list_elem_of_In. apply (list_elem_of_lookup_2 _ i).
      apply lookup_take_Some. split; assumption. }
    specialize (H s Hin). apply andb_true_iff in H as [H1 H2]. lia.
  - intros H s Hin. apply list_elem_of_In, list_elem_of_lookup_1 in Hin as [i Hi].
    apply lookup_take_Some in Hi as [Hs Hi]. specialize (H i s Hi Hs).
    apply andb_true_iff. split; lia.
Qed.

(** The symbol generate_tick selects has a configured volume. *)
Lemma selected (g : Generator) :
  Spec.well_typed g = true -> 1 <= num_symbols_ g ->
  volumes_configured g = true ->
  10000 <= avg_volume (Obs.symbol g) <= 100000.
Proof.
  intros Hwt Hns Hv.
  destruct (selected_symbol_in_use g Hwt Hns) as [Hsel Hlt].
  destruct (lookup_lt_is_Some_2 _ _ Hsel) as [s Hs].
  unfold Obs.symbol. rewrite (list_lookup_total_correct _ _ _ Hs).
  apply (proj1 (configured_iff g) Hv (Obs.selected_symbol g)); [lia|exact Hs].
Qed.

(** The volume of the tick, whatever timestamp the batch gives it. *)
Lemma tick_volume (clk : ClockReads) (g : Generator) (ts : Z) :
  Spec.well_typed g = true -> 1 <= num_symbols_ g ->
  volumes_configured g = true ->
  1000 <= volume (set_timestamp_ns (Obs.tick g clk) ts) <= 200000.
Proof.
  intros Hwt Hns Hv. pose proof (selected g Hwt Hns Hv) as Ha.
  unfold set_timestamp_ns, Obs.tick. cbn [volume]. unfold Obs.volume.
  destruct (FloatInt.volume_bounds (avg_volume (Obs.symbol g)) ltac:(lia))
    as (Hlo & Hhi & Hle).
  cbv zeta in Hlo, Hhi, Hle.
  set (lo := F32.to_u32 (F32.mul _ (F32.lit 1 10))) in *.
  set (hi := F32.to_u32 (F32.mul _ (F32.of_Z 2))) in *.
  assert (H1 : 1000 <= avg_volume (Obs.symbol g) / 10)
    by (apply Z.div_le_lower_bound; lia).
  pose proof (uniform_u32_range (Obs.draw g 4) lo hi ltac:(lia) ltac:(lia) ltac:(lia)).
  lia.
Qed.

(** generate_tick rewrites the price and the time of one entry: the
    volumes stay configured. *)
Lemma final_configured (clk : ClockReads) (g : Generator) :
  Spec.well_typed g = true -> 1 <= num_symbols_ g ->
  volumes_configured g = true -> volumes_configured (Obs.final g clk) = true.
Proof.
  intros Hwt Hns Hv. pose proof (selected g Hwt Hns Hv) as Ha.
  destruct (selected_symbol_in_use g Hwt Hns) as [Hsel Hlt].
  revert Hv. unfold volumes_configured, Gen.active_symbols, Obs.final.
  cbn [symbols_ num_symbols_]. intros Hv.
  rewrite take_insert_lt by lia.
  apply Invariant.forallb_insert; [exact Hv|].
  destruct (commit_price_fields (Obs.symbol g) (Obs.new_price g)
              (UInt.wrap64 (t_update clk))) as (_ & -> & _).
  apply andb_true_iff. split; lia.
Qed.

Lemma set_rng_state_configured (g : Generator) (x : Z) :
  volumes_configured (Gen.set_rng_state g x) = volumes_configured g.
Proof. reflexivity. Qed.

Lemma step_configured (clk : ClockReads) (i : nat) (buf : list MarketTick)
    (g : Generator) :
  Spec.well_typed g = true -> 1 <= num_symbols_ g ->
  volumes_configured g = true ->
  volumes_configured (snd (Gen.batch_step clk i buf g)) = true.
Proof.
  intros Hwt Hns Hv. rewrite Batch.step_state.
  pose proof (final_configured clk g Hwt Hns Hv) as Hf.
  destruct (0 <? i)%nat; [|exact Hf]. now rewrite set_rng_state_configured.
Qed.

Lemma loop_volumes (reads : nat -> ClockReads) (todo : nat) :
  forall (i : nat) (buf : list MarketTick) (g : Generator),
  (i + todo <= length buf)%nat ->
  Spec.well_typed g = true -> 1 <= num_symbols_ g ->
  volumes_configured g = true ->
  let out := fst (Gen.batch_loop reads todo i buf g) in
  let g' := snd (Gen.batch_loop reads todo i buf g) in
  volumes_configured g' = true /\
  forall (k : nat) (t : MarketTick), (i <= k < i + todo)%nat -> out !! k = Some t ->
    1000 <= volume t <= 200000.
Proof.
  induction todo as [|todo IH]; intros i buf g Hlen Hwt Hns Hv; cbv zeta.
  - cbn [Gen.batch_loop]. unfold ret. cbn [fst snd]. split; [exact Hv|]. intros; lia.
  - cbn [Gen.batch_loop]. unfold bind.
    pose proof (Batch.well_typed_step (reads i) i buf g Hwt Hns) as Hwt1.
    pose proof (step_configured (reads i) i buf g Hwt Hns Hv) as Hv1.
    pose proof (Batch.step_fields (reads i) i buf g) as Hf. cbv zeta in Hf.
    destruct (Batch.step_buffer (reads i) i buf g ltac:(lia)) as [ts Hbuf].
    destruct (Gen.batch_step (reads i) i buf g) as [buf1 g1].
    cbn [fst] in Hbuf. cbn [snd] in Hwt1, Hv1, Hf.
    destruct Hf as (_ & _ & _ & Hns1 & _).
    assert (Hlen1 : length buf1 = length buf) by (rewrite Hbuf; apply length_insert).
    pose proof (IH (S i) buf1 g1 ltac:(lia) Hwt1 ltac:(lia) Hv1) as Hrest.
    pose proof (Batch.loop_frame reads todo (S i) buf1 g1 ltac:(lia)) as Hfr.
    cbv zeta in Hrest, Hfr.
    destruct Hrest as [Hv2 Hticks]. destruct Hfr as [_ Hframe].
    split; [exact Hv2|].
    intros k t Hk Hkt. destruct (Nat.eq_dec k i) as [->|Hne].
    + rewrite Hframe in Hkt by lia. rewrite Hbuf in Hkt.
      rewrite list_lookup_insert_eq in Hkt by lia. injection Hkt as <-.
      now apply tick_volume.
    + apply (Hticks k); [lia|exact Hkt].
Qed.

(** initialize_symbols leaves configured volumes. *)
Lemma initialize_configured (symbol_names : list string)
    (venue_configs : list VenueInfo) (g : Generator) :
  length (symbols_ g) = Z.to_nat MAX_SYMBOLS ->
  length (venues_ g) = Z.to_nat MAX_VENUES ->
  volumes_configured (snd (Gen.initialize_symbols symbol_names venue_configs g)) = true.
Proof.
  intros Hls Hlv.
  destruct (Init.entries symbol_names venue_configs g Hls Hlv) as (Hn & _ & Hent & _).
  cbv zeta in Hn, Hent.
  apply configured_iff. intros i s Hi Hs. rewrite Hn, Nat2Z.id in Hi.
  destruct (lookup_lt_is_Some_2 symbol_names i ltac:(lia)) as [nm Hnm].
  destruct (Hent i nm Hi Hnm) as (s' & Hs' & _ & _ & _ & _ & Hr).
  rewrite Hs in Hs'. injection Hs' as <-. exact Hr.
Qed.

Lemma construct_configured (seed tps : Z) :
  volumes_configured (Gen.construct seed tps) = true.
Proof.
  unfold Gen.construct, bind, Gen.set_target_frequency, modify. cbv zeta.
  apply initialize_configured; reflexivity.
Qed.

End Volumes.

(** X30. Volumes of a configured generator.  initialize_symbols, and with
    it the constructor, gives every symbol in use an average volume between
    10000 and 100000; generate_tick_batch keeps it so, and every tick of the
    batch has a volume between 1000 and 200000. *)
Theorem generate_tick_batch_volumes (batch_clk : ClockReads)
    (reads : nat -> ClockReads) (buf : list MarketTick) (count : nat)
    (g : Generator) :
  (count <= length buf)%nat ->
  Spec.well_typed g = true -> 1 <= num_symbols_ g ->
  volumes_configured g = true ->
  let out := fst (Gen.generate_tick_batch batch_clk reads buf count g) in
  let g' := snd (Gen.generate_tick_batch batch_clk reads buf count g) in
  (forall k : nat, (k < count)%nat ->
     exists t : MarketTick, out !! k = Some t /\ 1000 <= volume t <= 200000) /\
  volumes_configured g' = true /\
  (forall seed tps : Z, volumes_configured (create_tick_generator seed tps) = true) /\
  (forall (symbol_names : list string) (venue_configs : list VenueInfo),
     volumes_configured (snd (Gen.initialize_symbols symbol_names venue_configs g))
     = true).
Proof.
  intros Hlen Hwt Hns Hv. cbv zeta.
  unfold Gen.generate_tick_batch, bind, modify, ret.
  pose proof (Batch.loop_frame reads count 0 buf g ltac:(lia)) as Hfr.
  pose proof (Volumes.loop_volumes reads count 0 buf g ltac:(lia) Hwt Hns Hv) as Hticks.
  cbv zeta in Hfr, Hticks.
  destruct (Gen.batch_loop reads count 0 buf g) as [out g1].
  cbn [fst snd] in Hfr, Hticks |- *.
  destruct Hfr as [Hl _]. destruct Hticks as [Hv1 Hticks].
  split; [|split; [|split]].
  - intros k Hk. destruct (lookup_lt_is_Some_2 out k ltac:(lia)) as [t Ht].
    exists t. split; [exact Ht|]. apply (Hticks k); [lia|exact Ht].
  - exact Hv1.
  - intros seed tps. apply Volumes.construct_configured.
  - intros symbol_names venue_configs.
    pose proof (well_typed_capacity g Hwt) as (Hls & _).
    apply Volumes.initialize_configured; [exact Hls|].
    revert Hwt. unfold Spec.well_typed. rewrite !andb_true_iff. intros H.
    destruct H as [[[[[[[[[[_ H2] _] _] _] _] _] _] _] _] _].
    now apply Nat.eqb_eq in H2.
Qed.

Lemma generate_tick_batch_volumes_witness :
  let g := create_tick_generator 42 1000 in
  let buf := replicate 4 sample_tick in
  let out := fst (Gen.generate_tick_batch sample_clock (fun _ => sample_clock) buf 3 g) in
  let g' := snd (Gen.generate_tick_batch sample_clock (fun _ => sample_clock) buf 3 g) in
  (forall k : nat, (k < 3)%nat ->
     exists t : MarketTick, out !! k = Some t /\ 1000 <= volume t <= 200000) /\
  volumes_configured g' = true /\
  (forall seed tps : Z, volumes_configured (create_tick_generator seed tps) = true) /\
  (forall (symbol_names : list string) (venue_configs : list VenueInfo),
     volumes_configured (snd (Gen.initialize_symbols symbol_names venue_configs g))
     = true).
Proof.
  cbv zeta.
  apply (generate_tick_batch_volumes sample_clock (fun _ => sample_clock)
           (replicate 4 sample_tick) 3 (create_tick_generator 42 1000)).
  - cbn. lia.
  - vm_compute. reflexivity.
  - vm_compute. congruence.
  - vm_compute. reflexivity.
Defined.
